(** * cquery: compile-command ingestion (src/project.cc) and the test
      helpers (src/test.cc)

    A shallow embedding of the argument classifier
    [GetCompilationEntryFromCompileCommandEntry], of the two loaders
    [LoadFromDirectoryListing] and [LoadCompilationEntriesFromDirectory], of
    [Project::Load], of the similarity score [ComputeGuessScore], of the
    lookup [Project::FindCompilationEntryForFile], of
    [Project::ForAllFilteredFiles] and of [split_string] and [DiffDocuments]
    of test.cc, with the properties of the specification and further
    properties of the code stated over them.

    Conventions.
    - [std::string] is [string]; [s[i]] is [char_at s i], which reads the
      terminating NUL at [i = s.size()] as the C++ operator does.
    - [int] is a [Z] kept in the 32-bit two's complement range by [to_int]
      after every arithmetic operation; positions in a vector are [nat].
    - [std::vector<std::string>] is [list string]; the two
      [std::unordered_set<std::string>] accumulators are [gset string]; the
      filename table of the project is a [gmap string nat].
    - [assert] aborts the process: the classifier returns [option], with
      [None] for the abort.
    - What is written to [std::cout] is the list of the lines written.
    - utils.h, the platform layer, libclang and rapidjson are not part of
      the sources at hand: the string tests of utils.h are modelled from
      the specification, every other function of theirs is a variable of
      the sections that use it. *)

From Stdlib Require Import ZArith Lia Ascii String Sorted.
From stdpp Require Import gmap strings list pretty.

Local Open Scope Z_scope.
Local Open Scope nat_scope.

(** ** Strings *)

(** [s[i]] for [0 <= i <= s.size()]. *)
Definition char_at (s : string) (i : nat) : ascii :=
  default "000"%char (String.get i s).

Fixpoint chars (s : string) : list ascii :=
  match s with
  | EmptyString => []
  | String c s' => c :: chars s'
  end.

(** ** Machine integers *)

Definition INT_MIN : Z := (-2147483648)%Z.
Definition INT_MAX : Z := 2147483647%Z.

Definition to_int (x : Z) : Z := ((x + 2147483648) mod 4294967296 - 2147483648)%Z.
Definition int_add (x y : Z) : Z := to_int (x + y).
Definition int_sub (x y : Z) : Z := to_int (x - y).

(** ** ComputeGuessScore *)

Module Score.

Definition kMatchPrefixWeight : Z := 100.
Definition kMismatchDirectoryWeight : Z := 100.
Definition kMatchPostfixWeight : Z := 1.

(** The loop counters [i], [j] and [offset] are [int]s that stay between 0
    and the lengths of the strings; they are natural numbers here.

    [for (i = 0; i < a.length() && i < b.length(); ++i) {
       if (a[i] != b[i]) break;
       score += kMatchPrefixWeight; }]
    The loop runs at most [a.length() - i] times; [fuel] bounds the number
    of iterations. It returns the final [i] and [score]. *)
Fixpoint prefix_loop (fuel : nat) (a b : string) (i : nat) (score : Z) : nat * Z :=
  match fuel with
  | O => (i, score)
  | S fuel' =>
      if (i <? String.length a) && (i <? String.length b) then
        if Ascii.eqb (char_at a i) (char_at b i)
        then prefix_loop fuel' a b (S i) (int_add score kMatchPrefixWeight)
        else (i, score)
      else (i, score)
  end.

(** [for (int j = i; j < a.length(); ++j)
       if (a[j] == '/') score -= kMismatchDirectoryWeight;] *)
Fixpoint directory_loop (fuel : nat) (a : string) (j : nat) (score : Z) : Z :=
  match fuel with
  | O => score
  | S fuel' =>
      if j <? String.length a then
        directory_loop fuel' a (S j)
          (if Ascii.eqb (char_at a j) "/"%char
           then int_sub score kMismatchDirectoryWeight else score)
      else score
  end.

(** [for (int offset = 1; offset <= a.length() && offset <= b.length(); ++offset) {
       if (a[a.size() - offset] != b[b.size() - offset]) break;
       score += kMatchPostfixWeight; }] *)
Fixpoint postfix_loop (fuel : nat) (a b : string) (offset : nat) (score : Z) : Z :=
  match fuel with
  | O => score
  | S fuel' =>
      if (offset <=? String.length a) && (offset <=? String.length b) then
        if Ascii.eqb (char_at a (String.length a - offset))
                     (char_at b (String.length b - offset))
        then postfix_loop fuel' a b (S offset) (int_add score kMatchPostfixWeight)
        else score
      else score
  end.

Definition ComputeGuessScore (a b : string) : Z :=
  let '(i, score) := prefix_loop (String.length a) a b 0 0%Z in
  let score := directory_loop (String.length a) a i score in
  let score := directory_loop (String.length b) b i score in
  postfix_loop (String.length a) a b 1 score.

(** *** The score as the specification words it *)

Fixpoint common_prefix_length (a b : list ascii) : nat :=
  match a, b with
  | x :: a', y :: b' => if Ascii.eqb x y then S (common_prefix_length a' b') else 0
  | _, _ => 0
  end.

Definition common_suffix_length (a b : list ascii) : nat :=
  common_prefix_length (reverse a) (reverse b).

(** Number of ['/'] characters of [s] at index [i] or later. *)
Definition slashes_from (i : nat) (s : list ascii) : nat :=
  length (filter (λ c, c = "/"%char) (drop i s)).

Definition spec_score (a b : string) : Z :=
  let i := common_prefix_length (chars a) (chars b) in
  (100 * Z.of_nat i
   - 100 * Z.of_nat (slashes_from i (chars a))
   - 100 * Z.of_nat (slashes_from i (chars b))
   + Z.of_nat (common_suffix_length (chars a) (chars b)))%Z.

(** No [int] operation of [ComputeGuessScore a b] overflows. *)
Definition no_overflow (a b : string) : Prop :=
  (100 * (Z.of_nat (String.length a) + Z.of_nat (String.length b)) <= INT_MAX)%Z.

End Score.

Import Score.

(** ** Helpers of utils.h *)

(** Modelled from the spec: [StartsWith] of utils.h, which is not part of
    the sources at hand; "starts with" is the plain prefix test. *)
Fixpoint StartsWith (value start : string) {struct start} : bool :=
  match start with
  | EmptyString => true
  | String c start' =>
      match value with
      | EmptyString => false
      | String d value' => Ascii.eqb d c && StartsWith value' start'
      end
  end.

(** Modelled from the spec: [EndsWith] of utils.h, the suffix test, read
    from the ends of both strings. *)
Definition EndsWith (value ending : string) : bool :=
  StartsWith (String.rev value) (String.rev ending).

(** Modelled from the spec: [AnyStartsWith] of utils.h, whether some
    element of [values] starts with [start]. *)
Definition AnyStartsWith (values : list string) (start : string) : bool :=
  existsb (λ value, StartsWith value start) values.

(** Modelled from the spec: [StartsWithAny] of utils.h, whether [value]
    starts with some element of [startings]. *)
Definition StartsWithAny (value : string) (startings : list string) : bool :=
  existsb (λ starting, StartsWith value starting) startings.

(** [s.rfind(c)]: the last position of [c] in [s], [None] for [npos]. *)
Fixpoint rfind (s : string) (c : ascii) : option nat :=
  match s with
  | EmptyString => None
  | String d s' =>
      match rfind s' c with
      | Some k => Some (S k)
      | None => if Ascii.eqb d c then Some 0 else None
      end
  end.

(** [s.substr(pos)] for [pos <= s.size()]. *)
Fixpoint substr (s : string) (pos : nat) : string :=
  match pos, s with
  | S pos', String _ s' => substr s' pos'
  | _, _ => s
  end.

Definition isdigit (c : ascii) : bool :=
  match Ascii.is_nat c with Some _ => true | None => false end.

(** ** Data of project.cc *)

Record CompileCommandsEntry := {
  directory : string;
  file : string;
  command : string;
  args : list string
}.

Record ProjectConfig := {
  quote_dirs : gset string;
  angle_dirs : gset string;
  extra_flags : list string;
  project_dir : string;
  resource_dir : string
}.

(** [Project::Entry] of project.h, with the fields project.cc uses. Its
    [args] is [entry_args] here, [args] being the field of
    [CompileCommandsEntry]. *)
Record Entry := {
  filename : string;
  entry_args : list string;
  is_inferred : bool
}.

Definition kBlacklistMulti : list string :=
  ["-MF"; "-MT"; "-MQ"; "-o"; "--serialize-diagnostics"; "-Xclang"].

Definition kBlacklist : list string :=
  ["-c"; "-MP"; "-MD"; "-MMD"; "--fcolor-diagnostics"].

Definition kPathArgs : list string :=
  ["-I"; "-iquote"; "-isystem"; "--sysroot="; "-isysroot"; "-gcc-toolchain";
   "-include-pch"; "-iframework"; "-F"; "-imacros"; "-include"].

Definition kNormalizePathArgs : list string := ["--sysroot="].

Definition kQuoteIncludeArgs : list string := ["-iquote"].
Definition kAngleIncludeArgs : list string := ["-I"; "-isystem"].

Definition ShouldAddToQuoteIncludes (arg : string) : bool :=
  StartsWithAny arg kQuoteIncludeArgs.
Definition ShouldAddToAngleIncludes (arg : string) : bool :=
  StartsWithAny arg kAngleIncludeArgs.

Definition SourceFileType (path : string) : option string :=
  if EndsWith path ".c" then Some "c"
  else if EndsWith path ".cpp" || EndsWith path ".cc" then Some "c++"
  else if EndsWith path ".mm" then Some "objective-c++"
  else if EndsWith path ".m" then Some "objective-c"
  else None.

(** The state of the argument loop of the classifier: its three local
    flags, the accumulator behind [config] and [result.args]. *)
Record LoopState := {
  next_flag_is_path : bool;
  add_next_flag_to_quote_dirs : bool;
  add_next_flag_to_angle_dirs : bool;
  config : ProjectConfig;
  result_args : list string
}.

Definition insert_quote_dir (p : string) (c : ProjectConfig) : ProjectConfig :=
  {| quote_dirs := {[ p ]} ∪ quote_dirs c; angle_dirs := angle_dirs c;
     extra_flags := extra_flags c; project_dir := project_dir c;
     resource_dir := resource_dir c |}.

Definition insert_angle_dir (p : string) (c : ProjectConfig) : ProjectConfig :=
  {| quote_dirs := quote_dirs c; angle_dirs := {[ p ]} ∪ angle_dirs c;
     extra_flags := extra_flags c; project_dir := project_dir c;
     resource_dir := resource_dir c |}.

Definition insert_dirs (to_quote to_angle : bool) (p : string)
    (c : ProjectConfig) : ProjectConfig :=
  let c := if to_quote then insert_quote_dir p c else c in
  if to_angle then insert_angle_dir p c else c.

(** [result.args.push_back(arg)]. *)
Definition push_back (arg : string) (st : LoopState) : LoopState :=
  {| next_flag_is_path := next_flag_is_path st;
     add_next_flag_to_quote_dirs := add_next_flag_to_quote_dirs st;
     add_next_flag_to_angle_dirs := add_next_flag_to_angle_dirs st;
     config := config st;
     result_args := result_args st ++ [arg] |}.

(** The state after a split spelling of a path flag: the next token is its
    value. *)
Definition split_state (arg : string) (st : LoopState) : LoopState :=
  {| next_flag_is_path := true;
     add_next_flag_to_quote_dirs := ShouldAddToQuoteIncludes arg;
     add_next_flag_to_angle_dirs := ShouldAddToAngleIncludes arg;
     config := config st;
     result_args := result_args st |}.

(** The state after a fused spelling of a path flag with value [path]. *)
Definition fused_state (flag_type path : string) (st : LoopState) : LoopState :=
  {| next_flag_is_path := next_flag_is_path st;
     add_next_flag_to_quote_dirs := add_next_flag_to_quote_dirs st;
     add_next_flag_to_angle_dirs := add_next_flag_to_angle_dirs st;
     config :=
       insert_dirs (ShouldAddToQuoteIncludes flag_type)
         (ShouldAddToAngleIncludes flag_type) path (config st);
     result_args := result_args st |}.

(** The state after the value of a split spelling has been read and
    normalised. *)
Definition value_state (normalized_arg : string) (st : LoopState) : LoopState :=
  {| next_flag_is_path := false;
     add_next_flag_to_quote_dirs := false;
     add_next_flag_to_angle_dirs := false;
     config :=
       insert_dirs (add_next_flag_to_quote_dirs st)
         (add_next_flag_to_angle_dirs st) normalized_arg (config st);
     result_args := result_args st |}.

(** The state in which the classifier enters its argument loop. *)
Definition loop_entry_state (config0 : ProjectConfig) (result_args0 : list string)
    : LoopState :=
  {| next_flag_is_path := false;
     add_next_flag_to_quote_dirs := false;
     add_next_flag_to_angle_dirs := false;
     config := config0;
     result_args := result_args0 |}.

Section Classifier.

(** [NormalizePath] is the path canonicalisation of the platform layer and
    [g_disable_normalize_path_for_test] the global toggle of the tests. *)
Variable g_disable_normalize_path_for_test : bool.
Variable NormalizePath : string → string.

Definition NormalizePathWithTestOptOut (path : string) : string :=
  if g_disable_normalize_path_for_test then "&" +:+ path
  else NormalizePath path.

(** The lambda [cleanup_maybe_relative_path]; [None] is the failed
    [assert(!path.empty())]. *)
Definition cleanup_maybe_relative_path (entry : CompileCommandsEntry)
    (path : string) : option string :=
  if String.eqb path "" then None
  else if Ascii.eqb (char_at path 0) "/" || String.eqb (directory entry) ""
  then Some (NormalizePathWithTestOptOut path)
  else Some (NormalizePathWithTestOptOut (directory entry +:+ "/" +:+ path)).

(** The condition of the [while] loop that strips the compiler command,
    without its bound check [i < entry.args.size()]. *)
Definition is_command_token (result_filename arg : string) : bool :=
  negb (Ascii.eqb (char_at arg 0) "-")
  && negb (String.eqb (NormalizePathWithTestOptOut arg) result_filename)
  && match rfind arg "." with
     | None => true
     | Some dot =>
         (dot + 4 <? String.length arg) || isdigit (char_at arg (dot + 1))
     end.

(** [while (i < entry.args.size() && ...) ++i;] over the arguments from
    position [i] on; returns the final [i]. *)
Fixpoint strip_loop (result_filename : string) (remaining : list string)
    (i : nat) : nat :=
  match remaining with
  | [] => i
  | arg :: remaining' =>
      if is_command_token result_filename arg
      then strip_loop result_filename remaining' (S i)
      else i
  end.

(** [for (const std::string& flag_type : kPathArgs)] with its two [break]s;
    returns the possibly rewritten [arg] and the new state, [None] for the
    failed [assert(!path.empty())]. *)
Fixpoint path_args_loop (entry : CompileCommandsEntry)
    (flag_types : list string) (arg : string) (st : LoopState)
    : option (string * LoopState) :=
  match flag_types with
  | [] => Some (arg, st)
  | flag_type :: flag_types' =>
      if String.eqb arg flag_type then
        Some (arg, split_state arg st)
      else if StartsWith arg flag_type then
        let path := substr arg (String.length flag_type) in
        if String.eqb path "" then None
        else
          match cleanup_maybe_relative_path entry path with
          | None => None
          | Some path =>
              let arg :=
                if StartsWithAny arg kNormalizePathArgs
                then flag_type +:+ path else arg in
              Some (arg, fused_state flag_type path st)
          end
      else path_args_loop entry flag_types' arg st
  end.

(** [for (; i < entry.args.size(); ++i)] over the arguments from position
    [i] on. [++i; continue;] skips the head of the remaining arguments. *)
Fixpoint args_loop (entry : CompileCommandsEntry) (remaining : list string)
    (st : LoopState) : option LoopState :=
  match remaining with
  | [] => Some st
  | arg :: remaining' =>
      if negb (next_flag_is_path st) && StartsWithAny arg kBlacklistMulti then
        match remaining' with
        | [] => Some st
        | _ :: remaining'' => args_loop entry remaining'' st
        end
      else if negb (next_flag_is_path st) && StartsWithAny arg kBlacklist then
        args_loop entry remaining' st
      else if next_flag_is_path st then
        match cleanup_maybe_relative_path entry arg with
        | None => None
        | Some normalized_arg =>
            args_loop entry remaining'
              (push_back arg (value_state normalized_arg st))
        end
      else
        match path_args_loop entry kPathArgs arg st with
        | None => None
        | Some (arg, st) => args_loop entry remaining' (push_back arg st)
        end
  end.

(** The part of [result.args] built before the argument loop. *)
Definition initial_args (entry : CompileCommandsEntry) (i : nat) : list string :=
  let result_args :=
    if 0 <? i then [default "" (args entry !! (i - 1))] else ["clang++"] in
  let result_args :=
    if negb (AnyStartsWith (args entry) "-working-directory")
    then result_args ++ ["-working-directory"; directory entry]
    else result_args in
  match SourceFileType (file entry) with
  | Some source_file_type =>
      let result_args :=
        if negb (AnyStartsWith (args entry) "-x")
        then result_args ++ ["-x" +:+ source_file_type] else result_args in
      if negb (AnyStartsWith (args entry) "-std=") then
        if String.eqb source_file_type "c" then result_args ++ ["-std=gnu11"]
        else if String.eqb source_file_type "c++" then result_args ++ ["-std=c++14"]
        else result_args
      else result_args
  | None => result_args
  end.

(** The part after the argument loop: the extra flags, then the three
    guarded flags. *)
Definition final_args (config0 : ProjectConfig) (result_args : list string)
    : list string :=
  let result_args := result_args ++ extra_flags config0 in
  let result_args :=
    if negb (AnyStartsWith result_args "-resource-dir")
    then result_args ++ ["-resource-dir=" +:+ resource_dir config0]
    else result_args in
  let result_args :=
    if negb (AnyStartsWith result_args "-Wno-unknown-warning-option")
    then result_args ++ ["-Wno-unknown-warning-option"] else result_args in
  if negb (AnyStartsWith result_args "-fparse-all-comments")
  then result_args ++ ["-fparse-all-comments"] else result_args.

(** The classifier from its argument loop on, the loop going over
    [remaining]. It returns the entry and the accumulator as the call
    leaves it behind [config], or [None] when an assertion fails. *)
Definition classify_from (config0 : ProjectConfig) (entry : CompileCommandsEntry)
    (i : nat) (remaining : list string) : option (Entry * ProjectConfig) :=
  match args_loop entry remaining
          (loop_entry_state config0 (initial_args entry i)) with
  | None => None
  | Some st =>
      Some ({| filename := NormalizePathWithTestOptOut (file entry);
               entry_args := final_args (config st) (result_args st);
               is_inferred := false |},
            config st)
  end.

(** The position at which the [while] loop over the compiler command
    stops. *)
Definition compiler_end (entry : CompileCommandsEntry) : nat :=
  strip_loop (NormalizePathWithTestOptOut (file entry)) (args entry) 0.

(** The classifier: the loop goes over the arguments from [i] on. *)
Definition GetCompilationEntryFromCompileCommandEntry
    (config0 : ProjectConfig) (entry : CompileCommandsEntry)
    : option (Entry * ProjectConfig) :=
  let i := compiler_end entry in
  classify_from config0 entry i (drop i (args entry)).

End Classifier.

(** ** Notions used to state the properties of the argument loop *)

(** How the loop over [kPathArgs] treats [arg]: by the first flag type that
    [arg] equals ([Split], the value is the next token) or starts with
    ([Fused], the value is the rest of the token). *)
Inductive PathKind := Split | Fused (flag_type : string) | NoPath.

Fixpoint path_kind (flag_types : list string) (arg : string) : PathKind :=
  match flag_types with
  | [] => NoPath
  | flag_type :: flag_types' =>
      if String.eqb arg flag_type then Split
      else if StartsWith arg flag_type then Fused flag_type
      else path_kind flag_types' arg
  end.

(** Whether the argument loop, entered with
    [next_flag_is_path = expecting_path], is about to read a flag once it
    has gone through exactly the tokens [pre]: [next_flag_is_path] is false
    again and no [++i] of a multi-token flag reaches past [pre]. *)
Fixpoint flag_position_after (expecting_path : bool) (pre : list string) : bool :=
  match pre with
  | [] => negb expecting_path
  | arg :: pre' =>
      if expecting_path then flag_position_after false pre'
      else if StartsWithAny arg kBlacklistMulti then
        match pre' with
        | [] => false
        | _ :: pre'' => flag_position_after false pre''
        end
      else if StartsWithAny arg kBlacklist then flag_position_after false pre'
      else
        flag_position_after
          (match path_kind kPathArgs arg with Split => true | _ => false end) pre'
  end.

(** A token the argument loop passes through untouched when it reads it
    as a flag: not blacklisted, not a path flag in either spelling. *)
Definition plain_token (arg : string) : Prop :=
  StartsWithAny arg kBlacklistMulti = false
  ∧ StartsWithAny arg kBlacklist = false
  ∧ path_kind kPathArgs arg = NoPath.

(** The prefixes by which the classifier looks for the flags it injects
    before the argument loop. *)
Definition kInjectedFlagGuards : list string :=
  ["-working-directory"; "-x"; "-std="].

(** The first element of [result.args]: the token before the position [i]
    at which the scan over the compiler command stopped, or the dummy. *)
Definition executable_of (entry : CompileCommandsEntry) (i : nat) : string :=
  if 0 <? i then default "" (args entry !! (i - 1)) else "clang++".

(** The raw invocation [entry] with its arguments replaced. *)
Definition with_args (entry : CompileCommandsEntry) (raw : list string)
    : CompileCommandsEntry :=
  {| directory := directory entry; file := file entry;
     command := command entry; args := raw |}.

(** The tokens of [remaining] that the argument loop, entered with
    [next_flag_is_path = expecting_path], reads as the value of a split
    path flag. *)
Fixpoint path_values (expecting_path : bool) (remaining : list string)
    : list string :=
  match remaining with
  | [] => []
  | arg :: remaining' =>
      if expecting_path then arg :: path_values false remaining'
      else if StartsWithAny arg kBlacklistMulti then
        match remaining' with
        | [] => []
        | _ :: remaining'' => path_values false remaining''
        end
      else if StartsWithAny arg kBlacklist then path_values false remaining'
      else
        path_values
          (match path_kind kPathArgs arg with Split => true | _ => false end)
          remaining'
  end.

(** ** The harness of the test suite *)

(** [CheckFlags] of the test suite: it sets the toggle, so [NormalizePath]
    is never called, classifies [raw] with the accumulator of the tests and
    compares [result.args]; here it returns them. *)
Definition test_config : ProjectConfig :=
  {| quote_dirs := ∅; angle_dirs := ∅; extra_flags := [];
     project_dir := "/w/c/s/"; resource_dir := "/w/resource_dir/" |}.

Definition CheckFlags (directory0 file0 : string) (raw : list string)
    : option (list string) :=
  match GetCompilationEntryFromCompileCommandEntry true (λ path, path) test_config
          {| directory := directory0; file := file0; command := "";
             args := raw |} with
  | Some (result, _) => Some (entry_args result)
  | None => None
  end.

(** A stand-in for [NormalizePath] in the examples: it roots a relative
    path and leaves an absolute one alone. *)
Definition slash_rooted (path : string) : string :=
  if StartsWith path "/" then path else "/" +:+ path.

(** The accumulator of the test suite with one user-supplied extra flag. *)
Definition extra_flag_config : ProjectConfig :=
  {| quote_dirs := ∅; angle_dirs := ∅; extra_flags := ["-DEXTRA"];
     project_dir := "/w/c/s/"; resource_dir := "/w/resource_dir/" |}.

(** A raw invocation of the test suite's file in its directory. *)
Definition test_entry (raw : list string) : CompileCommandsEntry :=
  {| directory := "/dir/"; file := "file.cc"; command := ""; args := raw |}.

(** ** The project index *)

Record Project := {
  entries : list Entry;
  absolute_path_to_entry_index_ : gmap string nat
}.

(** The last loop of [Project::Load]:
    [absolute_path_to_entry_index_[entries[i].filename] = i]. *)
Fixpoint index_loop (remaining : list Entry) (i : nat)
    (index : gmap string nat) : gmap string nat :=
  match remaining with
  | [] => index
  | e :: remaining' => index_loop remaining' (S i) (<[filename e := i]> index)
  end.

Definition loaded_project (es : list Entry) : Project :=
  {| entries := es; absolute_path_to_entry_index_ := index_loop es 0 ∅ |}.

(** A default-constructed [Project::Entry]. *)
Definition empty_Entry : Entry :=
  {| filename := ""; entry_args := []; is_inferred := false |}.

(** [for (Entry& entry : entries)] of the inference. [best_entry] is the
    position of the entry the pointer refers to, [None] for [nullptr]. *)
Fixpoint guess_loop (filename0 : string) (remaining : list Entry) (pos : nat)
    (best_entry : option nat) (best_score : Z) : option nat * Z :=
  match remaining with
  | [] => (best_entry, best_score)
  | entry :: remaining' =>
      let score := ComputeGuessScore filename0 (filename entry) in
      if (best_score <? score)%Z
      then guess_loop filename0 remaining' (S pos) (Some pos) score
      else guess_loop filename0 remaining' (S pos) best_entry best_score
  end.

(** [Project::FindCompilationEntryForFile]. [Project::Load] stores only
    positions below [entries.size()] in the table, so [entries[it->second]]
    is in range for a loaded project. *)
Definition FindCompilationEntryForFile (p : Project) (filename0 : string) : Entry :=
  match absolute_path_to_entry_index_ p !! filename0 with
  | Some k => default empty_Entry (entries p !! k)
  | None =>
      let '(best_entry, _) := guess_loop filename0 (entries p) 0 None INT_MIN in
      {| filename := filename0;
         entry_args :=
           match best_entry with
           | Some k => entry_args (default empty_Entry (entries p !! k))
           | None => []
           end;
         is_inferred := true |}
  end.

(** The test suite receives the result of the lookup in an
    [optional<Project::Entry>]; the conversion from [Project::Entry] always
    engages it. *)
Definition FindCompilationEntryForFile_optional (p : Project)
    (filename0 : string) : option Entry :=
  Some (FindCompilationEntryForFile p filename0).

(** The score of an entry of the index against the queried filename. *)
Definition guess_score (filename0 : string) (e : Entry) : Z :=
  ComputeGuessScore filename0 (filename e).

(** The index of the "Entry inference" test, with the arguments the
    specification gives its two entries. *)
Definition inference_test_entries : list Entry :=
  [ {| filename := "/a/b/c/d/bar.cc"; entry_args := ["x1"]; is_inferred := false |};
    {| filename := "/a/b/c/baz.cc"; entry_args := ["x2"]; is_inferred := false |} ].

(** ** The loaders *)

(** One command of the compilation database as libclang hands it out:
    [clang_CompileCommand_getDirectory], [clang_CompileCommand_getFilename]
    and the arguments [clang_CompileCommand_getArg] enumerates. *)
Record CXCompileCommand := {
  getDirectory : string;
  getFilename : string;
  getArgs : list string
}.

Section Loader.

Variable g_disable_normalize_path_for_test : bool.
Variable NormalizePath : string → string.

(** Collaborators that are not part of the sources at hand: [TrimInPlace]
    of utils.h; [ReadLinesWithEnding], [GetFilesInFolder] (called with
    [recursive] and [add_folder_to_path] set) and [FileExists] of the
    platform layer; and libclang's
    [clang_CompilationDatabase_fromDirectory], which yields the commands of
    the database or [None] for [CXCompilationDatabase_CanNotLoadDatabase]. *)
Variable TrimInPlace : string → string.
Variable ReadLinesWithEnding : string → list string.
Variable GetFilesInFolder : string → list string.
Variable FileExists : string → bool.
Variable clang_CompilationDatabase_fromDirectory :
  string → option (list CXCompileCommand).

(** [for (std::string line : ReadLinesWithEnding(...))] of
    [LoadFromDirectoryListing]: the flags of the [.cquery] file. *)
Fixpoint cquery_lines_loop (lines : list string) (args0 : list string)
    : list string :=
  match lines with
  | [] => args0
  | line :: lines' =>
      let line := TrimInPlace line in
      if String.eqb line "" || StartsWith line "#"
      then cquery_lines_loop lines' args0
      else cquery_lines_loop lines' (args0 ++ [line])
  end.

(** [for (const std::string& file : files)] of [LoadFromDirectoryListing];
    every call of the classifier goes on with the accumulator the previous
    one left. [None] when the classifier aborts. *)
Fixpoint listing_files_loop (args0 : list string) (files : list string)
    (config0 : ProjectConfig) (result : list Entry)
    : option (list Entry * ProjectConfig) :=
  match files with
  | [] => Some (result, config0)
  | file0 :: files' =>
      match SourceFileType file0 with
      | Some _ =>
          match GetCompilationEntryFromCompileCommandEntry
                  g_disable_normalize_path_for_test NormalizePath config0
                  {| directory := project_dir config0; file := file0;
                     command := ""; args := args0 ++ [file0] |} with
          | None => None
          | Some (entry, config1) =>
              listing_files_loop args0 files' config1 (result ++ [entry])
          end
      | None => listing_files_loop args0 files' config0 result
      end
  end.

Definition LoadFromDirectoryListing (config0 : ProjectConfig)
    : option (list Entry * ProjectConfig) :=
  let args0 :=
    cquery_lines_loop (ReadLinesWithEnding (project_dir config0 +:+ "/.cquery")) [] in
  let files := GetFilesInFolder (project_dir config0) in
  listing_files_loop args0 files config0 [].

(** The absolute filename of a command of the database. *)
Definition absolute_filename (directory0 relative_filename : string) : string :=
  if negb (String.eqb relative_filename "")
     && Ascii.eqb (char_at relative_filename 0) "/"
  then relative_filename
  else directory0 +:+ "/" +:+ relative_filename.

(** [for (unsigned int i = 0; i < num_commands; i++)] of
    [LoadCompilationEntriesFromDirectory]. *)
Fixpoint commands_loop (commands : list CXCompileCommand)
    (config0 : ProjectConfig) (result : list Entry)
    : option (list Entry * ProjectConfig) :=
  match commands with
  | [] => Some (result, config0)
  | cx_command :: commands' =>
      let entry :=
        {| directory := getDirectory cx_command;
           file :=
             NormalizePathWithTestOptOut g_disable_normalize_path_for_test
               NormalizePath
               (absolute_filename (getDirectory cx_command) (getFilename cx_command));
           command := "";
           args := getArgs cx_command |} in
      match GetCompilationEntryFromCompileCommandEntry
              g_disable_normalize_path_for_test NormalizePath config0 entry with
      | None => None
      | Some (result_entry, config1) =>
          commands_loop commands' config1 (result ++ [result_entry])
      end
  end.

Definition LoadCompilationEntriesFromDirectory (config0 : ProjectConfig)
    (opt_compilation_db_dir : string) : option (list Entry * ProjectConfig) :=
  if FileExists (project_dir config0 +:+ "/.cquery")
  then LoadFromDirectoryListing config0
  else
    let compilation_db_dir :=
      if String.eqb opt_compilation_db_dir "" then project_dir config0
      else opt_compilation_db_dir in
    match clang_CompilationDatabase_fromDirectory compilation_db_dir with
    | None => LoadFromDirectoryListing config0
    | Some commands => commands_loop commands config0 []
    end.

(** [Project::Load] as far as [entries] and the filename table go; the two
    vectors of include directories, which it fills from the accumulator
    through [EnsureEndsInSlash], are not fields of [Project] here. [None]
    when the classifier aborts. *)
Definition Load (extra_flags0 : list string)
    (opt_compilation_db_dir root_directory resource_directory : string)
    : option Project :=
  let config0 :=
    {| quote_dirs := ∅; angle_dirs := ∅; extra_flags := extra_flags0;
       project_dir := root_directory; resource_dir := resource_directory |} in
  match LoadCompilationEntriesFromDirectory config0 opt_compilation_db_dir with
  | None => None
  | Some (entries0, _) => Some (loaded_project entries0)
  end.

End Loader.

(** ** Filtered iteration *)

(** [Project::ForAllFilteredFiles]. [IsMatch] is [GroupMatch::IsMatch] of
    match.h for the white- and blacklist of the configuration; the calls of
    [action] are returned in the order they are made. *)
Fixpoint filtered_files_loop (IsMatch : string → bool) (remaining : list Entry)
    (i : nat) (calls : list (nat * Entry)) : list (nat * Entry) :=
  match remaining with
  | [] => calls
  | entry :: remaining' =>
      if IsMatch (filename entry)
      then filtered_files_loop IsMatch remaining' (S i) (calls ++ [(i, entry)])
      else filtered_files_loop IsMatch remaining' (S i) calls
  end.

Definition ForAllFilteredFiles (IsMatch : string → bool) (p : Project)
    : list (nat * Entry) :=
  filtered_files_loop IsMatch (entries p) 0 [].

(** ** The helpers of test.cc *)

(** What a call does: it returns a value, or it throws
    [std::out_of_range]. *)
Inductive Outcome (A : Type) := Returned (a : A) | Thrown.
Arguments Returned {A} a.
Arguments Thrown {A}.

(** [str.find(delimiter, pos)]: the first position from [pos] on at which
    [delimiter] occurs in [str], [None] for [npos]. An empty [delimiter]
    occurs at every position up to [str.size()]. *)
Fixpoint string_find (str delimiter : string) (pos : nat) {struct str}
    : option nat :=
  match pos with
  | 0 =>
      if StartsWith str delimiter then Some 0
      else match str with
           | EmptyString => None
           | String _ str' => S <$> string_find str' delimiter 0
           end
  | S pos' =>
      match str with
      | EmptyString => None
      | String _ str' => S <$> string_find str' delimiter pos'
      end
  end.

(** The [while] loop of [split_string] and the [push_back] after it;
    [str.substr(prev)] throws when [prev > str.size()]. The loop is run
    with [fuel] iterations at most, [None] when they do not suffice. *)
Fixpoint split_loop (fuel : nat) (str delimiter : string) (prev : nat)
    (strings : list string) : option (Outcome (list string)) :=
  match fuel with
  | 0 => None
  | S fuel' =>
      match string_find str delimiter prev with
      | Some pos =>
          split_loop fuel' str delimiter (pos + 1)
            (strings ++ [String.substring prev (pos - prev) str])
      | None =>
          if prev <=? String.length str
          then Some (Returned (strings ++ [substr str prev]))
          else Some Thrown
      end
  end.

(** [split_string]; [prev] grows in every iteration and the loop ends once
    it is past [str.size()], so [str.size() + 2] iterations suffice. *)
Definition split_string (str delimiter : string)
    : option (Outcome (list string)) :=
  split_loop (String.length str + 2) str delimiter 0 [].

(** The lines [DiffDocuments] writes to [std::cout] for the line [i] of
    the two renderings. *)
Definition differing_line (actual_output expected_output : list string)
    (i : nat) : list string :=
  match actual_output !! i, expected_output !! i with
  | Some actual_line, Some expected_line =>
      if negb (String.eqb actual_line expected_line)
      then ["Line " +:+ pretty i +:+ " differs:";
            "  expected: " +:+ expected_line;
            "  actual:   " +:+ actual_line]
      else []
  | _, _ => []
  end.

(** [DiffDocuments] from the two split renderings on: the lines it writes
    to [std::cout], in the order it writes them. *)
Definition diff_output (actual_output expected_output : list string)
    : list string :=
  let len := length actual_output `min` length expected_output in
  concat (differing_line actual_output expected_output <$> seq 0 len)
  ++ (if len <? length actual_output
      then "Additional output in actual:"
           :: ((λ line, "  " +:+ line) <$> drop len actual_output)
      else [])
  ++ (if len <? length expected_output
      then "Additional output in expected:"
           :: ((λ line, "  " +:+ line) <$> drop len expected_output)
      else []).

Section Diff.

(** [rapidjson::Document] and the [ToString] of test.cc, which renders a
    document through rapidjson's [PrettyWriter]. *)
Variable Document : Type.
Variable ToString : Document → string.

Definition DiffDocuments (expected actual : Document)
    : option (Outcome (list string)) :=
  match split_string (ToString actual) (String "010" "") with
  | Some (Returned actual_output) =>
      match split_string (ToString expected) (String "010" "") with
      | Some (Returned expected_output) =>
          Some (Returned (diff_output actual_output expected_output))
      | Some Thrown => Some Thrown
      | None => None
      end
  | Some Thrown => Some Thrown
  | None => None
  end.

End Diff.

(** ** Further notions used to state properties *)

(** An emitted token [o] against the raw token [k] it comes from: the same
    token, or the rewritten spelling of a fused [--sysroot=]. *)
Definition emitted_from (o k : string) : Prop :=
  o = k
  ∨ (StartsWith k "--sysroot=" = true ∧ StartsWith o "--sysroot=" = true).

(** The three flags the classifier appends after the extra flags. *)
Definition kAppendedFlags (config0 : ProjectConfig) : list string :=
  ["-resource-dir=" +:+ resource_dir config0;
   "-Wno-unknown-warning-option"; "-fparse-all-comments"].

(** Number of ['/'] characters of a string. *)
Definition slash_count (s : string) : nat := slashes_from 0 (chars s).

(** The pieces put together again, with [separator] between them. *)
Fixpoint join (separator : string) (pieces : list string) : string :=
  match pieces with
  | [] => ""
  | [piece] => piece
  | piece :: pieces' => piece +:+ separator +:+ join separator pieces'
  end.

(** A set of directories [after] against the set [before] it grew from:
    nothing is lost, and every new member satisfies [made]. *)
Definition grown_by (made : string → Prop) (before after : gset string) : Prop :=
  before ⊆ after ∧ ∀ p, p ∈ after → p ∈ before ∨ made p.

(** * Properties *)

(** ** Lemmas on strings and machine integers *)

Lemma chars_length s : length (chars s) = String.length s.
Proof. induction s; simpl; congruence. Qed.

Lemma chars_lookup s i : chars s !! i = String.get i s.
Proof.
  revert i; induction s as [|c s IH]; intros [|i]; simpl; auto.
Qed.

Lemma char_at_lookup s i c : chars s !! i = Some c → char_at s i = c.
Proof. unfold char_at. rewrite chars_lookup. now intros ->. Qed.

Lemma to_int_id x : (INT_MIN <= x <= INT_MAX)%Z → to_int x = x.
Proof.
  unfold to_int, INT_MIN, INT_MAX. intros H.
  rewrite Z.mod_small; lia.
Qed.

Lemma to_int_add_l x y : to_int (to_int x + y) = to_int (x + y).
Proof.
  unfold to_int.
  replace (((x + 2147483648) mod 4294967296 - 2147483648 + y + 2147483648))%Z
    with ((x + 2147483648) mod 4294967296 + y)%Z by lia.
  rewrite Zplus_mod_idemp_l. do 2 f_equal. lia.
Qed.

(** ** The three loops of [ComputeGuessScore] *)

Lemma common_prefix_length_drop (la lb : list ascii) i :
  common_prefix_length (drop i la) (drop i lb) =
  match la !! i, lb !! i with
  | Some x, Some y =>
      if Ascii.eqb x y
      then S (common_prefix_length (drop (S i) la) (drop (S i) lb)) else 0
  | _, _ => 0
  end.
Proof.
  destruct (la !! i) as [x|] eqn:Ha.
  - rewrite (drop_S la x i Ha).
    destruct (lb !! i) as [y|] eqn:Hb.
    + now rewrite (drop_S lb y i Hb).
    + apply lookup_ge_None_1 in Hb. now rewrite (drop_ge lb i Hb).
  - apply lookup_ge_None_1 in Ha. now rewrite (drop_ge la i Ha).
Qed.

Lemma common_prefix_length_le_l (la lb : list ascii) :
  common_prefix_length la lb ≤ length la.
Proof.
  revert lb; induction la as [|x la IH]; intros [|y lb]; simpl; try lia.
  destruct (Ascii.eqb x y); [specialize (IH lb)|]; lia.
Qed.

Lemma common_prefix_length_le_r (la lb : list ascii) :
  common_prefix_length la lb ≤ length lb.
Proof.
  revert lb; induction la as [|x la IH]; intros [|y lb]; simpl; try lia.
  destruct (Ascii.eqb x y); [specialize (IH lb)|]; lia.
Qed.

Lemma slashes_from_step (l : list ascii) j c :
  l !! j = Some c →
  slashes_from j l =
  (if Ascii.eqb c "/" then 1 else 0) + slashes_from (S j) l.
Proof.
  intros H. unfold slashes_from. rewrite (drop_S l c j H), filter_cons.
  destruct (Ascii.eqb_spec c "/"); case_decide; simpl; congruence.
Qed.

Lemma slashes_from_le (l : list ascii) j : slashes_from j l ≤ length l - j.
Proof.
  unfold slashes_from.
  etransitivity; [apply length_filter|]. now rewrite length_drop.
Qed.

Lemma lookup_chars_lt s i :
  i < String.length s → ∃ c, chars s !! i = Some c ∧ char_at s i = c.
Proof.
  intros H. rewrite <- chars_length in H.
  destruct (lookup_lt_is_Some_2 _ _ H) as [c Hc].
  exists c; split; [done|]. now apply char_at_lookup.
Qed.

Lemma prefix_loop_spec a b fuel : ∀ i s,
  String.length a - i ≤ fuel →
  prefix_loop fuel a b i (to_int s) =
  (i + common_prefix_length (drop i (chars a)) (drop i (chars b)),
   to_int (s + 100 * Z.of_nat
     (common_prefix_length (drop i (chars a)) (drop i (chars b))))).
Proof.
  induction fuel as [|fuel IH]; intros i s Hfuel.
  - simpl. rewrite (drop_ge (chars a)) by (rewrite chars_length; lia).
    simpl. f_equal; [lia | f_equal; lia].
  - simpl. rewrite common_prefix_length_drop.
    destruct (Nat.ltb_spec i (String.length a)) as [Ha|Ha]; simpl.
    + destruct (lookup_chars_lt a i Ha) as (x & Hx & ->). rewrite Hx.
      destruct (Nat.ltb_spec i (String.length b)) as [Hb|Hb].
      * destruct (lookup_chars_lt b i Hb) as (y & Hy & ->). rewrite Hy.
        destruct (Ascii.eqb x y).
        -- unfold int_add, kMatchPrefixWeight. rewrite to_int_add_l.
           rewrite IH by lia. f_equal; [lia | f_equal; lia].
        -- f_equal; [lia | f_equal; lia].
      * rewrite (lookup_ge_None_2 (chars b)) by (rewrite chars_length; lia).
        f_equal; [lia | f_equal; lia].
    + rewrite (lookup_ge_None_2 (chars a)) by (rewrite chars_length; lia).
      f_equal; [lia | f_equal; lia].
Qed.

Lemma directory_loop_spec a fuel : ∀ j s,
  String.length a - j ≤ fuel →
  directory_loop fuel a j (to_int s) =
  to_int (s - 100 * Z.of_nat (slashes_from j (chars a))).
Proof.
  induction fuel as [|fuel IH]; intros j s Hfuel.
  - simpl. pose proof (slashes_from_le (chars a) j) as Hle.
    rewrite chars_length in Hle. f_equal; lia.
  - simpl. destruct (Nat.ltb_spec j (String.length a)) as [Ha|Ha].
    + destruct (lookup_chars_lt a j Ha) as (x & Hx & ->).
      rewrite (slashes_from_step _ _ _ Hx).
      destruct (Ascii.eqb x "/").
      * unfold int_sub, kMismatchDirectoryWeight.
        replace (to_int s - 100)%Z with (to_int s + - (100))%Z by lia.
        rewrite to_int_add_l, IH by lia. f_equal; lia.
      * rewrite IH by lia. f_equal; lia.
    + pose proof (slashes_from_le (chars a) j) as Hle.
      rewrite chars_length in Hle. f_equal; lia.
Qed.

Lemma lookup_reverse_chars s n :
  n < String.length s →
  ∃ c, reverse (chars s) !! n = Some c ∧ char_at s (String.length s - S n) = c.
Proof.
  intros H.
  destruct (lookup_chars_lt s (String.length s - S n)) as (c & Hc & Hat); [lia|].
  exists c; split; [|done].
  rewrite reverse_lookup by (rewrite chars_length; lia).
  now rewrite chars_length.
Qed.

Lemma postfix_loop_spec a b fuel : ∀ n s,
  String.length a - n ≤ fuel →
  postfix_loop fuel a b (S n) (to_int s) =
  to_int (s + Z.of_nat
    (common_prefix_length (drop n (reverse (chars a))) (drop n (reverse (chars b))))).
Proof.
  induction fuel as [|fuel IH]; intros n s Hfuel.
  - simpl.
    rewrite (drop_ge (reverse (chars a)))
      by (rewrite length_reverse, chars_length; lia).
    simpl. f_equal; lia.
  - cbn [postfix_loop]. rewrite common_prefix_length_drop.
    destruct (Nat.leb_spec (S n) (String.length a)) as [Ha|Ha]; cbn [andb].
    + destruct (lookup_reverse_chars a n Ha) as (x & Hx & ->). rewrite Hx.
      destruct (Nat.leb_spec (S n) (String.length b)) as [Hb|Hb].
      * destruct (lookup_reverse_chars b n Hb) as (y & Hy & ->). rewrite Hy.
        destruct (Ascii.eqb x y).
        -- unfold int_add, kMatchPostfixWeight. rewrite to_int_add_l.
           rewrite IH by lia. f_equal; lia.
        -- f_equal; lia.
      * rewrite (lookup_ge_None_2 (reverse (chars b)))
          by (rewrite length_reverse, chars_length; lia).
        f_equal; lia.
    + rewrite (lookup_ge_None_2 (reverse (chars a)))
        by (rewrite length_reverse, chars_length; lia).
      f_equal; lia.
Qed.

(** Whatever the lengths, the machine result is the score of the
    specification reduced to the [int] range. *)
Lemma ComputeGuessScore_to_int a b :
  ComputeGuessScore a b = to_int (spec_score a b).
Proof.
  unfold ComputeGuessScore, spec_score.
  change 0%Z with (to_int 0) at 1.
  rewrite prefix_loop_spec by lia. cbn [drop Nat.add].
  rewrite directory_loop_spec.
  2: { pose proof (common_prefix_length_le_l (chars a) (chars b)); lia. }
  rewrite directory_loop_spec.
  2: { pose proof (common_prefix_length_le_r (chars a) (chars b)); lia. }
  rewrite (postfix_loop_spec a b _ 0) by lia.
  cbn [drop]. unfold common_suffix_length. f_equal; lia.
Qed.

Lemma spec_score_bounds a b :
  (- (100 * (Z.of_nat (String.length a) + Z.of_nat (String.length b)))
   <= spec_score a b
   <= 101 * Z.of_nat (String.length a `min` String.length b))%Z.
Proof.
  unfold spec_score.
  pose proof (common_prefix_length_le_l (chars a) (chars b)) as Hp.
  pose proof (common_prefix_length_le_r (chars a) (chars b)) as Hp'.
  pose proof (common_prefix_length_le_l (reverse (chars a)) (reverse (chars b))) as Hs.
  pose proof (common_prefix_length_le_r (reverse (chars a)) (reverse (chars b))) as Hs'.
  pose proof (slashes_from_le (chars a) (common_prefix_length (chars a) (chars b))) as Ha.
  pose proof (slashes_from_le (chars b) (common_prefix_length (chars a) (chars b))) as Hb.
  rewrite length_reverse in Hs, Hs'. rewrite chars_length in *.
  unfold common_suffix_length. lia.
Qed.

Lemma no_overflow_range a b :
  no_overflow a b → (INT_MIN < spec_score a b <= INT_MAX)%Z.
Proof.
  unfold no_overflow, INT_MAX, INT_MIN. intros H.
  pose proof (spec_score_bounds a b). lia.
Qed.

(** C1. The score computed by [ComputeGuessScore] is 100 times the length
    of the longest common prefix, minus 100 for every ['/'] of [a] at or
    after the stop index, minus 100 for every ['/'] of [b] at or after it,
    plus 1 for every character of the longest common trailing match, and
    nothing floors a negative result: for every pair of strings the [int]
    returned is this number reduced to the [int] range, and it is this
    number when no [int] operation overflows (the two lengths together
    stay below [INT_MAX / 100]). *)
Theorem ComputeGuessScore_spec a b :
  let i := common_prefix_length (chars a) (chars b) in
  let score :=
    (100 * Z.of_nat i
     - 100 * Z.of_nat (slashes_from i (chars a))
     - 100 * Z.of_nat (slashes_from i (chars b))
     + Z.of_nat (common_suffix_length (chars a) (chars b)))%Z in
  ComputeGuessScore a b = to_int score
  ∧ (no_overflow a b → ComputeGuessScore a b = score).
Proof.
  cbv zeta. split; [exact (ComputeGuessScore_to_int a b)|].
  intros H. rewrite ComputeGuessScore_to_int.
  pose proof (no_overflow_range a b H) as Hr.
  rewrite to_int_id by lia. reflexivity.
Qed.

Lemma ComputeGuessScore_spec_witness :
  no_overflow "/a/b/c/new/new.cc" "/a/b/c/baz.cc"
  ∧ ComputeGuessScore "/a/b/c/new/new.cc" "/a/b/c/baz.cc" = 603%Z.
Proof.
  assert (H : no_overflow "/a/b/c/new/new.cc" "/a/b/c/baz.cc")
    by (unfold no_overflow, INT_MAX; simpl; lia).
  split; [exact H|].
  destruct (ComputeGuessScore_spec "/a/b/c/new/new.cc" "/a/b/c/baz.cc") as [_ Hscore].
  rewrite (Hscore H). reflexivity.
Defined.

(** Three unrelated directories of [a] cost 300 and nothing is matched. *)
Example ComputeGuessScore_negative :
  ComputeGuessScore "x/y/z/a.h" "b.cc" = (-300)%Z.
Proof. reflexivity. Qed.

(** ** Inference *)

Lemma ComputeGuessScore_gt_INT_MIN a b :
  no_overflow a b → (INT_MIN < ComputeGuessScore a b)%Z.
Proof.
  intros H. pose proof (no_overflow_range a b H) as Hr.
  rewrite ComputeGuessScore_to_int, to_int_id; lia.
Qed.

(** What the loop of the inference leaves in [best_entry] and
    [best_score]: either no entry beat the initial score, or the first
    entry of maximal score did. *)
Lemma guess_loop_spec q es : ∀ pos best bs best' bs',
  guess_loop q es pos best bs = (best', bs') →
  (best' = best ∧ bs' = bs ∧ ∀ e, e ∈ es → (guess_score q e <= bs)%Z)
  ∨ ∃ k e,
      best' = Some (pos + k) ∧ es !! k = Some e ∧ bs' = guess_score q e
      ∧ (bs < guess_score q e)%Z
      ∧ (∀ j e', es !! j = Some e' → (guess_score q e' <= guess_score q e)%Z)
      ∧ (∀ j e', j < k → es !! j = Some e' →
           (guess_score q e' < guess_score q e)%Z).
Proof.
  induction es as [|e0 es IH]; intros pos best bs best' bs' Hloop.
  - left. simpl in Hloop. inversion Hloop; subst.
    repeat split; auto. intros e He. inversion He.
  - cbn [guess_loop] in Hloop. fold (guess_score q e0) in Hloop.
    destruct (Z.ltb_spec bs (guess_score q e0)) as [Hlt|Hge];
      apply IH in Hloop as [(-> & -> & Hall)|(k & e & -> & Hk & -> & Hbs & Hmax & Hfirst)].
    + right. exists 0, e0. rewrite Nat.add_0_r.
      repeat split; auto; try lia.
      intros [|j] e' He'; simpl in He'.
      * inversion He'; subst; lia.
      * apply Hall. eapply list_elem_of_lookup_2; eauto.
    + right. exists (S k), e. replace (pos + S k) with (S pos + k) by lia.
      repeat split; auto; try lia.
      * intros [|j] e' He'; simpl in He'; [inversion He'; subst; lia|eauto].
      * intros [|j] e' Hj He'; simpl in He'; [inversion He'; subst; lia|].
        apply (Hfirst j); [lia|done].
    + left. repeat split; auto.
      intros e He. apply elem_of_cons in He as [->|He]; auto.
    + right. exists (S k), e. replace (pos + S k) with (S pos + k) by lia.
      repeat split; auto.
      * intros [|j] e' He'; simpl in He'; [inversion He'; subst; lia|eauto].
      * intros [|j] e' Hj He'; simpl in He'; [inversion He'; subst; lia|].
        apply (Hfirst j); [lia|done].
Qed.

(** On a miss of the exact lookup the answer is synthesised. *)
Lemma FindCompilationEntryForFile_miss p q :
  absolute_path_to_entry_index_ p !! q = None →
  FindCompilationEntryForFile p q =
  {| filename := q;
     entry_args :=
       match fst (guess_loop q (entries p) 0 None INT_MIN) with
       | Some k => entry_args (default empty_Entry (entries p !! k))
       | None => []
       end;
     is_inferred := true |}.
Proof.
  intros Hmiss. unfold FindCompilationEntryForFile. rewrite Hmiss.
  now destruct (guess_loop q (entries p) 0 None INT_MIN).
Qed.

(** The winner of the inference over a non-empty index whose scores do not
    overflow. *)
Lemma inference_winner p q :
  entries p ≠ [] →
  absolute_path_to_entry_index_ p !! q = None →
  (∀ e, e ∈ entries p → no_overflow q (filename e)) →
  ∃ k e,
    entries p !! k = Some e
    ∧ FindCompilationEntryForFile p q =
      {| filename := q; entry_args := entry_args e; is_inferred := true |}
    ∧ (∀ j e', entries p !! j = Some e' → (guess_score q e' <= guess_score q e)%Z)
    ∧ (∀ j e', j < k → entries p !! j = Some e' →
         (guess_score q e' < guess_score q e)%Z).
Proof.
  intros Hne Hmiss Hbound. rewrite (FindCompilationEntryForFile_miss _ _ Hmiss).
  destruct (guess_loop q (entries p) 0 None INT_MIN) as [best' bs'] eqn:Hloop.
  apply guess_loop_spec in Hloop
    as [(-> & -> & Hall)|(k & e & -> & Hk & -> & Hbs & Hmax & Hfirst)].
  - exfalso. destruct (entries p) as [|e0 es] eqn:He; [done|].
    assert (He0 : e0 ∈ e0 :: es) by apply list_elem_of_here.
    pose proof (ComputeGuessScore_gt_INT_MIN _ _ (Hbound e0 He0)).
    specialize (Hall e0 He0). unfold guess_score in Hall. lia.
  - exists k, e. cbn [fst Nat.add]. rewrite Hk. cbn [default from_option].
    repeat split; auto.
Qed.

(** C2. With the index of the two entries ["/a/b/c/d/bar.cc"] (args
    [["x1"]]) and ["/a/b/c/baz.cc"] (args [["x2"]]), whatever filename table
    misses the three queried files (the one [Project::Load] builds, the
    empty one of the test suite), the lookup of ["/a/b/c/d/new.cc"] answers
    with args [["x1"]], that of ["/a/b/c/new.cc"] with [["x2"]] and that of
    ["/a/b/c/new/new.cc"] with [["x2"]]. *)
Theorem inference_directory_proximity (table : gmap string nat) :
  table !! "/a/b/c/d/new.cc" = None →
  table !! "/a/b/c/new.cc" = None →
  table !! "/a/b/c/new/new.cc" = None →
  let p := {| entries := inference_test_entries;
              absolute_path_to_entry_index_ := table |} in
  entry_args (FindCompilationEntryForFile p "/a/b/c/d/new.cc") = ["x1"]
  ∧ entry_args (FindCompilationEntryForFile p "/a/b/c/new.cc") = ["x2"]
  ∧ entry_args (FindCompilationEntryForFile p "/a/b/c/new/new.cc") = ["x2"].
Proof.
  intros H1 H2 H3 p.
  rewrite !FindCompilationEntryForFile_miss by assumption.
  repeat split.
Qed.

Lemma inference_directory_proximity_witness :
  entry_args (FindCompilationEntryForFile
                (loaded_project inference_test_entries) "/a/b/c/d/new.cc") = ["x1"]
  ∧ entry_args (FindCompilationEntryForFile
                  (loaded_project inference_test_entries) "/a/b/c/new.cc") = ["x2"]
  ∧ entry_args (FindCompilationEntryForFile
                  (loaded_project inference_test_entries) "/a/b/c/new/new.cc") = ["x2"].
Proof.
  apply (inference_directory_proximity
           (absolute_path_to_entry_index_ (loaded_project inference_test_entries)));
    vm_compute; reflexivity.
Defined.

(** C3. For a non-empty index and a queried filename the filename table
    does not hold, with scores that do not overflow [int], the inference
    answers with the arguments of the entry of maximal score, and among the
    entries of maximal score with those of the earliest one: every entry
    before it scores strictly less. *)
Theorem inference_first_maximum p q :
  entries p ≠ [] →
  absolute_path_to_entry_index_ p !! q = None →
  (∀ e, e ∈ entries p → no_overflow q (filename e)) →
  ∃ k e,
    entries p !! k = Some e
    ∧ FindCompilationEntryForFile p q =
      {| filename := q; entry_args := entry_args e; is_inferred := true |}
    ∧ (∀ j e', entries p !! j = Some e' →
         (ComputeGuessScore q (filename e') <= ComputeGuessScore q (filename e))%Z)
    ∧ (∀ j e', j < k → entries p !! j = Some e' →
         (ComputeGuessScore q (filename e') < ComputeGuessScore q (filename e))%Z).
Proof. exact (inference_winner p q). Qed.

Lemma inference_test_entries_no_overflow q :
  String.length q ≤ 1000 →
  ∀ e, e ∈ inference_test_entries → no_overflow q (filename e).
Proof.
  intros Hq e He. unfold inference_test_entries in He.
  repeat (apply elem_of_cons in He as [->|He]);
    [| |apply elem_of_nil in He; destruct He];
    unfold no_overflow, INT_MAX; simpl; lia.
Defined.

Lemma inference_first_maximum_witness :
  entries (loaded_project inference_test_entries) ≠ []
  ∧ absolute_path_to_entry_index_ (loaded_project inference_test_entries)
      !! "/a/b/c/new.cc" = None
  ∧ (∀ e, e ∈ entries (loaded_project inference_test_entries) →
          no_overflow "/a/b/c/new.cc" (filename e))
  ∧ ∃ k e,
      entries (loaded_project inference_test_entries) !! k = Some e
      ∧ FindCompilationEntryForFile (loaded_project inference_test_entries)
          "/a/b/c/new.cc" =
        {| filename := "/a/b/c/new.cc"; entry_args := entry_args e;
           is_inferred := true |}
      ∧ (∀ j e', entries (loaded_project inference_test_entries) !! j = Some e' →
           (ComputeGuessScore "/a/b/c/new.cc" (filename e')
            <= ComputeGuessScore "/a/b/c/new.cc" (filename e))%Z)
      ∧ (∀ j e', j < k →
           entries (loaded_project inference_test_entries) !! j = Some e' →
           (ComputeGuessScore "/a/b/c/new.cc" (filename e')
            < ComputeGuessScore "/a/b/c/new.cc" (filename e))%Z).
Proof.
  assert (H1 : entries (loaded_project inference_test_entries) ≠ [])
    by (simpl; discriminate).
  assert (H2 : absolute_path_to_entry_index_ (loaded_project inference_test_entries)
                 !! "/a/b/c/new.cc" = None) by (vm_compute; reflexivity).
  assert (H3 : ∀ e, e ∈ entries (loaded_project inference_test_entries) →
                    no_overflow "/a/b/c/new.cc" (filename e))
    by (apply inference_test_entries_no_overflow; simpl; lia).
  split; [exact H1|]. split; [exact H2|]. split; [exact H3|].
  exact (inference_first_maximum _ _ H1 H2 H3).
Defined.

(** C4, counterexample to the statement of the specification: over the
    empty index the lookup still hands an answer to its caller. *)
Lemma empty_index_still_answers :
  entries (loaded_project []) = []
  ∧ FindCompilationEntryForFile_optional (loaded_project []) "/a/b/c/new.cc" ≠ None
  ∧ FindCompilationEntryForFile (loaded_project []) "/a/b/c/new.cc" =
    {| filename := "/a/b/c/new.cc"; entry_args := []; is_inferred := true |}.
Proof. repeat split. discriminate. Qed.

(** C4, amended. On a miss of the exact lookup the answer carries
    [is_inferred = true] and the queried filename; over the empty index it
    is still an answer, with empty args; over a non-empty index whose
    scores do not overflow, its args are those of an entry of maximal
    score. *)
Theorem inferred_entry_fields p q :
  absolute_path_to_entry_index_ p !! q = None →
  is_inferred (FindCompilationEntryForFile p q) = true
  ∧ filename (FindCompilationEntryForFile p q) = q
  ∧ (entries p = [] →
     FindCompilationEntryForFile_optional p q =
     Some {| filename := q; entry_args := []; is_inferred := true |})
  ∧ (entries p ≠ [] →
     (∀ e, e ∈ entries p → no_overflow q (filename e)) →
     ∃ k e, entries p !! k = Some e
            ∧ entry_args (FindCompilationEntryForFile p q) = entry_args e
            ∧ ∀ j e', entries p !! j = Some e' →
                (ComputeGuessScore q (filename e')
                 <= ComputeGuessScore q (filename e))%Z).
Proof.
  intros Hmiss. split; [|split; [|split]].
  - now rewrite (FindCompilationEntryForFile_miss _ _ Hmiss).
  - now rewrite (FindCompilationEntryForFile_miss _ _ Hmiss).
  - intros He. unfold FindCompilationEntryForFile_optional.
    rewrite (FindCompilationEntryForFile_miss _ _ Hmiss), He. reflexivity.
  - intros Hne Hbound.
    destruct (inference_winner p q Hne Hmiss Hbound) as (k & e & Hk & -> & Hmax & _).
    exists k, e. repeat split; auto.
Qed.

Lemma inferred_entry_fields_witness :
  absolute_path_to_entry_index_ (loaded_project inference_test_entries)
    !! "/a/b/c/new/new.cc" = None
  ∧ is_inferred (FindCompilationEntryForFile
                   (loaded_project inference_test_entries) "/a/b/c/new/new.cc") = true
  ∧ filename (FindCompilationEntryForFile
                (loaded_project inference_test_entries) "/a/b/c/new/new.cc")
    = "/a/b/c/new/new.cc".
Proof.
  assert (H : absolute_path_to_entry_index_ (loaded_project inference_test_entries)
                !! "/a/b/c/new/new.cc" = None) by (vm_compute; reflexivity).
  split; [exact H|].
  pose proof (inferred_entry_fields _ _ H) as (H1 & H2 & _).
  split; [exact H1|exact H2].
Defined.

(** ** Strings: prefixes *)

(** Case analysis on [H : x ∈ [a; b; ...]], each case closed by [tac]. *)
Tactic Notation "each_elem" hyp(H) "by" tactic3(tac) :=
  repeat (apply elem_of_cons in H as [->|H]; [tac|]);
  now apply elem_of_nil in H.


Lemma append_String c s t : String c s +:+ t = String c (s +:+ t).
Proof. reflexivity. Qed.

Lemma append_empty_r s : s +:+ "" = s.
Proof.
  induction s as [|c s IH]; [reflexivity|]. rewrite append_String. now f_equal.
Qed.

Lemma StartsWith_app s t : StartsWith (s +:+ t) s = true.
Proof.
  induction s as [|c s IH]; [reflexivity|].
  rewrite append_String. simpl. now rewrite Ascii.eqb_refl.
Qed.

Lemma substr_app s t : substr (s +:+ t) (String.length s) = t.
Proof.
  induction s as [|c s IH]; [now destruct t|].
  rewrite append_String. simpl. exact IH.
Qed.

Lemma StartsWith_decompose v s :
  StartsWith v s = true → v = s +:+ substr v (String.length s).
Proof.
  revert v; induction s as [|c s IH]; intros v H.
  - now destruct v.
  - destruct v as [|d v]; simpl in H; [discriminate|].
    apply andb_true_iff in H as [Hc Hs].
    apply Ascii.eqb_eq in Hc as ->.
    rewrite append_String. simpl. f_equal. now apply IH.
Qed.

Lemma eqb_app_l s t : String.eqb (s +:+ t) s = String.eqb t "".
Proof.
  induction s as [|c s IH]; [now destruct t|].
  rewrite append_String. simpl. now rewrite Ascii.eqb_refl.
Qed.

Lemma eqb_empty_false s : s ≠ "" → String.eqb s "" = false.
Proof. intros H. now apply String.eqb_neq. Qed.

(** A token that does not start with ['-'] starts with no flag. *)
Lemma StartsWith_dash_false v s :
  StartsWith v "-" = false → StartsWith v (String "-" s) = false.
Proof.
  destruct v as [|d v]; simpl; [done|].
  rewrite andb_true_r. now intros ->.
Qed.

(** ** The flags appended after the argument loop *)

Lemma AnyStartsWith_app l1 l2 p :
  AnyStartsWith (l1 ++ l2) p = AnyStartsWith l1 p || AnyStartsWith l2 p.
Proof. apply existsb_app. Qed.

Lemma AnyStartsWith_cons v l p :
  AnyStartsWith (v :: l) p = StartsWith v p || AnyStartsWith l p.
Proof. reflexivity. Qed.

Lemma AnyStartsWith_nil p : AnyStartsWith [] p = false.
Proof. reflexivity. Qed.

Lemma resource_dir_flag_other r :
  StartsWith ("-resource-dir=" +:+ r) "-Wno-unknown-warning-option" = false
  ∧ StartsWith ("-resource-dir=" +:+ r) "-fparse-all-comments" = false.
Proof. rewrite !append_String. split; reflexivity. Qed.

(** When none of the three guarded flags is there yet and there are no
    extra flags, all three are appended. *)
Lemma final_args_fresh config0 l :
  extra_flags config0 = [] →
  AnyStartsWith l "-resource-dir" = false →
  AnyStartsWith l "-Wno-unknown-warning-option" = false →
  AnyStartsWith l "-fparse-all-comments" = false →
  final_args config0 l =
  l ++ ["-resource-dir=" +:+ resource_dir config0;
        "-Wno-unknown-warning-option"; "-fparse-all-comments"].
Proof.
  intros Hextra H1 H2 H3. unfold final_args.
  destruct (resource_dir_flag_other (resource_dir config0)) as [Hr1 Hr2].
  rewrite Hextra, app_nil_r, H1. cbn [negb].
  rewrite AnyStartsWith_app, H2, AnyStartsWith_cons, Hr1, AnyStartsWith_nil.
  cbn [orb negb].
  rewrite !AnyStartsWith_app, H3, !AnyStartsWith_cons, Hr2, AnyStartsWith_nil.
  change (StartsWith "-Wno-unknown-warning-option" "-fparse-all-comments") with false.
  cbn [orb negb]. now rewrite <- !app_assoc.
Qed.

(** ** The classifier *)

Section ClassifierProperties.

Variable g_disable_normalize_path_for_test : bool.
Variable NormalizePath : string → string.

Abbreviation Normalize :=
  (NormalizePathWithTestOptOut g_disable_normalize_path_for_test NormalizePath).
Abbreviation cleanup :=
  (cleanup_maybe_relative_path g_disable_normalize_path_for_test NormalizePath).
Abbreviation loop :=
  (args_loop g_disable_normalize_path_for_test NormalizePath).
Abbreviation path_loop :=
  (path_args_loop g_disable_normalize_path_for_test NormalizePath).
Abbreviation Classify :=
  (GetCompilationEntryFromCompileCommandEntry
     g_disable_normalize_path_for_test NormalizePath).

Lemma cleanup_nonempty e path :
  path ≠ "" →
  cleanup e path =
  Some (if Ascii.eqb (char_at path 0) "/" || String.eqb (directory e) ""
        then Normalize path else Normalize (directory e +:+ "/" +:+ path)).
Proof.
  intros H. unfold cleanup_maybe_relative_path.
  rewrite (eqb_empty_false _ H). now destruct (_ || _).
Qed.

(** C5. For the raw arguments [["buildproxy"; "cc1"]] of a C++ source file,
    with no extra flags, a working directory that is not itself spelled
    like a flag and neither token being the source file, the args are the
    executable ["cc1"], the working-directory flag and its value, the
    dialect flag and its standard flag, then the resource-directory
    pointer, the warning suppression and the parse-all-comments flag, in
    that order. *)
Theorem wrapper_stripping config0 dir src cmd :
  SourceFileType src = Some "c++" →
  extra_flags config0 = [] →
  StartsWith dir "-" = false →
  Normalize "buildproxy" ≠ Normalize src →
  Normalize "cc1" ≠ Normalize src →
  Classify config0
    {| directory := dir; file := src; command := cmd;
       args := ["buildproxy"; "cc1"] |} =
  Some ({| filename := Normalize src;
           entry_args :=
             ["cc1"; "-working-directory"; dir; "-xc++"; "-std=c++14";
              "-resource-dir=" +:+ resource_dir config0;
              "-Wno-unknown-warning-option"; "-fparse-all-comments"];
           is_inferred := false |},
        config0).
Proof.
  intros Htype Hextra Hdir Hproxy Hcc1.
  apply String.eqb_neq in Hproxy, Hcc1.
  assert (Hi :
    compiler_end g_disable_normalize_path_for_test NormalizePath
      {| directory := dir; file := src; command := cmd;
         args := ["buildproxy"; "cc1"] |} = 2).
  { unfold compiler_end. cbn [strip_loop args file]. unfold is_command_token.
    rewrite Hproxy, Hcc1. reflexivity. }
  assert (Hinit :
    initial_args {| directory := dir; file := src; command := cmd;
                    args := ["buildproxy"; "cc1"] |} 2 =
    ["cc1"; "-working-directory"; dir; "-xc++"; "-std=c++14"]).
  { unfold initial_args. cbn [args file directory]. rewrite Htype. reflexivity. }
  unfold GetCompilationEntryFromCompileCommandEntry.
  cbv zeta. rewrite Hi. unfold classify_from. rewrite Hinit.
  cbn [args file drop args_loop config result_args loop_entry_state].
  rewrite final_args_fresh; [reflexivity|exact Hextra|..];
    rewrite !AnyStartsWith_cons, !(StartsWith_dash_false dir) by exact Hdir;
    reflexivity.
Qed.

(** *** The loop over [kPathArgs] *)

Lemma path_loop_kind e flag_types arg st :
  path_loop e flag_types arg st =
  match path_kind flag_types arg with
  | Split => Some (arg, split_state arg st)
  | Fused flag_type =>
      match cleanup e (substr arg (String.length flag_type)) with
      | None => None
      | Some path =>
          Some (if StartsWithAny arg kNormalizePathArgs
                then flag_type +:+ path else arg,
                fused_state flag_type path st)
      end
  | NoPath => Some (arg, st)
  end.
Proof.
  induction flag_types as [|flag_type flag_types IH]; [reflexivity|].
  cbn [path_args_loop path_kind].
  destruct (String.eqb arg flag_type); [reflexivity|].
  destruct (StartsWith arg flag_type); [|exact IH].
  destruct (String.eqb_spec (substr arg (String.length flag_type)) "") as [->|Hne];
    [reflexivity|].
  now destruct (cleanup e (substr arg (String.length flag_type))).
Qed.

Lemma path_kind_fused flag_types arg flag_type :
  path_kind flag_types arg = Fused flag_type →
  flag_type ∈ flag_types
  ∧ arg = flag_type +:+ substr arg (String.length flag_type)
  ∧ substr arg (String.length flag_type) ≠ "".
Proof.
  induction flag_types as [|ft flag_types IH]; [discriminate|].
  cbn [path_kind].
  destruct (String.eqb_spec arg ft) as [->|Hne]; [discriminate|].
  destruct (StartsWith arg ft) eqn:Hstart.
  - intros [= <-]. apply StartsWith_decompose in Hstart.
    split; [apply list_elem_of_here|]. split; [exact Hstart|].
    intros Hempty. rewrite Hempty in Hstart. apply Hne.
    rewrite Hstart. apply append_empty_r.
  - intros H. destruct (IH H) as (Hin & Hdec & Hnonempty).
    split; [now apply list_elem_of_further|]. now split.
Qed.

Lemma path_kind_split flag_types arg :
  path_kind flag_types arg = Split → arg ∈ flag_types.
Proof.
  induction flag_types as [|ft flag_types IH]; [discriminate|].
  cbn [path_kind].
  destruct (String.eqb_spec arg ft) as [->|Hne]; [intros _; apply list_elem_of_here|].
  destruct (StartsWith arg ft); [discriminate|].
  intros H. apply list_elem_of_further. now apply IH.
Qed.

Lemma path_kind_kPathArgs_split arg :
  arg ∈ kPathArgs → path_kind kPathArgs arg = Split.
Proof.
  unfold kPathArgs. intros H.
  each_elem H by reflexivity.
Qed.

(** The loop over [kPathArgs] never trips its own assertion: the value of
    a fused spelling is what follows the flag type and is not empty. *)
Lemma path_loop_total e arg st : is_Some (path_loop e kPathArgs arg st).
Proof.
  rewrite path_loop_kind.
  destruct (path_kind kPathArgs arg) as [|flag_type|] eqn:Hkind; [eauto| |eauto].
  destruct (path_kind_fused _ _ _ Hkind) as (_ & _ & Hnonempty).
  rewrite (cleanup_nonempty _ _ Hnonempty). eauto.
Qed.

Lemma path_loop_result_args e arg st arg' st' :
  path_loop e kPathArgs arg st = Some (arg', st') →
  result_args st' = result_args st.
Proof.
  rewrite path_loop_kind.
  destruct (path_kind kPathArgs arg); [now intros [= <- <-]| |now intros [= <- <-]].
  destruct (cleanup e _); [now intros [= <- <-]|discriminate].
Qed.

(** *** The argument loop *)

Lemma list_tail_ind {A} (P : list A → Prop) :
  P [] → (∀ a l, P l → P (tail l) → P (a :: l)) → ∀ l, P l.
Proof.
  intros Hnil Hcons l.
  enough (P l ∧ P (tail l)) by tauto.
  induction l as [|a l [IH1 IH2]]; simpl; auto.
Qed.

(** One iteration of the argument loop. *)
Lemma loop_cons e arg rest st :
  loop e (arg :: rest) st =
  if next_flag_is_path st then
    match cleanup e arg with
    | None => None
    | Some normalized_arg => loop e rest (push_back arg (value_state normalized_arg st))
    end
  else if StartsWithAny arg kBlacklistMulti then loop e (tail rest) st
  else if StartsWithAny arg kBlacklist then loop e rest st
  else
    match path_loop e kPathArgs arg st with
    | None => None
    | Some (arg', st') => loop e rest (push_back arg' st')
    end.
Proof.
  cbn [args_loop]. destruct (next_flag_is_path st); cbn [negb andb]; [reflexivity|].
  destruct (StartsWithAny arg kBlacklistMulti); [now destruct rest|].
  reflexivity.
Qed.

Lemma flag_position_after_cons b arg pre :
  flag_position_after b (arg :: pre) =
  if b then flag_position_after false pre
  else if StartsWithAny arg kBlacklistMulti
       then match pre with [] => false | _ => flag_position_after false (tail pre) end
  else if StartsWithAny arg kBlacklist then flag_position_after false pre
  else flag_position_after
         (match path_kind kPathArgs arg with Split => true | _ => false end) pre.
Proof.
  cbn [flag_position_after]. destruct b; [reflexivity|].
  destruct (StartsWithAny arg kBlacklistMulti); [now destruct pre|reflexivity].
Qed.

Lemma path_loop_next_flag e arg st arg' st' :
  path_loop e kPathArgs arg st = Some (arg', st') →
  next_flag_is_path st' =
  match path_kind kPathArgs arg with Split => true | _ => next_flag_is_path st end.
Proof.
  rewrite path_loop_kind.
  destruct (path_kind kPathArgs arg); [now intros [= <- <-]| |now intros [= <- <-]].
  destruct (cleanup e _); [now intros [= <- <-]|discriminate].
Qed.

(** When the loop is about to read a flag after [pre], going through
    [pre ++ l] is going through [pre] and then through [l]. *)
Lemma loop_app e pre : ∀ st l,
  flag_position_after (next_flag_is_path st) pre = true →
  loop e (pre ++ l) st = loop e pre st ≫= λ st', loop e l st'.
Proof.
  induction pre as [|arg pre IH IHtail] using list_tail_ind; intros st l Hpos;
    [reflexivity|].
  rewrite <- app_comm_cons, !loop_cons. rewrite flag_position_after_cons in Hpos.
  destruct (next_flag_is_path st) eqn:Hnext.
  { destruct (cleanup e arg); [|reflexivity]. now apply IH. }
  destruct (StartsWithAny arg kBlacklistMulti).
  { destruct pre as [|b pre]; [discriminate|]. cbn [tail app] in *.
    apply IHtail. now rewrite Hnext. }
  destruct (StartsWithAny arg kBlacklist); [now apply IH; rewrite Hnext|].
  destruct (path_loop e kPathArgs arg st) as [[arg' st']|] eqn:Hpath; [|reflexivity].
  apply IH. cbn [push_back next_flag_is_path].
  rewrite (path_loop_next_flag _ _ _ _ _ Hpath), Hnext.
  now destruct (path_kind kPathArgs arg).
Qed.

Lemma loop_flag_position e pre : ∀ st st',
  flag_position_after (next_flag_is_path st) pre = true →
  loop e pre st = Some st' → next_flag_is_path st' = false.
Proof.
  induction pre as [|arg pre IH IHtail] using list_tail_ind; intros st st' Hpos.
  { cbn in *. intros [= <-]. now destruct (next_flag_is_path st). }
  rewrite loop_cons. rewrite flag_position_after_cons in Hpos.
  destruct (next_flag_is_path st) eqn:Hnext.
  { destruct (cleanup e arg); [|discriminate]. now apply IH. }
  destruct (StartsWithAny arg kBlacklistMulti).
  { destruct pre as [|b pre]; [discriminate|]. cbn [tail] in *.
    apply IHtail. now rewrite Hnext. }
  destruct (StartsWithAny arg kBlacklist); [now apply IH; rewrite Hnext|].
  destruct (path_loop e kPathArgs arg st) as [[arg' st1]|] eqn:Hpath; [|discriminate].
  apply IH. cbn [push_back next_flag_is_path].
  rewrite (path_loop_next_flag _ _ _ _ _ Hpath), Hnext.
  now destruct (path_kind kPathArgs arg).
Qed.

(** A multi-token blacklisted flag read in flag position goes away
    together with the token after it. *)
Lemma loop_drops_pair e pre flag value rest st :
  next_flag_is_path st = false →
  flag_position_after false pre = true →
  StartsWithAny flag kBlacklistMulti = true →
  loop e (pre ++ flag :: value :: rest) st = loop e (pre ++ rest) st.
Proof.
  intros Hnext Hpos Hflag.
  rewrite !loop_app by now rewrite Hnext.
  destruct (loop e pre st) as [st'|] eqn:Hpre; [|reflexivity].
  cbn [mbind option_bind].
  assert (Hnext' : next_flag_is_path st' = false).
  { eapply loop_flag_position; [|exact Hpre]. now rewrite Hnext. }
  now rewrite loop_cons, Hnext', Hflag.
Qed.

Abbreviation compiler_end' :=
  (compiler_end g_disable_normalize_path_for_test NormalizePath).
Abbreviation classify_from' :=
  (classify_from g_disable_normalize_path_for_test NormalizePath).

Lemma classify_drops_pair config0 e pre flag value rest :
  drop (compiler_end' e) (args e) = pre ++ flag :: value :: rest →
  flag_position_after false pre = true →
  StartsWithAny flag kBlacklistMulti = true →
  Classify config0 e = classify_from' config0 e (compiler_end' e) (pre ++ rest).
Proof.
  intros Hraw Hpos Hflag.
  unfold GetCompilationEntryFromCompileCommandEntry. cbv zeta.
  rewrite Hraw. unfold classify_from.
  now rewrite loop_drops_pair.
Qed.

Lemma kBlacklistMulti_self flag :
  flag ∈ kBlacklistMulti → StartsWithAny flag kBlacklistMulti = true.
Proof.
  unfold kBlacklistMulti. intros H.
  each_elem H by reflexivity.
Qed.

Lemma StartsWithAny_app flag suffix startings :
  flag ∈ startings → StartsWithAny (flag +:+ suffix) startings = true.
Proof.
  intros H. apply existsb_exists. exists flag.
  split; [now apply list_elem_of_In|apply StartsWith_app].
Qed.

(** *** The assertion on path values *)

Lemma path_values_cons b arg rest :
  path_values b (arg :: rest) =
  if b then arg :: path_values false rest
  else if StartsWithAny arg kBlacklistMulti then path_values false (tail rest)
  else if StartsWithAny arg kBlacklist then path_values false rest
  else path_values
         (match path_kind kPathArgs arg with Split => true | _ => false end) rest.
Proof.
  cbn [path_values]. destruct b; [reflexivity|].
  destruct (StartsWithAny arg kBlacklistMulti); [now destruct rest|reflexivity].
Qed.

(** The loop aborts exactly when one of the values it reads for a split
    path flag is empty. *)
Lemma loop_None e l : ∀ st,
  loop e l st = None ↔ "" ∈ path_values (next_flag_is_path st) l.
Proof.
  induction l as [|arg rest IH IHtail] using list_tail_ind; intros st.
  { cbn. split; [discriminate|]. intros H. now apply elem_of_nil in H. }
  rewrite loop_cons, path_values_cons.
  destruct (next_flag_is_path st) eqn:Hnext.
  { destruct (String.eqb_spec arg "") as [->|Harg].
    - split; [intros _; apply list_elem_of_here|reflexivity].
    - rewrite (cleanup_nonempty _ _ Harg), IH.
      cbn [push_back value_state next_flag_is_path].
      rewrite elem_of_cons. split; [auto|].
      intros [Heq|Hin]; [now destruct Harg|exact Hin]. }
  destruct (StartsWithAny arg kBlacklistMulti); [now rewrite IHtail, Hnext|].
  destruct (StartsWithAny arg kBlacklist); [now rewrite IH, Hnext|].
  destruct (path_loop_total e arg st) as [[arg' st'] Hpath]. rewrite Hpath, IH.
  cbn [push_back next_flag_is_path].
  rewrite (path_loop_next_flag _ _ _ _ _ Hpath), Hnext.
  now destruct (path_kind kPathArgs arg).
Qed.

(** The values the loop reads are the tokens that follow a token equal to
    a path flag. *)
Lemma path_values_follow_flag l : ∀ b value,
  value ∈ path_values b l →
  (b = true ∧ head l = Some value)
  ∨ ∃ k flag, l !! k = Some flag ∧ l !! S k = Some value ∧ flag ∈ kPathArgs.
Proof.
  induction l as [|arg rest IH IHtail] using list_tail_ind; intros b value.
  { intros H. now apply elem_of_nil in H. }
  rewrite path_values_cons.
  assert (Hshift : ∀ l' : list string,
            (∃ k flag, l' !! k = Some flag ∧ l' !! S k = Some value ∧ flag ∈ kPathArgs) →
            ∃ k flag, (arg :: l') !! k = Some flag
                      ∧ (arg :: l') !! S k = Some value ∧ flag ∈ kPathArgs).
  { intros l' (k & flag & Hk & HSk & Hflag). now exists (S k), flag. }
  destruct b.
  { intros [->|Hin]%elem_of_cons; [now left|].
    right. apply IH in Hin as [[Hb _]|Hin]; [discriminate|now apply Hshift]. }
  destruct (StartsWithAny arg kBlacklistMulti).
  { intros Hin. right. apply IHtail in Hin as [[Hb _]|Hin]; [discriminate|].
    destruct rest as [|skipped rest]; [exact (Hshift [] Hin)|].
    apply Hshift. destruct Hin as (k & flag & Hk & HSk & Hflag).
    now exists (S k), flag. }
  destruct (StartsWithAny arg kBlacklist).
  { intros Hin. right. apply IH in Hin as [[Hb _]|Hin]; [discriminate|now apply Hshift]. }
  destruct (path_kind kPathArgs arg) eqn:Hkind;
    intros Hin; right; apply IH in Hin as [[Hb Hhead]|Hin];
    try discriminate; try (now apply Hshift).
  exists 0, arg. split; [reflexivity|]. split; [|now apply path_kind_split].
  now destruct rest.
Qed.

(** C9. The classifier aborts on its assertion exactly when one of the
    tokens it reads as the value of a split path flag is empty: an empty
    path value after a recognised path flag is fatal, and when every such
    value is non-empty the assertion never fails and the classifier
    returns. The assertion of the fused spelling can never fail. *)
Theorem empty_path_value_is_fatal config0 e :
  Classify config0 e = None
  ↔ "" ∈ path_values false (drop (compiler_end' e) (args e)).
Proof.
  unfold GetCompilationEntryFromCompileCommandEntry. cbv zeta.
  unfold classify_from. rewrite <- (loop_None e _
    (loop_entry_state config0 (initial_args e (compiler_end' e)))).
  now destruct (loop e _ _).
Qed.

(** *** Running the classifier on its own output *)

Lemma cleanup_directory e e' path :
  directory e = directory e' → cleanup e path = cleanup e' path.
Proof. intros H. unfold cleanup_maybe_relative_path. now rewrite H. Qed.

Lemma path_loop_directory e e' flag_types arg st :
  directory e = directory e' →
  path_loop e flag_types arg st = path_loop e' flag_types arg st.
Proof.
  intros H. induction flag_types as [|ft flag_types IH]; [reflexivity|].
  cbn [path_args_loop]. now rewrite IH, (cleanup_directory e e' _ H).
Qed.

Lemma loop_directory e e' l : ∀ st,
  directory e = directory e' → loop e l st = loop e' l st.
Proof.
  induction l as [|arg rest IH IHtail] using list_tail_ind; intros st H;
    [reflexivity|].
  rewrite !loop_cons, (cleanup_directory e e' _ H),
    (path_loop_directory e e' _ _ _ H), IHtail by exact H.
  destruct (next_flag_is_path st).
  { destruct (cleanup e' arg); [now apply IH|reflexivity]. }
  destruct (StartsWithAny arg kBlacklistMulti); [reflexivity|].
  destruct (StartsWithAny arg kBlacklist); [now apply IH|].
  destruct (path_loop e' kPathArgs arg st) as [[arg' st']|]; [now apply IH|reflexivity].
Qed.

Lemma StartsWith_refl s : StartsWith s s = true.
Proof. induction s as [|c s IH]; simpl; [done|]. now rewrite Ascii.eqb_refl. Qed.

Lemma path_kind_NoPath flag_types arg :
  (∀ ft, ft ∈ flag_types → StartsWith arg ft = false) →
  path_kind flag_types arg = NoPath.
Proof.
  induction flag_types as [|ft flag_types IH]; intros H; [reflexivity|].
  cbn [path_kind].
  assert (Hft : StartsWith arg ft = false) by (apply H, list_elem_of_here).
  destruct (String.eqb_spec arg ft) as [->|_]; [now rewrite StartsWith_refl in Hft|].
  rewrite Hft. apply IH. intros ft' Hin. now apply H, list_elem_of_further.
Qed.

Lemma StartsWithAny_false arg startings :
  (∀ s, s ∈ startings → StartsWith arg s = false) →
  StartsWithAny arg startings = false.
Proof.
  intros H. unfold StartsWithAny.
  apply not_true_is_false. intros Hex. apply existsb_exists in Hex as (x & Hin & Hx).
  apply list_elem_of_In in Hin. now rewrite (H x Hin) in Hx.
Qed.

(** A token that does not begin with ['-'] is plain. *)
Lemma plain_token_no_dash arg : StartsWith arg "-" = false → plain_token arg.
Proof.
  intros H. repeat split.
  - apply StartsWithAny_false. unfold kBlacklistMulti. intros s Hs.
    each_elem Hs by (now apply StartsWith_dash_false).
  - apply StartsWithAny_false. unfold kBlacklist. intros s Hs.
    each_elem Hs by (now apply StartsWith_dash_false).
  - apply path_kind_NoPath. unfold kPathArgs. intros s Hs.
    each_elem Hs by (now apply StartsWith_dash_false).
Qed.

(** The loop passes plain tokens through; a first token read as a value
    has to be non-empty. *)
Lemma loop_plain e l : ∀ st tail,
  Forall plain_token l →
  (next_flag_is_path st = true → head l ≠ Some "") →
  ∃ st', loop e (l ++ tail) st = loop e tail st'
         ∧ result_args st' = result_args st ++ l
         ∧ (next_flag_is_path st = false → next_flag_is_path st' = false).
Proof.
  induction l as [|arg l IH]; intros st tail Hplain Hhead.
  { exists st. now rewrite app_nil_r. }
  apply Forall_cons in Hplain as [(Hmulti & Hsingle & Hkind) Hplain].
  rewrite <- app_comm_cons, loop_cons.
  destruct (next_flag_is_path st) eqn:Hnext.
  - assert (Harg : arg ≠ "") by (intros ->; now apply Hhead).
    rewrite (cleanup_nonempty _ _ Harg).
    match goal with |- context [value_state ?path st] =>
      destruct (IH (push_back arg (value_state path st)) tail Hplain)
        as (st' & Hloop & Hargs & _); [discriminate|]
    end.
    exists st'. split; [exact Hloop|]. split; [|discriminate].
    rewrite Hargs. cbn [push_back value_state result_args].
    now rewrite <- app_assoc.
  - rewrite Hmulti, Hsingle, path_loop_kind, Hkind.
    destruct (IH (push_back arg st) tail Hplain) as (st' & Hloop & Hargs & Hnext').
    { cbn [push_back next_flag_is_path]. now rewrite Hnext. }
    exists st'. split; [exact Hloop|]. split.
    + rewrite Hargs. cbn [push_back result_args]. now rewrite <- app_assoc.
    + intros _. apply Hnext'. cbn [push_back next_flag_is_path]. exact Hnext.
Qed.

Lemma insert_dirs_fields q a path c :
  extra_flags (insert_dirs q a path c) = extra_flags c
  ∧ resource_dir (insert_dirs q a path c) = resource_dir c.
Proof. now destruct q, a. Qed.

(** The loop touches neither the extra flags nor the resource directory
    of the accumulator. *)
Lemma loop_config_fields e l : ∀ st st',
  loop e l st = Some st' →
  extra_flags (config st') = extra_flags (config st)
  ∧ resource_dir (config st') = resource_dir (config st).
Proof.
  induction l as [|arg rest IH IHtail] using list_tail_ind; intros st st'.
  { now intros [= <-]. }
  rewrite loop_cons.
  destruct (next_flag_is_path st).
  { destruct (cleanup e arg) as [path|]; [|discriminate].
    intros H. apply IH in H as [-> ->]. apply insert_dirs_fields. }
  destruct (StartsWithAny arg kBlacklistMulti); [apply IHtail|].
  destruct (StartsWithAny arg kBlacklist); [apply IH|].
  rewrite path_loop_kind.
  destruct (path_kind kPathArgs arg);
    [intros H; now apply IH in H as [-> ->]| |intros H; now apply IH in H as [-> ->]].
  destruct (cleanup e _) as [path|]; [|discriminate].
  intros H. apply IH in H as [-> ->]. apply insert_dirs_fields.
Qed.

(** *** The scan over the compiler command *)

Abbreviation strip_loop' :=
  (strip_loop g_disable_normalize_path_for_test NormalizePath).
Abbreviation is_command_token' :=
  (is_command_token g_disable_normalize_path_for_test NormalizePath).

Lemma strip_loop_bounds f l : ∀ i, i ≤ strip_loop' f l i ≤ i + length l.
Proof.
  induction l as [|arg l IH]; intros i; cbn [strip_loop length]; [lia|].
  destruct (is_command_token' f arg); [specialize (IH (S i))|]; lia.
Qed.

(** Every token before the position at which the scan stops satisfies the
    condition of the scan. *)
Lemma strip_loop_passed f l : ∀ i k arg,
  l !! k = Some arg → i + k < strip_loop' f l i →
  is_command_token' f arg = true.
Proof.
  induction l as [|a l IH]; intros i k arg Hk Hlt; [done|].
  cbn [strip_loop] in Hlt.
  destruct (is_command_token' f a) eqn:Ha; [|lia].
  destruct k as [|k]; [simpl in Hk; congruence|].
  apply (IH (S i) k); [exact Hk|lia].
Qed.

Lemma is_command_token_dash f arg :
  StartsWith arg "-" = true → is_command_token' f arg = false.
Proof.
  destruct arg as [|c arg]; [discriminate|]. simpl.
  intros H. apply andb_true_iff in H as [Hc _].
  unfold is_command_token. cbn [char_at String.get default from_option id].
  now rewrite Hc.
Qed.

(** *** The flags injected before the loop *)

Lemma SourceFileType_cases path t :
  SourceFileType path = Some t →
  t = "c" ∨ t = "c++" ∨ t = "objective-c++" ∨ t = "objective-c".
Proof.
  unfold SourceFileType.
  repeat match goal with
         | |- context [if ?b then _ else _] => destruct b
         end; intros [= <-]; auto.
Qed.

(** [result.args] before the loop: the executable, then plain tokens. *)
Lemma initial_args_shape e i :
  StartsWith (directory e) "-" = false →
  ∃ injected,
    initial_args e i = executable_of e i :: injected
    ∧ Forall plain_token injected.
Proof.
  intros Hdir. pose proof (plain_token_no_dash _ Hdir) as Hplain.
  assert (Hwd : plain_token "-working-directory") by (repeat split).
  unfold initial_args, executable_of.
  destruct (SourceFileType (file e)) as [t|] eqn:Htype.
  - apply SourceFileType_cases in Htype.
    assert (Hx : plain_token ("-x" +:+ t))
      by (destruct Htype as [-> | [-> | [-> | ->]]]; repeat split).
    assert (Hgnu : plain_token "-std=gnu11") by (repeat split).
    assert (Hcxx : plain_token "-std=c++14") by (repeat split).
    destruct (0 <? i), (AnyStartsWith (args e) "-working-directory"),
      (AnyStartsWith (args e) "-x"), (AnyStartsWith (args e) "-std="),
      (String.eqb t "c"), (String.eqb t "c++"); cbn [negb app];
      eexists; (split; [reflexivity|]);
      repeat (apply Forall_cons; split; [assumption|]); now apply Forall_nil.
  - destruct (0 <? i), (AnyStartsWith (args e) "-working-directory");
      cbn [negb app]; eexists; (split; [reflexivity|]);
      repeat (apply Forall_cons; split; [assumption|]); now apply Forall_nil.
Qed.

(** Each flag the classifier injects is found by the guard that prevents
    its injection. *)
Lemma initial_args_guards e i :
  (AnyStartsWith (args e) "-working-directory" = false →
   AnyStartsWith (initial_args e i) "-working-directory" = true)
  ∧ (SourceFileType (file e) ≠ None →
     AnyStartsWith (args e) "-x" = false →
     AnyStartsWith (initial_args e i) "-x" = true)
  ∧ (∀ t, SourceFileType (file e) = Some t → t = "c" ∨ t = "c++" →
     AnyStartsWith (args e) "-std=" = false →
     AnyStartsWith (initial_args e i) "-std=" = true).
Proof.
  unfold initial_args. repeat split.
  - intros ->. cbn [negb].
    destruct (SourceFileType (file e)) as [t|];
      repeat match goal with
             | |- context [if ?b then _ else _] => destruct b
             end;
      rewrite ?AnyStartsWith_app, ?AnyStartsWith_cons; cbn [app];
      rewrite ?AnyStartsWith_cons;
      change (StartsWith "-working-directory" "-working-directory") with true;
      now rewrite ?orb_true_r.
  - intros Htype ->. cbn [negb].
    destruct (SourceFileType (file e)) as [t|]; [|done].
    repeat match goal with
           | |- context [if ?b then _ else _] => destruct b
           end;
      rewrite ?AnyStartsWith_app, ?AnyStartsWith_cons; cbn [app];
      rewrite ?AnyStartsWith_app, ?AnyStartsWith_cons, StartsWith_app;
      now rewrite ?orb_true_r.
  - intros t -> Ht ->. cbn [negb].
    destruct Ht as [-> | ->]; cbn [String.eqb Ascii.eqb Bool.eqb andb];
      repeat match goal with
             | |- context [if ?b then _ else _] => destruct b
             end;
      rewrite ?AnyStartsWith_app, ?AnyStartsWith_cons; cbn [app];
      rewrite ?AnyStartsWith_app, ?AnyStartsWith_cons;
      try change (StartsWith "-std=gnu11" "-std=") with true;
      try change (StartsWith "-std=c++14" "-std=") with true;
      now rewrite ?orb_true_r.
Qed.

(** When the given arguments already carry the flags the classifier would
    inject, [result.args] before the loop is the executable alone. *)
Lemma initial_args_nothing_to_inject e i :
  AnyStartsWith (args e) "-working-directory" = true →
  (SourceFileType (file e) ≠ None → AnyStartsWith (args e) "-x" = true) →
  (∀ t, SourceFileType (file e) = Some t → t = "c" ∨ t = "c++" →
        AnyStartsWith (args e) "-std=" = true) →
  initial_args e i = [executable_of e i].
Proof.
  intros Hwd Hx Hstd. unfold initial_args, executable_of. rewrite Hwd. cbn [negb].
  destruct (SourceFileType (file e)) as [t|] eqn:Htype; [|now destruct (0 <? i)].
  rewrite Hx by discriminate. cbn [negb].
  destruct (AnyStartsWith (args e) "-std=") eqn:Hs; [now destruct (0 <? i)|].
  cbn [negb].
  destruct (String.eqb_spec t "c") as [->|Hc].
  { discriminate (Hstd "c" eq_refl (or_introl eq_refl)). }
  destruct (String.eqb_spec t "c++") as [->|Hcxx]; [|now destruct (0 <? i)].
  discriminate (Hstd "c++" eq_refl (or_intror eq_refl)).
Qed.

(** *** The flags appended after the loop *)

Lemma resource_dir_flag_plain r :
  plain_token ("-resource-dir=" +:+ r) ∧ "-resource-dir=" +:+ r ≠ ""
  ∧ StartsWith ("-resource-dir=" +:+ r) "-resource-dir" = true.
Proof. rewrite !append_String. repeat split. discriminate. Qed.

(** One guarded [push_back] of the part after the loop. *)
Lemma guarded_push l flag guard :
  StartsWith flag guard = true →
  ∃ appended,
    (if negb (AnyStartsWith l guard) then l ++ [flag] else l) = l ++ appended
    ∧ (appended = [] ∨ appended = [flag])
    ∧ AnyStartsWith (l ++ appended) guard = true.
Proof.
  intros Hflag. destruct (AnyStartsWith l guard) eqn:Hguard; cbn [negb].
  - exists []. rewrite app_nil_r. auto.
  - exists [flag]. repeat split; [auto|].
    now rewrite AnyStartsWith_app, AnyStartsWith_cons, Hflag, orb_true_r.
Qed.

(** Without extra flags, the part after the loop appends some of the three
    guarded flags, after which each of the three guards finds its flag. *)
Lemma final_args_shape config0 l :
  extra_flags config0 = [] →
  ∃ appended,
    final_args config0 l = l ++ appended
    ∧ Forall (λ t, plain_token t ∧ t ≠ "") appended
    ∧ AnyStartsWith (l ++ appended) "-resource-dir" = true
    ∧ AnyStartsWith (l ++ appended) "-Wno-unknown-warning-option" = true
    ∧ AnyStartsWith (l ++ appended) "-fparse-all-comments" = true.
Proof.
  intros Hextra. unfold final_args. rewrite Hextra, app_nil_r.
  destruct (resource_dir_flag_plain (resource_dir config0)) as (Hr1 & Hr2 & Hr3).
  assert (Hw : plain_token "-Wno-unknown-warning-option"
               ∧ "-Wno-unknown-warning-option" ≠ "") by (repeat split; discriminate).
  assert (Hf : plain_token "-fparse-all-comments"
               ∧ "-fparse-all-comments" ≠ "") by (repeat split; discriminate).
  destruct (guarded_push l _ _ Hr3) as (a1 & -> & Ha1 & H1).
  destruct (guarded_push (l ++ a1) "-Wno-unknown-warning-option"
              "-Wno-unknown-warning-option" eq_refl) as (a2 & -> & Ha2 & H2).
  destruct (guarded_push ((l ++ a1) ++ a2) "-fparse-all-comments"
              "-fparse-all-comments" eq_refl) as (a3 & -> & Ha3 & H3).
  exists (a1 ++ a2 ++ a3). rewrite !app_assoc.
  split; [reflexivity|]. split.
  - rewrite !Forall_app.
    destruct Ha1 as [-> | ->], Ha2 as [-> | ->], Ha3 as [-> | ->];
      repeat split; try (now apply Forall_nil);
      (apply Forall_cons; split; [auto|now apply Forall_nil]).
  - split; [|split; [|exact H3]].
    + now rewrite !(AnyStartsWith_app (_ ++ _)), H1.
    + now rewrite (AnyStartsWith_app (_ ++ _)), H2.
Qed.

(** Without extra flags, the part after the loop adds nothing to arguments
    in which each of the three guards finds its flag. *)
Lemma final_args_stable config0 l :
  extra_flags config0 = [] →
  AnyStartsWith l "-resource-dir" = true →
  AnyStartsWith l "-Wno-unknown-warning-option" = true →
  AnyStartsWith l "-fparse-all-comments" = true →
  final_args config0 l = l.
Proof.
  intros Hextra H1 H2 H3. unfold final_args.
  rewrite Hextra, app_nil_r, H1. cbn [negb]. rewrite H2. cbn [negb].
  now rewrite H3.
Qed.

Section Rerun.

(** The path canonicalisation returns absolute paths and leaves its own
    results alone. *)
Hypothesis Normalize_absolute : ∀ path, StartsWith (Normalize path) "/" = true.
Hypothesis Normalize_idempotent :
  ∀ path, Normalize (Normalize path) = Normalize path.

Lemma cleanup_result e path path' :
  cleanup e path = Some path' →
  path' ≠ "" ∧ cleanup e path' = Some path'.
Proof.
  unfold cleanup_maybe_relative_path at 1.
  destruct (String.eqb path ""); [discriminate|].
  intros Hpath'.
  assert (Habs : ∃ x, path' = Normalize x).
  { destruct (_ || _); injection Hpath' as <-; eauto. }
  destruct Habs as [x ->]. pose proof (Normalize_absolute x) as Hslash.
  destruct (Normalize x) as [|c rest] eqn:Hx; [discriminate|].
  split; [discriminate|].
  simpl in Hslash. apply andb_true_iff in Hslash as [Hc _].
  apply Ascii.eqb_eq in Hc as ->.
  rewrite cleanup_nonempty by discriminate.
  change (char_at (String "/" rest) 0) with "/"%char.
  rewrite Ascii.eqb_refl. cbn [orb]. now rewrite <- Hx, Normalize_idempotent.
Qed.

Lemma sysroot_kind path :
  path ≠ "" → path_kind kPathArgs ("--sysroot=" +:+ path) = Fused "--sysroot=".
Proof.
  intros H. unfold kPathArgs. cbn [path_kind].
  rewrite eqb_app_l, (eqb_empty_false _ H), StartsWith_app.
  now rewrite !append_String.
Qed.

Lemma sysroot_only arg flag_type :
  StartsWith arg "--sysroot=" = true →
  path_kind kPathArgs arg = Fused flag_type → flag_type = "--sysroot=".
Proof.
  intros Hstart. apply StartsWith_decompose in Hstart. rewrite Hstart.
  destruct (substr arg (String.length "--sysroot=")) as [|c path]; [discriminate|].
  rewrite sysroot_kind by discriminate. congruence.
Qed.

Lemma sysroot_not_blacklisted path :
  StartsWithAny ("--sysroot=" +:+ path) kBlacklistMulti = false
  ∧ StartsWithAny ("--sysroot=" +:+ path) kBlacklist = false
  ∧ StartsWithAny ("--sysroot=" +:+ path) kNormalizePathArgs = true.
Proof. rewrite !append_String. repeat split. Qed.

(** What the loop over [kPathArgs] hands on is treated the same way when
    it is read again. *)
Lemma path_loop_rerun e arg st arg' st' :
  path_loop e kPathArgs arg st = Some (arg', st') →
  StartsWithAny arg kBlacklistMulti = false →
  StartsWithAny arg kBlacklist = false →
  StartsWithAny arg' kBlacklistMulti = false
  ∧ StartsWithAny arg' kBlacklist = false
  ∧ ∀ st2, ∃ st2',
      path_loop e kPathArgs arg' st2 = Some (arg', st2')
      ∧ result_args st2' = result_args st2
      ∧ next_flag_is_path st2' =
        match path_kind kPathArgs arg with
        | Split => true
        | _ => next_flag_is_path st2
        end.
Proof.
  rewrite path_loop_kind. intros Hpath Hmulti Hsingle.
  destruct (path_kind kPathArgs arg) as [|flag_type|] eqn:Hkind.
  - injection Hpath as <- <-. repeat split; [done..|].
    intros st2. exists (split_state arg st2).
    now rewrite path_loop_kind, Hkind.
  - destruct (cleanup e (substr arg (String.length flag_type))) as [path|] eqn:Hclean;
      [|discriminate].
    destruct (cleanup_result _ _ _ Hclean) as [Hnonempty Hagain].
    destruct (StartsWithAny arg kNormalizePathArgs) eqn:Hnorm.
    + assert (flag_type = "--sysroot=") as ->.
      { apply (sysroot_only arg); [|exact Hkind].
        unfold StartsWithAny, kNormalizePathArgs in Hnorm. cbn [existsb] in Hnorm.
        now rewrite orb_false_r in Hnorm. }
      injection Hpath as <- <-.
      destruct (sysroot_not_blacklisted path) as (Hm & Hs & Hn).
      repeat split; [done..|].
      intros st2. exists (fused_state "--sysroot=" path st2).
      rewrite path_loop_kind, (sysroot_kind _ Hnonempty), substr_app, Hagain, Hn.
      done.
    + injection Hpath as <- <-. repeat split; [done..|].
      intros st2. exists (fused_state flag_type path st2).
      now rewrite path_loop_kind, Hkind, Hclean, Hnorm.
  - injection Hpath as <- <-. repeat split; [done..|].
    intros st2. exists st2. now rewrite path_loop_kind, Hkind.
Qed.

(** The tokens the loop emits go through the loop unchanged when they are
    read again from the same position: the loop emits them once more and
    comes out expecting what it expected the first time. *)
Lemma loop_rerun e l : ∀ st st1,
  loop e l st = Some st1 →
  ∃ out,
    result_args st1 = result_args st ++ out
    ∧ ∀ st2 tail,
        next_flag_is_path st2 = next_flag_is_path st →
        ∃ st2',
          loop e (out ++ tail) st2 = loop e tail st2'
          ∧ result_args st2' = result_args st2 ++ out
          ∧ next_flag_is_path st2' = next_flag_is_path st1.
Proof.
  induction l as [|arg rest IH IHtail] using list_tail_ind; intros st st1.
  { intros [= <-]. exists []. split; [now rewrite app_nil_r|].
    intros st2 tail Hnext. exists st2. now rewrite app_nil_r. }
  rewrite loop_cons.
  destruct (next_flag_is_path st) eqn:Hnext.
  { destruct (cleanup e arg) as [path|] eqn:Hclean; [|discriminate].
    intros Hloop. apply IH in Hloop as (out & Hout & Hrerun).
    exists (arg :: out). split.
    { rewrite Hout. cbn [push_back value_state result_args].
      now rewrite <- app_assoc. }
    intros st2 tail Hnext2.
    destruct (Hrerun (push_back arg (value_state path st2)) tail eq_refl)
      as (st2' & Hloop2 & Hargs2 & Hnext2').
    exists st2'. rewrite <- app_comm_cons, loop_cons, Hnext2, Hclean.
    split; [exact Hloop2|]. split; [|exact Hnext2'].
    rewrite Hargs2. cbn [push_back value_state result_args].
    now rewrite <- app_assoc. }
  destruct (StartsWithAny arg kBlacklistMulti) eqn:Hmulti.
  { intros Hloop. apply IHtail in Hloop as (out & Hout & Hrerun).
    exists out. split; [exact Hout|].
    intros st2 tail Hnext2. apply Hrerun. now rewrite Hnext2, Hnext. }
  destruct (StartsWithAny arg kBlacklist) eqn:Hsingle.
  { intros Hloop. apply IH in Hloop as (out & Hout & Hrerun).
    exists out. split; [exact Hout|].
    intros st2 tail Hnext2. apply Hrerun. now rewrite Hnext2, Hnext. }
  destruct (path_loop e kPathArgs arg st) as [[arg' st']|] eqn:Hpath; [|discriminate].
  intros Hloop. apply IH in Hloop as (out & Hout & Hrerun).
  destruct (path_loop_rerun _ _ _ _ _ Hpath Hmulti Hsingle) as (Hmulti' & Hsingle' & Hagain).
  exists (arg' :: out). split.
  { rewrite Hout. cbn [push_back result_args].
    rewrite (path_loop_result_args _ _ _ _ _ Hpath). now rewrite <- app_assoc. }
  intros st2 tail Hnext2.
  destruct (Hagain st2) as (st2a & Hpath2 & Hargs2a & Hnext2a).
  destruct (Hrerun (push_back arg' st2a) tail) as (st2' & Hloop2 & Hargs2 & Hnext2').
  { cbn [push_back next_flag_is_path].
    rewrite Hnext2a, (path_loop_next_flag _ _ _ _ _ Hpath), Hnext2, Hnext. done. }
  exists st2'. rewrite <- app_comm_cons, loop_cons, Hnext2, Hmulti', Hsingle', Hpath2.
  split; [exact Hloop2|]. split; [|exact Hnext2'].
  rewrite Hargs2. cbn [push_back result_args]. rewrite Hargs2a.
  now rewrite <- app_assoc.
Qed.

Lemma executable_is_command_token e :
  Normalize "clang++" ≠ Normalize (file e) →
  is_command_token' (Normalize (file e)) (executable_of e (compiler_end' e)) = true.
Proof.
  intros Hdummy. unfold executable_of.
  destruct (Nat.ltb_spec 0 (compiler_end' e)) as [Hpos|Hzero].
  - pose proof (strip_loop_bounds (Normalize (file e)) (args e) 0) as [_ Hle].
    fold (compiler_end' e) in Hle.
    destruct (lookup_lt_is_Some_2 (args e) (compiler_end' e - 1)) as [arg Harg]; [lia|].
    rewrite Harg. cbn [default from_option].
    apply (strip_loop_passed _ _ 0 _ _ Harg).
    fold (compiler_end' e). lia.
  - unfold is_command_token. apply String.eqb_neq in Hdummy. now rewrite Hdummy.
Qed.

(** C6, amended. With a path canonicalisation that returns absolute paths
    and leaves its own results alone, no extra flags in the accumulator, a
    working directory that is not spelled like a flag, a source file that
    is not the dummy executable, produced args in which a flag follows the
    executable and which still carry every injected-flag guard the raw
    arguments carried: classifying the produced args again, for the same
    working directory and source file, produces the same args. *)
Theorem reclassify_own_output config0 config1 e entry1 config' :
  extra_flags config0 = [] →
  extra_flags config1 = [] →
  StartsWith (directory e) "-" = false →
  Normalize "clang++" ≠ Normalize (file e) →
  Classify config0 e = Some (entry1, config') →
  (∀ guard, guard ∈ kInjectedFlagGuards →
            AnyStartsWith (args e) guard = true →
            AnyStartsWith (entry_args entry1) guard = true) →
  StartsWith (default "" (entry_args entry1 !! 1)) "-" = true →
  ∃ config'',
    Classify config1 (with_args e (entry_args entry1)) = Some (entry1, config'').
Proof.
  intros Hextra0 Hextra1 Hdir Hdummy Hfirst Hguards Hflag.
  unfold GetCompilationEntryFromCompileCommandEntry in Hfirst. cbv zeta in Hfirst.
  unfold classify_from in Hfirst.
  pose proof (executable_is_command_token e Hdummy) as Hexe.
  set (i1 := compiler_end' e) in *.
  destruct (loop e (drop i1 (args e)) _) as [st1|] eqn:Hloop1; [|discriminate].
  injection Hfirst as <- <-. cbn [entry_args] in *.
  (* the first run *)
  destruct (loop_config_fields _ _ _ _ Hloop1) as [Hextra_st1 _].
  cbn [loop_entry_state config] in Hextra_st1. rewrite Hextra0 in Hextra_st1.
  destruct (loop_rerun _ _ _ _ Hloop1) as (out & Hout & Hrerun).
  cbn [loop_entry_state result_args next_flag_is_path] in Hout, Hrerun.
  destruct (initial_args_shape e i1 Hdir) as (injected & Hinit & Hplain).
  destruct (final_args_shape (config st1) (result_args st1) Hextra_st1)
    as (appended & Hfinal & Happended & Hg1 & Hg2 & Hg3).
  rewrite <- Hfinal in Hg1, Hg2, Hg3.
  set (res1 := final_args (config st1) (result_args st1)) in *.
  assert (Hres1 : res1 = executable_of e i1 :: (injected ++ out ++ appended)).
  { rewrite Hfinal, Hout, Hinit. now rewrite <- !app_assoc. }
  (* the guards of the injected flags find their flags in the produced args *)
  assert (Hinitial_in : ∀ guard,
            AnyStartsWith (initial_args e i1) guard = true →
            AnyStartsWith res1 guard = true).
  { intros guard Hg. now rewrite Hfinal, Hout, !AnyStartsWith_app, Hg. }
  destruct (initial_args_guards e i1) as (Hwd & Hx & Hstd).
  assert (Hwd' : AnyStartsWith res1 "-working-directory" = true).
  { destruct (AnyStartsWith (args e) "-working-directory") eqn:Hraw.
    - apply Hguards; [|exact Hraw]. apply list_elem_of_In. simpl. auto.
    - auto. }
  assert (Hx' : SourceFileType (file e) ≠ None → AnyStartsWith res1 "-x" = true).
  { intros Htype. destruct (AnyStartsWith (args e) "-x") eqn:Hraw.
    - apply Hguards; [|exact Hraw]. apply list_elem_of_In. simpl. auto.
    - auto. }
  assert (Hstd' : ∀ t, SourceFileType (file e) = Some t → t = "c" ∨ t = "c++" →
                       AnyStartsWith res1 "-std=" = true).
  { intros t Htype Ht. destruct (AnyStartsWith (args e) "-std=") eqn:Hraw.
    - apply Hguards; [|exact Hraw]. apply list_elem_of_In. simpl. auto.
    - eauto. }
  (* the scan of the second run stops after the executable *)
  assert (Hend : compiler_end' (with_args e res1) = 1).
  { unfold compiler_end. cbn [with_args args file].
    rewrite Hres1 in Hflag |- *. cbn [lookup list_lookup] in Hflag.
    destruct (injected ++ out ++ appended) as [|flag rest]; [discriminate|].
    cbn [lookup list_lookup default from_option] in Hflag.
    cbn [strip_loop].
    now rewrite Hexe, (is_command_token_dash _ _ Hflag). }
  assert (Hinit2 : initial_args (with_args e res1) 1 = [executable_of e i1]).
  { rewrite initial_args_nothing_to_inject by assumption.
    unfold executable_of at 1. cbn [with_args args Nat.ltb Nat.leb Nat.sub].
    now rewrite Hres1. }
  (* the loop of the second run *)
  unfold GetCompilationEntryFromCompileCommandEntry. cbv zeta.
  rewrite Hend. unfold classify_from. rewrite Hinit2.
  cbn [with_args args file]. rewrite (loop_directory _ e) by reflexivity.
  replace (drop 1 res1) with (injected ++ out ++ appended) by now rewrite Hres1.
  destruct (loop_plain e injected
              (loop_entry_state config1 [executable_of e i1]) (out ++ appended) Hplain)
    as (sta & Hloop_a & Hargs_a & Hnext_a); [discriminate|].
  destruct (Hrerun sta appended) as (stb & Hloop_b & Hargs_b & _).
  { now apply Hnext_a. }
  destruct (loop_plain e appended stb []) as (stc & Hloop_c & Hargs_c & _).
  { eapply Forall_impl; [exact Happended|]. now intros t [Hplain_t _]. }
  { intros _. destruct appended as [|t rest]; [discriminate|].
    apply Forall_cons in Happended as [[_ Hnonempty] _]. now intros [= ->]. }
  rewrite app_nil_r in Hloop_c. cbn [args_loop] in Hloop_c.
  assert (Hwhole : loop e (injected ++ out ++ appended)
                     (loop_entry_state config1 [executable_of e i1]) = Some stc)
    by now rewrite Hloop_a, Hloop_b.
  rewrite Hwhole.
  assert (Hres_c : result_args stc = res1).
  { rewrite Hargs_c, Hargs_b, Hargs_a, Hres1. cbn [loop_entry_state result_args].
    now rewrite <- !app_assoc. }
  destruct (loop_config_fields _ _ _ _ Hwhole) as [Hextra_c _].
  cbn [loop_entry_state config] in Hextra_c. rewrite Hextra1 in Hextra_c.
  exists (config stc). rewrite Hres_c.
  now rewrite (final_args_stable _ _ Hextra_c Hg1 Hg2 Hg3).
Qed.

End Rerun.

(** *** Where the produced args come from *)

Lemma final_args_elem config0 l t :
  t ∈ final_args config0 l →
  t ∈ l ∨ t ∈ extra_flags config0
  ∨ t ∈ ["-resource-dir=" +:+ resource_dir config0;
         "-Wno-unknown-warning-option"; "-fparse-all-comments"].
Proof.
  unfold final_args.
  repeat match goal with
         | |- context [if ?b then _ else _] => destruct b
         end;
    rewrite ?elem_of_app, ?elem_of_cons, ?elem_of_nil; tauto.
Qed.

(** A token the loop emits is a token it read, or a rewritten
    [--sysroot=] spelling. *)
Lemma loop_emitted e l : ∀ st st' t,
  loop e l st = Some st' → t ∈ result_args st' →
  t ∈ result_args st ∨ t ∈ l ∨ StartsWith t "--sysroot=" = true.
Proof.
  induction l as [|arg rest IH IHtail] using list_tail_ind; intros st st' t.
  { intros [= <-]. auto. }
  rewrite loop_cons.
  destruct (next_flag_is_path st).
  { destruct (cleanup e arg) as [path|]; [|discriminate].
    intros Hloop Ht. destruct (IH _ _ _ Hloop Ht) as [Hin|[Hin|Hin]]; auto.
    - cbn [push_back value_state result_args] in Hin.
      apply elem_of_app in Hin as [Hin|Hin]; [auto|].
      apply list_elem_of_singleton in Hin as ->.
      right; left. apply list_elem_of_here.
    - right; left. now apply list_elem_of_further. }
  destruct (StartsWithAny arg kBlacklistMulti).
  { intros Hloop Ht. destruct (IHtail _ _ _ Hloop Ht) as [Hin|[Hin|Hin]]; auto.
    right; left. apply list_elem_of_further.
    destruct rest; [done|]. now apply list_elem_of_further. }
  destruct (StartsWithAny arg kBlacklist).
  { intros Hloop Ht. destruct (IH _ _ _ Hloop Ht) as [Hin|[Hin|Hin]]; auto.
    right; left. now apply list_elem_of_further. }
  destruct (path_loop e kPathArgs arg st) as [[arg' st1]|] eqn:Hpath; [|discriminate].
  intros Hloop Ht. destruct (IH _ _ _ Hloop Ht) as [Hin|[Hin|Hin]]; auto.
  - cbn [push_back result_args] in Hin.
    rewrite (path_loop_result_args _ _ _ _ _ Hpath) in Hin.
    apply elem_of_app in Hin as [Hin|Hin]; [auto|].
    apply list_elem_of_singleton in Hin as ->.
    rewrite path_loop_kind in Hpath.
    destruct (path_kind kPathArgs arg) as [|flag_type|] eqn:Hkind.
    + injection Hpath as <- _. right; left. apply list_elem_of_here.
    + destruct (cleanup e _) as [path|]; [|discriminate].
      destruct (StartsWithAny arg kNormalizePathArgs) eqn:Hnorm.
      * assert (flag_type = "--sysroot=") as ->.
        { apply (sysroot_only arg); [|exact Hkind].
          unfold StartsWithAny, kNormalizePathArgs in Hnorm. cbn [existsb] in Hnorm.
          now rewrite orb_false_r in Hnorm. }
        injection Hpath as <- _. right; right. apply StartsWith_app.
      * injection Hpath as <- _. right; left. apply list_elem_of_here.
    + injection Hpath as <- _. right; left. apply list_elem_of_here.
  - right; left. now apply list_elem_of_further.
Qed.

(** *** Dropping tokens from the raw arguments *)

(** The token at which the scan over the compiler command stops fails
    the condition of the scan. *)
Lemma strip_loop_stop f l : ∀ i arg,
  l !! (strip_loop' f l i - i) = Some arg → is_command_token' f arg = false.
Proof.
  induction l as [|a l IH]; intros i arg; [done|].
  cbn [strip_loop]. destruct (is_command_token' f a) eqn:Ha.
  - pose proof (strip_loop_bounds f l (S i)) as [Hle _].
    replace (strip_loop' f l (S i) - i) with (S (strip_loop' f l (S i) - S i))
      by lia.
    intros H. apply (IH (S i)). exact H.
  - rewrite Nat.sub_diag. intros H. simpl in H. congruence.
Qed.

Lemma strip_loop_stops f pre rest : ∀ i,
  Forall (λ arg, is_command_token' f arg = true) pre →
  (∀ arg, head rest = Some arg → is_command_token' f arg = false) →
  strip_loop' f (pre ++ rest) i = i + length pre.
Proof.
  induction pre as [|arg pre IH]; intros i Hpre Hrest.
  - cbn [app length]. destruct rest as [|arg rest]; cbn [strip_loop]; [lia|].
    rewrite (Hrest arg eq_refl). lia.
  - apply Forall_cons in Hpre as [Harg Hpre].
    cbn [app strip_loop length]. rewrite Harg, (IH (S i) Hpre Hrest). lia.
Qed.

(** Two prefixes of one string: one of them is a prefix of the other. *)
Lemma StartsWith_comparable a : ∀ t b,
  StartsWith t a = true → StartsWith t b = true →
  StartsWith a b = true ∨ StartsWith b a = true.
Proof.
  induction a as [|c a IH]; intros t b Ha Hb; [right; now destruct b|].
  destruct b as [|d b]; [now left|].
  destruct t as [|x t]; [discriminate|]. cbn [StartsWith] in *.
  apply andb_true_iff in Ha as [Hc Ha]. apply andb_true_iff in Hb as [Hd Hb].
  apply Ascii.eqb_eq in Hc as ->. apply Ascii.eqb_eq in Hd as ->.
  rewrite Ascii.eqb_refl. cbn [andb]. now apply (IH t).
Qed.

(** A token that starts with a blacklisted flag starts with none of the
    prefixes by which the injected flags are guarded. *)
Lemma blacklisted_not_guard t :
  StartsWithAny t kBlacklistMulti = true ∨ StartsWithAny t kBlacklist = true →
  StartsWithAny t kInjectedFlagGuards = false.
Proof.
  intros Hblack. apply not_true_is_false.
  intros (g & Hg & Htg)%existsb_exists.
  assert (Hb : ∃ b, In b (kBlacklistMulti ++ kBlacklist) ∧ StartsWith t b = true).
  { destruct Hblack as [(b & Hb & Htb)%existsb_exists|(b & Hb & Htb)%existsb_exists];
      exists b; (split; [apply in_or_app; auto|exact Htb]). }
  destruct Hb as (b & Hb & Htb).
  unfold kBlacklistMulti, kBlacklist, kInjectedFlagGuards in Hb, Hg.
  simpl in Hb, Hg.
  destruct (StartsWith_comparable _ _ _ Htb Htg) as [H|H];
    repeat (destruct Hb as [<-|Hb]; [|]); try contradiction;
    repeat (destruct Hg as [<-|Hg]; [|]); try contradiction;
    cbv in H; discriminate.
Qed.

Lemma guards_dropped dropped g :
  Forall (λ t, StartsWithAny t kInjectedFlagGuards = false) dropped →
  In g kInjectedFlagGuards →
  AnyStartsWith dropped g = false.
Proof.
  intros Hall Hg. induction dropped as [|t dropped IH]; [reflexivity|].
  apply Forall_cons in Hall as [Ht Hall].
  rewrite AnyStartsWith_cons, (IH Hall), orb_false_r.
  apply not_true_is_false. intros Htg.
  assert (Hany : StartsWithAny t kInjectedFlagGuards = true)
    by (apply existsb_exists; eauto).
  congruence.
Qed.

(** The part built before the loop reads the raw arguments only through
    the token before the position of the scan and through the three
    guards. *)
Lemma initial_args_cut e e' i :
  directory e' = directory e → file e' = file e →
  (0 < i → args e' !! (i - 1) = args e !! (i - 1)) →
  (∀ g, In g kInjectedFlagGuards →
        AnyStartsWith (args e') g = AnyStartsWith (args e) g) →
  initial_args e' i = initial_args e i.
Proof.
  intros Hdirectory Hfile Hexecutable Hguards. unfold initial_args.
  rewrite Hdirectory, Hfile,
    (Hguards "-working-directory"), (Hguards "-x"), (Hguards "-std=")
    by (unfold kInjectedFlagGuards; simpl; tauto).
  destruct (Nat.ltb_spec 0 i) as [Hpos|_]; [|reflexivity].
  now rewrite (Hexecutable Hpos).
Qed.

(** The classifier on the raw arguments without the tokens [dropped]:
    when none of them would have kept a flag from being injected and the
    scan over the compiler command stops where it did, it is the
    classifier on the original arguments with its loop going over the
    remaining tokens. *)
Lemma classify_cut config0 e pre dropped rest :
  drop (compiler_end' e) (args e) = pre ++ dropped ++ rest →
  Forall (λ t, StartsWithAny t kInjectedFlagGuards = false) dropped →
  (pre ≠ []
   ∨ ∀ arg, head rest = Some arg →
            is_command_token' (Normalize (file e)) arg = false) →
  Classify config0
    (with_args e (take (compiler_end' e) (args e) ++ pre ++ rest)) =
  classify_from' config0 e (compiler_end' e) (pre ++ rest).
Proof.
  intros Hraw Hdropped Hscan.
  pose proof (strip_loop_bounds (Normalize (file e)) (args e) 0) as [_ Hle].
  fold (compiler_end' e) in Hle. cbn [Nat.add] in Hle.
  set (i := compiler_end' e) in *.
  assert (Hlen : length (take i (args e)) = i) by now apply length_take_le.
  assert (Hargs : args e = take i (args e) ++ pre ++ dropped ++ rest).
  { now rewrite <- Hraw, take_drop. }
  assert (Htake : Forall (λ arg, is_command_token' (Normalize (file e)) arg = true)
                    (take i (args e))).
  { apply Forall_lookup_2. intros k arg [Hk Hlt]%lookup_take_Some.
    apply (strip_loop_passed _ _ 0 _ _ Hk). exact Hlt. }
  assert (Hstop : ∀ arg, head (pre ++ rest) = Some arg →
                         is_command_token' (Normalize (file e)) arg = false).
  { destruct pre as [|p pre]; [destruct Hscan as [Hne|Hrest]; [done|exact Hrest]|].
    intros arg [= <-]. apply (strip_loop_stop _ (args e) 0).
    fold (compiler_end' e). fold i. rewrite Nat.sub_0_r.
    rewrite <- (Nat.add_0_r i), <- lookup_drop, Hraw. reflexivity. }
  assert (Hend : compiler_end' (with_args e (take i (args e) ++ pre ++ rest)) = i).
  { unfold compiler_end. cbn [with_args file args].
    now rewrite (strip_loop_stops _ _ _ 0 Htake Hstop), Hlen. }
  unfold GetCompilationEntryFromCompileCommandEntry. cbv zeta. rewrite Hend.
  cbn [with_args args]. rewrite (drop_app_length' _ _ _ (eq_sym Hlen)).
  unfold classify_from.
  rewrite (loop_directory (with_args e (take i (args e) ++ pre ++ rest)) e)
    by reflexivity.
  rewrite (initial_args_cut e (with_args e (take i (args e) ++ pre ++ rest)) i);
    [reflexivity|reflexivity|reflexivity| |].
  - intros Hpos. cbn [with_args args].
    rewrite lookup_app_l by lia. now rewrite lookup_take_lt by lia.
  - intros g Hg. cbn [with_args args]. rewrite Hargs at 2.
    rewrite !AnyStartsWith_app, (guards_dropped dropped g Hdropped Hg).
    reflexivity.
Qed.

(** C8, amended. When the loop reads a multi-token blacklisted flag in
    flag position, that is neither as the value of a split path flag nor
    as the token a preceding multi-token flag takes with it, the flag and
    the token after it are dropped together: the loop goes on as over the
    remaining tokens, the executable and the flags injected before the
    loop being those of the original arguments, and every token of the
    produced args is the executable or an injected flag, one of the
    remaining tokens or a rewritten [--sysroot=] spelling, an extra flag
    or one of the three appended flags. Entry and accumulator are those
    the classifier produces from the raw arguments without the two tokens
    whenever the dropped value starts with none of [-working-directory],
    [-x] and [-std=] and the scan over the compiler command stops where
    it did: the flag is not the first token after the compiler command,
    or the token after the dropped pair stops the scan, or there is
    none. *)
Theorem multi_token_blacklist config0 e pre flag value rest :
  drop (compiler_end' e) (args e) = pre ++ flag :: value :: rest →
  flag_position_after false pre = true →
  flag ∈ kBlacklistMulti →
  Classify config0 e = classify_from' config0 e (compiler_end' e) (pre ++ rest)
  ∧ (∀ entry config' t,
       Classify config0 e = Some (entry, config') →
       t ∈ entry_args entry →
       t ∈ initial_args e (compiler_end' e)
       ∨ t ∈ pre ++ rest
       ∨ StartsWith t "--sysroot=" = true
       ∨ t ∈ extra_flags config0
       ∨ t ∈ ["-resource-dir=" +:+ resource_dir config0;
              "-Wno-unknown-warning-option"; "-fparse-all-comments"])
  ∧ (StartsWithAny value kInjectedFlagGuards = false →
     (pre ≠ []
      ∨ ∀ arg, head rest = Some arg →
               is_command_token' (Normalize (file e)) arg = false) →
     Classify config0 e =
     Classify config0
       (with_args e (take (compiler_end' e) (args e) ++ pre ++ rest))).
Proof.
  intros Hraw Hpos Hflag.
  pose proof (classify_drops_pair config0 _ _ _ _ _ Hraw Hpos
                (kBlacklistMulti_self _ Hflag)) as Hdrop.
  split; [exact Hdrop|]. split.
  - intros entry config' t. rewrite Hdrop. unfold classify_from.
    destruct (loop e (pre ++ rest) _) as [st|] eqn:Hloop; [|discriminate].
    intros [= <- <-]. cbn [entry_args].
    destruct (loop_config_fields _ _ _ _ Hloop) as [Hextra Hresource].
    cbn [loop_entry_state config] in Hextra, Hresource.
    intros Ht. apply final_args_elem in Ht. rewrite Hextra, Hresource in Ht.
    destruct Ht as [Ht|[Ht|Ht]]; [|tauto..].
    apply (loop_emitted _ _ _ _ _ Hloop) in Ht.
    cbn [loop_entry_state result_args] in Ht. tauto.
  - intros Hvalue Hscan. rewrite Hdrop. symmetry.
    apply (classify_cut config0 e pre [flag; value] rest); [exact Hraw| |exact Hscan].
    apply Forall_cons. split; [|apply Forall_cons; split; [exact Hvalue|now apply Forall_nil]].
    apply blacklisted_not_guard. left. now apply kBlacklistMulti_self.
Qed.

(** C10, amended. The match against the multi-token blacklist is by
    prefix: a token read in flag position that merely starts with a
    multi-token blacklisted flag, with its value fused to it, is dropped
    and takes the token after it along, whatever that token is: the loop
    goes on as over the remaining tokens, the executable and the flags
    injected before the loop being those of the original arguments. Entry
    and accumulator are those the classifier produces from the raw
    arguments without the two tokens whenever the token taken along starts
    with none of [-working-directory], [-x] and [-std=] and the scan over
    the compiler command stops where it did: the fused token is not the
    first token after the compiler command, or the token after the
    dropped pair stops the scan, or there is none. *)
Theorem fused_blacklist_takes_next config0 e pre flag suffix value rest :
  drop (compiler_end' e) (args e) = pre ++ (flag +:+ suffix) :: value :: rest →
  flag_position_after false pre = true →
  flag ∈ kBlacklistMulti →
  suffix ≠ "" →
  Classify config0 e = classify_from' config0 e (compiler_end' e) (pre ++ rest)
  ∧ (StartsWithAny value kInjectedFlagGuards = false →
     (pre ≠ []
      ∨ ∀ arg, head rest = Some arg →
               is_command_token' (Normalize (file e)) arg = false) →
     Classify config0 e =
     Classify config0
       (with_args e (take (compiler_end' e) (args e) ++ pre ++ rest))).
Proof.
  intros Hraw Hpos Hflag _.
  assert (Hfused : StartsWithAny (flag +:+ suffix) kBlacklistMulti = true)
    by now apply StartsWithAny_app.
  pose proof (classify_drops_pair config0 _ _ _ _ _ Hraw Hpos Hfused) as Hdrop.
  split; [exact Hdrop|].
  intros Hvalue Hscan. rewrite Hdrop. symmetry.
  apply (classify_cut config0 e pre [flag +:+ suffix; value] rest);
    [exact Hraw| |exact Hscan].
  apply Forall_cons. split; [|apply Forall_cons; split; [exact Hvalue|now apply Forall_nil]].
  apply blacklisted_not_guard. now left.
Qed.

(** C7. For a non-empty path value [foo], the split spelling
    [["-I"; foo]] and the fused spelling [["-I" ++ foo]] leave the same
    accumulator behind, and the angle-style set of that accumulator holds
    [foo] made absolute against the working directory and normalised: it
    is the set of before with this one path inserted, and nothing else of
    the accumulator has changed. *)
Theorem split_fused_equivalence config0 dir src cmd foo :
  foo ≠ "" →
  let path :=
    if Ascii.eqb (char_at foo 0) "/" || String.eqb dir ""
    then Normalize foo else Normalize (dir +:+ "/" +:+ foo) in
  ∃ config',
    (∃ e1, Classify config0
             {| directory := dir; file := src; command := cmd;
                args := ["-I"; foo] |} = Some (e1, config'))
    ∧ (∃ e2, Classify config0
               {| directory := dir; file := src; command := cmd;
                  args := ["-I" +:+ foo] |} = Some (e2, config'))
    ∧ path ∈ angle_dirs config'
    ∧ angle_dirs config' = {[ path ]} ∪ angle_dirs config0
    ∧ quote_dirs config' = quote_dirs config0
    ∧ extra_flags config' = extra_flags config0
    ∧ project_dir config' = project_dir config0
    ∧ resource_dir config' = resource_dir config0.
Proof.
  intros Hfoo path. exists (insert_angle_dir path config0).
  split; [|split; [|split; [cbn [insert_angle_dir angle_dirs]; set_solver
                           |now repeat split]]].
  - unfold GetCompilationEntryFromCompileCommandEntry, compiler_end, classify_from.
    cbv zeta. cbn [args file directory].
    change (strip_loop _ _ _ ["-I"; foo] 0) with 0.
    cbn [drop args_loop loop_entry_state next_flag_is_path].
    change (StartsWithAny "-I" kBlacklistMulti) with false.
    change (StartsWithAny "-I" kBlacklist) with false.
    cbn [negb andb]. rewrite path_loop_kind.
    change (path_kind kPathArgs "-I") with Split.
    cbn [split_state push_back next_flag_is_path negb andb config
         add_next_flag_to_quote_dirs add_next_flag_to_angle_dirs].
    rewrite (cleanup_nonempty _ _ Hfoo). cbn [directory]. fold path.
    change (ShouldAddToQuoteIncludes "-I") with false.
    change (ShouldAddToAngleIncludes "-I") with true.
    cbn [insert_dirs config push_back result_args].
    eexists. reflexivity.
  - assert (Hkind : path_kind kPathArgs ("-I" +:+ foo) = Fused "-I").
    { unfold kPathArgs. cbn [path_kind].
      now rewrite eqb_app_l, (eqb_empty_false _ Hfoo), StartsWith_app. }
    unfold GetCompilationEntryFromCompileCommandEntry, compiler_end, classify_from.
    cbv zeta. cbn [args file directory].
    replace (strip_loop _ _ _ ["-I" +:+ foo] 0) with 0
      by (now rewrite !append_String).
    cbn [drop args_loop loop_entry_state next_flag_is_path].
    replace (StartsWithAny ("-I" +:+ foo) kBlacklistMulti) with false
      by (now rewrite !append_String).
    replace (StartsWithAny ("-I" +:+ foo) kBlacklist) with false
      by (now rewrite !append_String).
    cbn [negb andb]. rewrite path_loop_kind, Hkind, substr_app.
    rewrite (cleanup_nonempty _ _ Hfoo). cbn [directory]. fold path.
    replace (StartsWithAny ("-I" +:+ foo) kNormalizePathArgs) with false
      by (now rewrite !append_String).
    change (ShouldAddToQuoteIncludes "-I") with false.
    change (ShouldAddToAngleIncludes "-I") with true.
    cbn [fused_state insert_dirs config push_back result_args].
    eexists. reflexivity.
Qed.

End ClassifierProperties.

(** ** The classifier on concrete invocations *)

Lemma wrapper_stripping_witness :
  SourceFileType "file.cc" = Some "c++"
  ∧ CheckFlags "/dir/" "file.cc" ["buildproxy"; "cc1"] =
    Some ["cc1"; "-working-directory"; "/dir/"; "-xc++"; "-std=c++14";
          "-resource-dir=/w/resource_dir/"; "-Wno-unknown-warning-option";
          "-fparse-all-comments"].
Proof.
  split; [reflexivity|]. unfold CheckFlags.
  rewrite (wrapper_stripping true (λ path, path) test_config "/dir/" "file.cc" "");
    [reflexivity|reflexivity|reflexivity|reflexivity|discriminate|discriminate].
Defined.

(** C6, counterexample to the statement of the specification: the extra
    flags of the accumulator are appended without a guard, so the second
    run appends them again. *)
Lemma extra_flags_appended_again :
  ∃ entry1 entry2,
    GetCompilationEntryFromCompileCommandEntry true (λ path, path)
      extra_flag_config (test_entry ["clang"; "-O2"]) =
    Some (entry1, extra_flag_config)
    ∧ GetCompilationEntryFromCompileCommandEntry true (λ path, path)
        extra_flag_config (with_args (test_entry ["clang"; "-O2"]) (entry_args entry1)) =
      Some (entry2, extra_flag_config)
    ∧ entry_args entry1 =
      ["clang"; "-working-directory"; "/dir/"; "-xc++"; "-std=c++14"; "-O2";
       "-DEXTRA"; "-resource-dir=/w/resource_dir/";
       "-Wno-unknown-warning-option"; "-fparse-all-comments"]
    ∧ entry_args entry2 = entry_args entry1 ++ ["-DEXTRA"]
    ∧ entry_args entry2 ≠ entry_args entry1.
Proof.
  eexists. eexists.
  split; [vm_compute; reflexivity|].
  split; [vm_compute; reflexivity|].
  split; [reflexivity|]. split; [reflexivity|]. discriminate.
Qed.

Lemma slash_rooted_absolute path :
  StartsWith (NormalizePathWithTestOptOut false slash_rooted path) "/" = true.
Proof.
  unfold NormalizePathWithTestOptOut, slash_rooted.
  destruct (StartsWith path "/") eqn:H; [exact H|reflexivity].
Defined.

Lemma slash_rooted_idempotent path :
  NormalizePathWithTestOptOut false slash_rooted
    (NormalizePathWithTestOptOut false slash_rooted path) =
  NormalizePathWithTestOptOut false slash_rooted path.
Proof.
  unfold NormalizePathWithTestOptOut, slash_rooted.
  destruct (StartsWith path "/") eqn:H; [now rewrite H|reflexivity].
Defined.

Lemma reclassify_own_output_witness :
  ∃ entry1 config' config'',
    GetCompilationEntryFromCompileCommandEntry false slash_rooted test_config
      {| directory := "/dir"; file := "/dir/file.cc"; command := "";
         args := ["goma"; "clang"; "-MF"; "x.d"; "-Ifoo"; "--sysroot=sys";
                  "-std=c++11"; "-isystem"; "inc"; "file.cc"] |} =
    Some (entry1, config')
    ∧ GetCompilationEntryFromCompileCommandEntry false slash_rooted test_config
        {| directory := "/dir"; file := "/dir/file.cc"; command := "";
           args := entry_args entry1 |} =
      Some (entry1, config'').
Proof.
  eexists. eexists.
  eassert (Hfirst : GetCompilationEntryFromCompileCommandEntry false slash_rooted
                      test_config
                      {| directory := "/dir"; file := "/dir/file.cc"; command := "";
                         args := ["goma"; "clang"; "-MF"; "x.d"; "-Ifoo";
                                  "--sysroot=sys"; "-std=c++11"; "-isystem";
                                  "inc"; "file.cc"] |} = Some (_, _))
    by (vm_compute; reflexivity).
  edestruct (reclassify_own_output false slash_rooted
               slash_rooted_absolute slash_rooted_idempotent
               test_config test_config) as [config'' Hsecond].
  5: exact Hfirst.
  - reflexivity.
  - reflexivity.
  - reflexivity.
  - discriminate.
  - intros guard Hguard _. unfold kInjectedFlagGuards in Hguard.
    each_elem Hguard by reflexivity.
  - reflexivity.
  - exists config''. split; [exact Hfirst|exact Hsecond].
Defined.

Lemma split_fused_equivalence_witness :
  "foo" ≠ ""
  ∧ ∃ config',
      (∃ e1, GetCompilationEntryFromCompileCommandEntry true (λ path, path)
               test_config
               {| directory := "/base"; file := "foo.cc"; command := "";
                  args := ["-I"; "foo"] |} = Some (e1, config'))
      ∧ (∃ e2, GetCompilationEntryFromCompileCommandEntry true (λ path, path)
                 test_config
                 {| directory := "/base"; file := "foo.cc"; command := "";
                    args := ["-Ifoo"] |} = Some (e2, config'))
      ∧ "&/base/foo" ∈ angle_dirs config'
      ∧ angle_dirs config' = {[ "&/base/foo" ]} ∪ ∅
      ∧ quote_dirs config' = ∅
      ∧ extra_flags config' = []
      ∧ project_dir config' = "/w/c/s/"
      ∧ resource_dir config' = "/w/resource_dir/".
Proof.
  assert (H : "foo" ≠ "") by discriminate.
  split; [exact H|].
  exact (split_fused_equivalence true (λ path, path) test_config
           "/base" "foo.cc" "" "foo" H).
Defined.

(** C8, counterexample to the statement of the specification: a
    multi-token blacklisted flag read as the value of a split path flag is
    kept, and so is the token after it. *)
Lemma blacklisted_flag_kept_as_path_value :
  CheckFlags "/dir/" "file.cc" ["clang"; "-I"; "-MF"; "x.d"] =
  Some ["clang"; "-working-directory"; "/dir/"; "-xc++"; "-std=c++14";
        "-I"; "-MF"; "x.d"; "-resource-dir=/w/resource_dir/";
        "-Wno-unknown-warning-option"; "-fparse-all-comments"]
  ∧ ∃ produced,
      CheckFlags "/dir/" "file.cc" ["clang"; "-I"; "-MF"; "x.d"] = Some produced
      ∧ "-MF" ∈ produced ∧ "x.d" ∈ produced.
Proof.
  split; [vm_compute; reflexivity|].
  eexists. split; [vm_compute; reflexivity|].
  split; apply list_elem_of_In; simpl; tauto.
Qed.

Lemma multi_token_blacklist_witness :
  drop (compiler_end true (λ path, path)
          (test_entry ["clang"; "-DA"; "-MF"; "x.d"; "-DB"]))
       ["clang"; "-DA"; "-MF"; "x.d"; "-DB"] = ["-DA"] ++ "-MF" :: "x.d" :: ["-DB"]
  ∧ flag_position_after false ["-DA"] = true
  ∧ "-MF" ∈ kBlacklistMulti
  ∧ StartsWithAny "x.d" kInjectedFlagGuards = false
  ∧ ["-DA"] ≠ []
  ∧ GetCompilationEntryFromCompileCommandEntry true (λ path, path) test_config
      (test_entry ["clang"; "-DA"; "-MF"; "x.d"; "-DB"]) =
    classify_from true (λ path, path) test_config
      (test_entry ["clang"; "-DA"; "-MF"; "x.d"; "-DB"])
      (compiler_end true (λ path, path)
         (test_entry ["clang"; "-DA"; "-MF"; "x.d"; "-DB"]))
      (["-DA"] ++ ["-DB"])
  ∧ GetCompilationEntryFromCompileCommandEntry true (λ path, path) test_config
      (test_entry ["clang"; "-DA"; "-MF"; "x.d"; "-DB"]) =
    GetCompilationEntryFromCompileCommandEntry true (λ path, path) test_config
      (test_entry ["clang"; "-DA"; "-DB"]).
Proof.
  assert (H1 : drop (compiler_end true (λ path, path)
                       (test_entry ["clang"; "-DA"; "-MF"; "x.d"; "-DB"]))
                 (args (test_entry ["clang"; "-DA"; "-MF"; "x.d"; "-DB"])) =
               ["-DA"] ++ "-MF" :: "x.d" :: ["-DB"]) by reflexivity.
  assert (H2 : flag_position_after false ["-DA"] = true) by reflexivity.
  assert (H3 : "-MF" ∈ kBlacklistMulti) by apply list_elem_of_here.
  assert (H4 : StartsWithAny "x.d" kInjectedFlagGuards = false) by reflexivity.
  assert (H5 : ["-DA"] ≠ []) by discriminate.
  destruct (multi_token_blacklist true (λ path, path) test_config
              _ _ _ _ _ H1 H2 H3) as (Hloop & _ & Hcut).
  split; [exact H1|]. split; [exact H2|]. split; [exact H3|].
  split; [exact H4|]. split; [exact H5|]. split; [exact Hloop|].
  exact (Hcut H4 (or_introl H5)).
Defined.

(** C10, counterexample to the unqualified statement: a token that starts
    with a multi-token blacklisted flag but is read as the value of a split
    path flag is kept, and so is the token after it. *)
Lemma fused_flag_kept_as_path_value :
  CheckFlags "/dir/" "file.cc" ["clang"; "-I"; "-ofoo"; "bar"] =
  Some ["clang"; "-working-directory"; "/dir/"; "-xc++"; "-std=c++14";
        "-I"; "-ofoo"; "bar"; "-resource-dir=/w/resource_dir/";
        "-Wno-unknown-warning-option"; "-fparse-all-comments"]
  ∧ ∃ produced,
      CheckFlags "/dir/" "file.cc" ["clang"; "-I"; "-ofoo"; "bar"] = Some produced
      ∧ "-ofoo" ∈ produced ∧ "bar" ∈ produced.
Proof.
  split; [vm_compute; reflexivity|].
  eexists. split; [vm_compute; reflexivity|].
  split; apply list_elem_of_In; simpl; tauto.
Qed.

Lemma fused_blacklist_takes_next_witness :
  drop (compiler_end true (λ path, path)
          (test_entry ["clang"; "-MFdeps.d"; "-DKEEP"; "x.cc"]))
       ["clang"; "-MFdeps.d"; "-DKEEP"; "x.cc"] =
    [] ++ ("-MF" +:+ "deps.d") :: "-DKEEP" :: ["x.cc"]
  ∧ "-MF" ∈ kBlacklistMulti
  ∧ "deps.d" ≠ ""
  ∧ StartsWithAny "-DKEEP" kInjectedFlagGuards = false
  ∧ is_command_token true (λ path, path) "&file.cc" "x.cc" = false
  ∧ GetCompilationEntryFromCompileCommandEntry true (λ path, path) test_config
      (test_entry ["clang"; "-MFdeps.d"; "-DKEEP"; "x.cc"]) =
    classify_from true (λ path, path) test_config
      (test_entry ["clang"; "-MFdeps.d"; "-DKEEP"; "x.cc"])
      (compiler_end true (λ path, path)
         (test_entry ["clang"; "-MFdeps.d"; "-DKEEP"; "x.cc"]))
      ([] ++ ["x.cc"])
  ∧ GetCompilationEntryFromCompileCommandEntry true (λ path, path) test_config
      (test_entry ["clang"; "-MFdeps.d"; "-DKEEP"; "x.cc"]) =
    GetCompilationEntryFromCompileCommandEntry true (λ path, path) test_config
      (test_entry ["clang"; "x.cc"]).
Proof.
  assert (H1 : drop (compiler_end true (λ path, path)
                       (test_entry ["clang"; "-MFdeps.d"; "-DKEEP"; "x.cc"]))
                 (args (test_entry ["clang"; "-MFdeps.d"; "-DKEEP"; "x.cc"])) =
               [] ++ ("-MF" +:+ "deps.d") :: "-DKEEP" :: ["x.cc"]) by reflexivity.
  assert (H3 : "-MF" ∈ kBlacklistMulti) by apply list_elem_of_here.
  assert (H4 : "deps.d" ≠ "") by discriminate.
  assert (H5 : StartsWithAny "-DKEEP" kInjectedFlagGuards = false) by reflexivity.
  assert (H6 : ∀ arg, head ["x.cc"] = Some arg →
                 is_command_token true (λ path, path)
                   (NormalizePathWithTestOptOut true (λ path, path)
                      (file (test_entry ["clang"; "-MFdeps.d"; "-DKEEP"; "x.cc"])))
                   arg = false)
    by (intros arg [= <-]; reflexivity).
  destruct (fused_blacklist_takes_next true (λ path, path) test_config
              _ _ _ _ _ _ H1 eq_refl H3 H4) as (Hloop & Hcut).
  split; [exact H1|]. split; [exact H3|]. split; [exact H4|].
  split; [exact H5|]. split; [exact (H6 "x.cc" eq_refl)|]. split; [exact Hloop|].
  exact (Hcut H5 (or_intror H6)).
Defined.

Lemma empty_path_value_is_fatal_witness :
  GetCompilationEntryFromCompileCommandEntry true (λ path, path) test_config
    (test_entry ["clang"; "-DX"; "-I"; ""; "-DY"]) = None
  ∧ GetCompilationEntryFromCompileCommandEntry true (λ path, path) test_config
      (test_entry ["clang"; "-MF"; "-I"; ""; "-I"; "inc"]) ≠ None.
Proof.
  split.
  - apply (empty_path_value_is_fatal true (λ path, path)).
    apply list_elem_of_here.
  - intros Habort.
    apply (empty_path_value_is_fatal true (λ path, path)) in Habort.
    vm_compute in Habort.
    apply elem_of_cons in Habort as [Habort|Habort]; [discriminate|].
    now apply elem_of_nil in Habort.
Defined.

(** * Further properties *)

(** ** The score *)

Lemma common_prefix_length_comm (la lb : list ascii) :
  common_prefix_length la lb = common_prefix_length lb la.
Proof.
  revert lb; induction la as [|x la IH]; intros [|y lb]; simpl; try reflexivity.
  destruct (Ascii.eqb_spec x y) as [->|Hne].
  - now rewrite Ascii.eqb_refl, IH.
  - destruct (Ascii.eqb_spec y x) as [->|_]; [now destruct Hne|reflexivity].
Qed.

Lemma spec_score_comm a b : spec_score a b = spec_score b a.
Proof.
  unfold spec_score, common_suffix_length.
  rewrite (common_prefix_length_comm (chars b)),
    (common_prefix_length_comm (reverse (chars b))).
  lia.
Qed.

(** X1. The score does not depend on the order of its two arguments. *)
Theorem ComputeGuessScore_comm a b :
  ComputeGuessScore a b = ComputeGuessScore b a.
Proof. now rewrite !ComputeGuessScore_to_int, spec_score_comm. Qed.

Lemma common_prefix_length_refl (l : list ascii) :
  common_prefix_length l l = length l.
Proof.
  induction l as [|x l IH]; simpl; [reflexivity|].
  now rewrite Ascii.eqb_refl, IH.
Qed.

Lemma slashes_from_all (l : list ascii) : slashes_from (length l) l = 0.
Proof. unfold slashes_from. now rewrite drop_all. Qed.

Lemma slashes_from_mono (l : list ascii) i : slashes_from i l ≤ slashes_from 0 l.
Proof.
  unfold slashes_from. rewrite drop_0.
  rewrite <- (take_drop i l) at 2. rewrite filter_app, length_app. lia.
Qed.

Lemma ComputeGuessScore_exact a b :
  no_overflow a b → ComputeGuessScore a b = spec_score a b.
Proof.
  intros H. pose proof (no_overflow_range a b H).
  rewrite ComputeGuessScore_to_int. apply to_int_id. lia.
Qed.

Lemma score_between a b :
  no_overflow a b →
  (- (100 * (Z.of_nat (slash_count a) + Z.of_nat (slash_count b)))
   <= ComputeGuessScore a b
   <= 101 * Z.of_nat (String.length a `min` String.length b))%Z.
Proof.
  intros H. rewrite (ComputeGuessScore_exact a b H).
  pose proof (spec_score_bounds a b) as [_ Hupper].
  split; [|exact Hupper]. unfold spec_score.
  pose proof (slashes_from_mono (chars a) (common_prefix_length (chars a) (chars b))).
  pose proof (slashes_from_mono (chars b) (common_prefix_length (chars a) (chars b))).
  unfold slash_count. lia.
Qed.

(** X2. Without overflow the score lies between minus 100 for every ['/']
    of the two strings and 101 for every character of the shorter one. *)
Theorem ComputeGuessScore_bounds a b :
  no_overflow a b →
  (- (100 * (Z.of_nat (slash_count a) + Z.of_nat (slash_count b)))
   <= ComputeGuessScore a b
   <= 101 * Z.of_nat (String.length a `min` String.length b))%Z.
Proof. exact (score_between a b). Qed.

Lemma ComputeGuessScore_bounds_witness :
  no_overflow "/a/b/c/new.cc" "/x/y.cc"
  ∧ (- (100 * (Z.of_nat (slash_count "/a/b/c/new.cc") + Z.of_nat (slash_count "/x/y.cc")))
     <= ComputeGuessScore "/a/b/c/new.cc" "/x/y.cc"
     <= 101 * Z.of_nat (String.length "/a/b/c/new.cc" `min` String.length "/x/y.cc"))%Z.
Proof.
  assert (H : no_overflow "/a/b/c/new.cc" "/x/y.cc")
    by (unfold no_overflow, INT_MAX; simpl; lia).
  split; [exact H|exact (ComputeGuessScore_bounds _ _ H)].
Defined.

(** X3. Without overflow a filename scores 101 per character against
    itself, the upper bound of every score it takes part in. *)
Theorem ComputeGuessScore_self a b :
  no_overflow a a → no_overflow a b →
  ComputeGuessScore a a = (101 * Z.of_nat (String.length a))%Z
  ∧ (ComputeGuessScore a b <= ComputeGuessScore a a)%Z.
Proof.
  intros Haa Hab.
  assert (Hself : ComputeGuessScore a a = (101 * Z.of_nat (String.length a))%Z).
  { rewrite (ComputeGuessScore_exact a a Haa). unfold spec_score, common_suffix_length.
    rewrite !common_prefix_length_refl, slashes_from_all, length_reverse, chars_length.
    lia. }
  split; [exact Hself|]. rewrite Hself.
  pose proof (score_between a b Hab). lia.
Qed.

Lemma ComputeGuessScore_self_witness :
  ComputeGuessScore "/a/b.cc" "/a/b.cc" = 707%Z
  ∧ (ComputeGuessScore "/a/b.cc" "/a/c.cc" <= ComputeGuessScore "/a/b.cc" "/a/b.cc")%Z.
Proof.
  assert (H1 : no_overflow "/a/b.cc" "/a/b.cc")
    by (unfold no_overflow, INT_MAX; simpl; lia).
  assert (H2 : no_overflow "/a/b.cc" "/a/c.cc")
    by (unfold no_overflow, INT_MAX; simpl; lia).
  exact (ComputeGuessScore_self "/a/b.cc" "/a/c.cc" H1 H2).
Defined.

(** ** The filename table of [Project::Load] *)

Lemma index_loop_None es : ∀ i (idx : gmap string nat) f,
  index_loop es i idx !! f = None
  ↔ idx !! f = None ∧ ∀ e, e ∈ es → filename e ≠ f.
Proof.
  induction es as [|e0 es IH]; intros i idx f; cbn [index_loop].
  - split; [intros H; split; [exact H|]|now intros [H _]].
    intros e He. now apply elem_of_nil in He.
  - rewrite IH, lookup_insert_None. split.
    + intros [[Hidx Hne] Hall]. split; [exact Hidx|].
      intros e [->|He]%elem_of_cons; auto.
    + intros [Hidx Hall]. split; [split; [exact Hidx|]|].
      * apply Hall, list_elem_of_here.
      * intros e He. now apply Hall, list_elem_of_further.
Qed.

Lemma index_loop_Some es : ∀ i (idx : gmap string nat) f n,
  index_loop es i idx !! f = Some n
  ↔ (idx !! f = Some n ∧ ∀ e, e ∈ es → filename e ≠ f)
    ∨ ∃ k e, n = i + k ∧ es !! k = Some e ∧ filename e = f
             ∧ ∀ j e', k < j → es !! j = Some e' → filename e' ≠ f.
Proof.
  induction es as [|e0 es IH]; intros i idx f n; cbn [index_loop].
  - split.
    + intros H. left. split; [exact H|]. intros e He. now apply elem_of_nil in He.
    + intros [[H _]|(k & e & _ & Hk & _)]; [exact H|discriminate].
  - rewrite IH. split.
    + intros [[Hins Hall]|(k & e & -> & Hk & Hf & Hlast)].
      * destruct (decide (filename e0 = f)) as [Heq|Hne].
        -- rewrite Heq, lookup_insert_eq in Hins. injection Hins as <-.
           right. exists 0, e0. repeat split; [lia|exact Heq|].
           intros [|j] e' Hj He'; [lia|]. cbn in He'.
           apply Hall. eapply list_elem_of_lookup_2, He'.
        -- rewrite lookup_insert_ne in Hins by exact Hne.
           left. split; [exact Hins|].
           intros e [->|He]%elem_of_cons; auto.
      * right. exists (S k), e. repeat split; [lia|exact Hk|exact Hf|].
        intros [|j] e' Hj He'; [lia|]. apply (Hlast j); [lia|exact He'].
    + intros [[Hidx Hall]|(k & e & -> & Hk & Hf & Hlast)].
      * left. split.
        -- rewrite lookup_insert_ne; [exact Hidx|]. apply Hall, list_elem_of_here.
        -- intros e He. now apply Hall, list_elem_of_further.
      * destruct k as [|k].
        -- cbn in Hk. injection Hk as ->. left. split.
           ++ rewrite Hf, lookup_insert_eq. f_equal. lia.
           ++ intros e' He'. apply list_elem_of_lookup_1 in He' as [j Hj].
              apply (Hlast (S j)); [lia|exact Hj].
        -- right. exists k, e. repeat split; [lia|exact Hk|exact Hf|].
           intros j e' Hj He'. apply (Hlast (S j)); [lia|exact He'].
Qed.

(** X4. The table [Project::Load] builds maps a filename to the position of
    the last entry with that filename, and holds no other filename. *)
Theorem loaded_table es f :
  (∀ k, absolute_path_to_entry_index_ (loaded_project es) !! f = Some k
        ↔ ∃ e, es !! k = Some e ∧ filename e = f
               ∧ ∀ j e', k < j → es !! j = Some e' → filename e' ≠ f)
  ∧ (absolute_path_to_entry_index_ (loaded_project es) !! f = None
     ↔ ∀ e, e ∈ es → filename e ≠ f).
Proof.
  cbn [loaded_project absolute_path_to_entry_index_]. split.
  - intros k. rewrite index_loop_Some. split.
    + intros [[Hempty _]|(k' & e & -> & Hk & Hf & Hlast)]; [done|].
      exists e. auto.
    + intros (e & Hk & Hf & Hlast). right. exists k, e. auto.
  - rewrite index_loop_None. split; [now intros [_ H]|].
    intros H. split; [apply lookup_empty|exact H].
Qed.

(** X5. On a loaded project the lookup of a filename some entry has
    returns the last entry with that filename, as it is stored. *)
Theorem exact_lookup_returns_last es k e :
  es !! k = Some e →
  (∀ j e', k < j → es !! j = Some e' → filename e' ≠ filename e) →
  FindCompilationEntryForFile (loaded_project es) (filename e) = e.
Proof.
  intros Hk Hlast. unfold FindCompilationEntryForFile.
  assert (Htable : absolute_path_to_entry_index_ (loaded_project es)
                     !! filename e = Some k).
  { cbn [loaded_project absolute_path_to_entry_index_].
    apply index_loop_Some. right. exists k, e. auto. }
  rewrite Htable. cbn [loaded_project entries]. now rewrite Hk.
Qed.

Lemma exact_lookup_returns_last_witness :
  FindCompilationEntryForFile (loaded_project inference_test_entries)
    "/a/b/c/baz.cc" =
  {| filename := "/a/b/c/baz.cc"; entry_args := ["x2"]; is_inferred := false |}.
Proof.
  apply (exact_lookup_returns_last inference_test_entries 1
           {| filename := "/a/b/c/baz.cc"; entry_args := ["x2"];
              is_inferred := false |}); [reflexivity|].
  intros [|[|j]] e' Hj He'; [lia|lia|discriminate].
Defined.

(** X6. On a loaded project whose entries are stored as not inferred, the
    answer of the lookup is marked inferred exactly when no entry has the
    queried filename. *)
Theorem inferred_iff_absent es f :
  (∀ e, e ∈ es → is_inferred e = false) →
  is_inferred (FindCompilationEntryForFile (loaded_project es) f) = true
  ↔ ∀ e, e ∈ es → filename e ≠ f.
Proof.
  intros Hstored. unfold FindCompilationEntryForFile.
  destruct (absolute_path_to_entry_index_ (loaded_project es) !! f) as [k|] eqn:Htable.
  - cbn [loaded_project absolute_path_to_entry_index_] in Htable.
    apply index_loop_Some in Htable as [[Hempty _]|(k' & e & -> & Hk & Hf & _)]; [done|].
    cbn [loaded_project entries Nat.add]. rewrite Hk. cbn [default from_option id].
    assert (He : e ∈ es) by (eapply list_elem_of_lookup_2, Hk).
    rewrite (Hstored e He). split; [discriminate|].
    intros Hall. now destruct (Hall e He).
  - cbn [loaded_project absolute_path_to_entry_index_] in Htable.
    apply index_loop_None in Htable as [_ Hall].
    destruct (guess_loop f _ 0 None INT_MIN). cbn [is_inferred]. tauto.
Qed.

Lemma inferred_iff_absent_witness :
  is_inferred (FindCompilationEntryForFile (loaded_project inference_test_entries)
                 "/a/b/c/new.cc") = true.
Proof.
  apply (inferred_iff_absent inference_test_entries "/a/b/c/new.cc").
  - intros e He. unfold inference_test_entries in He.
    each_elem He by reflexivity.
  - intros e He. unfold inference_test_entries in He.
    each_elem He by discriminate.
Defined.

(** ** The layout of the produced args *)

Section ClassifierLayout.

Variable g_disable_normalize_path_for_test : bool.
Variable NormalizePath : string → string.

Abbreviation Normalize :=
  (NormalizePathWithTestOptOut g_disable_normalize_path_for_test NormalizePath).
Abbreviation cleanup :=
  (cleanup_maybe_relative_path g_disable_normalize_path_for_test NormalizePath).
Abbreviation loop :=
  (args_loop g_disable_normalize_path_for_test NormalizePath).
Abbreviation path_loop :=
  (path_args_loop g_disable_normalize_path_for_test NormalizePath).
Abbreviation Classify :=
  (GetCompilationEntryFromCompileCommandEntry
     g_disable_normalize_path_for_test NormalizePath).
Abbreviation compiler_end' :=
  (compiler_end g_disable_normalize_path_for_test NormalizePath).
Abbreviation classify_from' :=
  (classify_from g_disable_normalize_path_for_test NormalizePath).

Lemma path_loop_emitted e arg st arg' st' :
  path_loop e kPathArgs arg st = Some (arg', st') → emitted_from arg' arg.
Proof.
  rewrite path_loop_kind.
  destruct (path_kind kPathArgs arg) as [|flag_type|] eqn:Hkind;
    [intros [= <- _]; now left| |intros [= <- _]; now left].
  destruct (cleanup e _) as [path|]; [|discriminate].
  destruct (StartsWithAny arg kNormalizePathArgs) eqn:Hnorm;
    [|intros [= <- _]; now left].
  assert (Hstart : StartsWith arg "--sysroot=" = true).
  { unfold StartsWithAny, kNormalizePathArgs in Hnorm. cbn [existsb] in Hnorm.
    now rewrite orb_false_r in Hnorm. }
  rewrite (sysroot_only arg flag_type Hstart Hkind).
  intros [= <- _]. right. split; [exact Hstart|apply StartsWith_app].
Qed.

(** The loop only appends to [result.args], and what it appends follows
    the order of the tokens it reads. *)
Lemma loop_appends e l : ∀ st st',
  loop e l st = Some st' →
  ∃ emitted kept,
    result_args st' = result_args st ++ emitted
    ∧ sublist kept l ∧ Forall2 emitted_from emitted kept.
Proof.
  induction l as [|arg rest IH IHtail] using list_tail_ind; intros st st'.
  { intros [= <-]. exists [], []. rewrite app_nil_r.
    repeat split; [apply sublist_nil|apply Forall2_nil_2]. }
  rewrite loop_cons.
  destruct (next_flag_is_path st).
  { destruct (cleanup e arg) as [path|]; [|discriminate].
    intros (emitted & kept & Hargs & Hsub & Hfrom)%IH.
    exists (arg :: emitted), (arg :: kept). split; [|split].
    - rewrite Hargs. cbn [push_back value_state result_args]. now rewrite <- app_assoc.
    - now apply sublist_skip.
    - apply Forall2_cons_2; [now left|exact Hfrom]. }
  destruct (StartsWithAny arg kBlacklistMulti).
  { intros (emitted & kept & Hargs & Hsub & Hfrom)%IHtail.
    exists emitted, kept. split; [exact Hargs|]. split; [|exact Hfrom].
    apply sublist_cons. destruct rest; [exact Hsub|now apply sublist_cons]. }
  destruct (StartsWithAny arg kBlacklist).
  { intros (emitted & kept & Hargs & Hsub & Hfrom)%IH.
    exists emitted, kept. split; [exact Hargs|]. split; [|exact Hfrom].
    now apply sublist_cons. }
  destruct (path_loop e kPathArgs arg st) as [[arg' st1]|] eqn:Hpath; [|discriminate].
  intros (emitted & kept & Hargs & Hsub & Hfrom)%IH.
  exists (arg' :: emitted), (arg :: kept). split; [|split].
  - rewrite Hargs. cbn [push_back result_args].
    rewrite (path_loop_result_args _ _ _ _ _ _ _ Hpath). now rewrite <- app_assoc.
  - now apply sublist_skip.
  - apply Forall2_cons_2; [exact (path_loop_emitted _ _ _ _ _ Hpath)|exact Hfrom].
Qed.

Lemma initial_args_head e i :
  ∃ injected, initial_args e i = executable_of e i :: injected.
Proof.
  unfold initial_args, executable_of.
  destruct (0 <? i), (AnyStartsWith (args e) "-working-directory"),
    (SourceFileType (file e)) as [t|];
    try destruct (AnyStartsWith (args e) "-x");
    try destruct (AnyStartsWith (args e) "-std=");
    try destruct (String.eqb t "c"); try destruct (String.eqb t "c++");
    cbn [negb app]; eexists; reflexivity.
Qed.

(** The part after the loop: the extra flags as they are, then some of the
    three appended flags in their order; afterwards each guard finds its
    flag. *)
Lemma final_args_layout config0 l :
  ∃ appended,
    final_args config0 l = l ++ extra_flags config0 ++ appended
    ∧ sublist appended (kAppendedFlags config0)
    ∧ AnyStartsWith (final_args config0 l) "-resource-dir" = true
    ∧ AnyStartsWith (final_args config0 l) "-Wno-unknown-warning-option" = true
    ∧ AnyStartsWith (final_args config0 l) "-fparse-all-comments" = true.
Proof.
  unfold final_args, kAppendedFlags.
  destruct (resource_dir_flag_plain (resource_dir config0)) as (_ & _ & Hr3).
  destruct (guarded_push (l ++ extra_flags config0) _ _ Hr3) as (a1 & -> & Ha1 & H1).
  destruct (guarded_push ((l ++ extra_flags config0) ++ a1)
              "-Wno-unknown-warning-option" "-Wno-unknown-warning-option" eq_refl)
    as (a2 & -> & Ha2 & H2).
  destruct (guarded_push (((l ++ extra_flags config0) ++ a1) ++ a2)
              "-fparse-all-comments" "-fparse-all-comments" eq_refl)
    as (a3 & -> & Ha3 & H3).
  exists (a1 ++ a2 ++ a3). split; [now rewrite <- !app_assoc|]. split; [|split; [|split]].
  - destruct Ha1 as [-> | ->], Ha2 as [-> | ->], Ha3 as [-> | ->]; cbn [app];
      repeat first [apply sublist_nil | apply sublist_skip | apply sublist_cons].
  - now rewrite (AnyStartsWith_app _ a3), (AnyStartsWith_app _ a2), H1.
  - now rewrite (AnyStartsWith_app _ a3), H2.
  - exact H3.
Qed.

Lemma is_command_token_no_dash f arg :
  is_command_token g_disable_normalize_path_for_test NormalizePath f arg = true →
  StartsWith arg "-" = false.
Proof.
  unfold is_command_token. destruct arg as [|c arg]; [reflexivity|].
  cbn [char_at String.get default from_option id StartsWith].
  destruct (Ascii.eqb c "-"); [discriminate|reflexivity].
Qed.

Lemma executable_no_dash e :
  StartsWith (executable_of e (compiler_end' e)) "-" = false.
Proof.
  unfold executable_of.
  destruct (Nat.ltb_spec 0 (compiler_end' e)) as [Hpos|_]; [|reflexivity].
  pose proof (strip_loop_bounds g_disable_normalize_path_for_test NormalizePath
                (Normalize (file e)) (args e) 0) as [_ Hle].
  fold (compiler_end' e) in Hle.
  destruct (lookup_lt_is_Some_2 (args e) (compiler_end' e - 1)) as [arg Harg]; [lia|].
  rewrite Harg. cbn [default from_option id].
  apply (is_command_token_no_dash (Normalize (file e))).
  apply (strip_loop_passed _ _ _ _ 0 _ _ Harg). fold (compiler_end' e). lia.
Qed.

(** What a returning run of the classifier is made of. *)
Lemma classify_layout config0 e entry config' :
  Classify config0 e = Some (entry, config') →
  ∃ st emitted kept appended,
    loop e (drop (compiler_end' e) (args e))
      (loop_entry_state config0 (initial_args e (compiler_end' e))) = Some st
    ∧ config' = config st
    ∧ entry_args entry = final_args (config st) (result_args st)
    ∧ entry_args entry =
      initial_args e (compiler_end' e) ++ emitted ++ extra_flags config0 ++ appended
    ∧ sublist kept (drop (compiler_end' e) (args e))
    ∧ Forall2 emitted_from emitted kept
    ∧ sublist appended (kAppendedFlags config0).
Proof.
  unfold GetCompilationEntryFromCompileCommandEntry. cbv zeta. unfold classify_from.
  destruct (loop e _ _) as [st|] eqn:Hloop; [|discriminate].
  intros [= <- <-]. cbn [entry_args].
  destruct (loop_appends _ _ _ _ Hloop) as (emitted & kept & Hargs & Hsub & Hfrom).
  destruct (loop_config_fields _ _ _ _ _ _ Hloop) as [Hextra Hresource].
  cbn [loop_entry_state config result_args] in Hargs, Hextra, Hresource.
  destruct (final_args_layout (config st) (result_args st))
    as (appended & Hfinal & Happ & _).
  exists st, emitted, kept, appended. repeat split; try assumption.
  - rewrite Hfinal, Hargs, Hextra. now rewrite <- !app_assoc.
  - unfold kAppendedFlags in *. now rewrite <- Hresource.
Qed.

(** X7. The produced args begin with the executable: the last token of the
    compiler command the scan went over, or ["clang++"] when it went over
    none; it never begins with ['-']. *)
Theorem args_begin_with_executable config0 e entry config' :
  Classify config0 e = Some (entry, config') →
  ∃ rest,
    entry_args entry = executable_of e (compiler_end' e) :: rest
    ∧ StartsWith (executable_of e (compiler_end' e)) "-" = false.
Proof.
  intros (st & emitted & kept & appended & _ & _ & _ & Hargs & _)%classify_layout.
  destruct (initial_args_head e (compiler_end' e)) as [injected Hinit].
  rewrite Hinit in Hargs. eexists. split; [exact Hargs|apply executable_no_dash].
Qed.

(** X8. The produced args always carry a resource-directory flag, the
    warning suppression and the parse-all-comments flag. *)
Theorem args_carry_appended_flags config0 e entry config' :
  Classify config0 e = Some (entry, config') →
  AnyStartsWith (entry_args entry) "-resource-dir" = true
  ∧ AnyStartsWith (entry_args entry) "-Wno-unknown-warning-option" = true
  ∧ AnyStartsWith (entry_args entry) "-fparse-all-comments" = true.
Proof.
  intros (st & emitted & kept & appended & _ & _ & -> & _)%classify_layout.
  destruct (final_args_layout (config st) (result_args st)) as (a & _ & _ & H).
  exact H.
Qed.

(** X9. The produced args are the part built before the loop, then tokens
    of the raw arguments after the compiler command in their order, each as
    it is or as the rewritten spelling of a fused [--sysroot=], then the
    extra flags of the accumulator as they are, then some of the three
    appended flags in their order. *)
Theorem args_layout config0 e entry config' :
  Classify config0 e = Some (entry, config') →
  ∃ emitted kept appended,
    entry_args entry =
    initial_args e (compiler_end' e) ++ emitted ++ extra_flags config0 ++ appended
    ∧ sublist kept (drop (compiler_end' e) (args e))
    ∧ Forall2 emitted_from emitted kept
    ∧ sublist appended (kAppendedFlags config0).
Proof.
  intros (st & emitted & kept & appended & _ & _ & _ & H)%classify_layout.
  now exists emitted, kept, appended.
Qed.

End ClassifierLayout.

(** ** The accumulator *)

Section ClassifierAccumulator.

Variable g_disable_normalize_path_for_test : bool.
Variable NormalizePath : string → string.

Abbreviation Normalize :=
  (NormalizePathWithTestOptOut g_disable_normalize_path_for_test NormalizePath).
Abbreviation cleanup :=
  (cleanup_maybe_relative_path g_disable_normalize_path_for_test NormalizePath).
Abbreviation loop :=
  (args_loop g_disable_normalize_path_for_test NormalizePath).
Abbreviation path_loop :=
  (path_args_loop g_disable_normalize_path_for_test NormalizePath).
Abbreviation Classify :=
  (GetCompilationEntryFromCompileCommandEntry
     g_disable_normalize_path_for_test NormalizePath).
Abbreviation compiler_end' :=
  (compiler_end g_disable_normalize_path_for_test NormalizePath).
Abbreviation classify_from' :=
  (classify_from g_disable_normalize_path_for_test NormalizePath).

Lemma grown_by_refl made dirs : grown_by made dirs dirs.
Proof. split; [done|auto]. Qed.

Lemma grown_by_trans made a b c :
  grown_by made a b → grown_by made b c → grown_by made a c.
Proof.
  intros [Hab Hb] [Hbc Hc]. split; [set_solver|].
  intros p [Hp|Hp]%Hc; [now apply Hb|now right].
Qed.

Lemma grown_by_insert (made : string → Prop) p dirs :
  made p → grown_by made dirs ({[ p ]} ∪ dirs).
Proof.
  intros Hp. split; [set_solver|].
  intros q [->%elem_of_singleton|Hq]%elem_of_union; auto.
Qed.

Lemma insert_dirs_grown (made : string → Prop) q a p c :
  made p →
  project_dir (insert_dirs q a p c) = project_dir c
  ∧ grown_by made (quote_dirs c) (quote_dirs (insert_dirs q a p c))
  ∧ grown_by made (angle_dirs c) (angle_dirs (insert_dirs q a p c)).
Proof.
  intros Hp.
  destruct q, a; cbn; (split; [reflexivity|]); split;
    first [apply grown_by_refl | now apply grown_by_insert].
Qed.

Lemma path_loop_grown e arg st arg' st' :
  path_loop e kPathArgs arg st = Some (arg', st') →
  project_dir (config st') = project_dir (config st)
  ∧ grown_by (λ p, ∃ v, cleanup e v = Some p)
      (quote_dirs (config st)) (quote_dirs (config st'))
  ∧ grown_by (λ p, ∃ v, cleanup e v = Some p)
      (angle_dirs (config st)) (angle_dirs (config st')).
Proof.
  rewrite path_loop_kind.
  destruct (path_kind kPathArgs arg) as [|flag_type|].
  - intros [= _ <-]. cbn. auto using grown_by_refl.
  - destruct (cleanup e _) as [path|] eqn:Hpath; [|discriminate].
    intros [= _ <-]. cbn [fused_state config].
    apply insert_dirs_grown. eauto.
  - intros [= _ <-]. auto using grown_by_refl.
Qed.

(** The loop keeps the project directory and only adds cleaned-up paths
    to the two sets of include directories. *)
Lemma loop_grown e l : ∀ st st',
  loop e l st = Some st' →
  project_dir (config st') = project_dir (config st)
  ∧ grown_by (λ p, ∃ v, cleanup e v = Some p)
      (quote_dirs (config st)) (quote_dirs (config st'))
  ∧ grown_by (λ p, ∃ v, cleanup e v = Some p)
      (angle_dirs (config st)) (angle_dirs (config st')).
Proof.
  induction l as [|arg rest IH IHtail] using list_tail_ind; intros st st'.
  { intros [= <-]. auto using grown_by_refl. }
  rewrite loop_cons.
  destruct (next_flag_is_path st).
  { destruct (cleanup e arg) as [path|] eqn:Hpath; [|discriminate].
    intros (Hdir & Hquote & Hangle)%IH.
    cbn [push_back value_state config] in Hdir, Hquote, Hangle.
    destruct (insert_dirs_grown (λ p, ∃ v, cleanup e v = Some p)
                (add_next_flag_to_quote_dirs st) (add_next_flag_to_angle_dirs st)
                path (config st)) as (Hdir1 & Hquote1 & Hangle1); [eauto|].
    split; [congruence|]. split; eapply grown_by_trans; eassumption. }
  destruct (StartsWithAny arg kBlacklistMulti); [apply IHtail|].
  destruct (StartsWithAny arg kBlacklist); [apply IH|].
  destruct (path_loop e kPathArgs arg st) as [[arg' st1]|] eqn:Hpath; [|discriminate].
  intros (Hdir & Hquote & Hangle)%IH.
  cbn [push_back config] in Hdir, Hquote, Hangle.
  destruct (path_loop_grown _ _ _ _ _ Hpath) as (Hdir1 & Hquote1 & Hangle1).
  split; [congruence|]. split; eapply grown_by_trans; eassumption.
Qed.

(** X10. A run of the classifier that returns leaves the extra flags, the
    project directory and the resource directory of the accumulator as
    they were; it removes nothing from the two sets of include
    directories, and every directory it adds to them is the cleaned-up
    form of some path value. *)
Theorem accumulator_only_grows config0 e entry config' :
  Classify config0 e = Some (entry, config') →
  extra_flags config' = extra_flags config0
  ∧ project_dir config' = project_dir config0
  ∧ resource_dir config' = resource_dir config0
  ∧ grown_by (λ p, ∃ v, cleanup e v = Some p)
      (quote_dirs config0) (quote_dirs config')
  ∧ grown_by (λ p, ∃ v, cleanup e v = Some p)
      (angle_dirs config0) (angle_dirs config').
Proof.
  unfold GetCompilationEntryFromCompileCommandEntry. cbv zeta. unfold classify_from.
  destruct (loop e _ _) as [st|] eqn:Hloop; [|discriminate].
  intros [= _ <-].
  destruct (loop_config_fields _ _ _ _ _ _ Hloop) as [Hextra Hresource].
  destruct (loop_grown _ _ _ _ Hloop) as (Hdir & Hquote & Hangle).
  auto.
Qed.

Lemma StartsWith_trans value middle start :
  StartsWith value middle = true → StartsWith middle start = true →
  StartsWith value start = true.
Proof.
  revert value middle; induction start as [|c start IH]; intros value middle;
    [reflexivity|].
  destruct middle as [|m middle]; [discriminate|].
  destruct value as [|v value]; [discriminate|]. cbn [StartsWith].
  intros [Hv Hvalue]%andb_true_iff [Hm Hmiddle]%andb_true_iff.
  apply Ascii.eqb_eq in Hv as ->. rewrite Hm. now apply (IH value middle).
Qed.

Lemma StartsWithAny_trans value middle startings :
  StartsWith value middle = true → StartsWithAny middle startings = true →
  StartsWithAny value startings = true.
Proof.
  intros Hvalue (start & Hin & Hstart)%existsb_exists.
  apply existsb_exists. exists start. split; [exact Hin|].
  now apply (StartsWith_trans _ middle).
Qed.

Lemma insert_dirs_none p c : insert_dirs false false p c = c.
Proof. reflexivity. Qed.

(** Over tokens none of which starts with an include flag, the loop
    leaves the accumulator alone. *)
Lemma loop_no_include e l : ∀ st st',
  Forall (λ arg, ShouldAddToQuoteIncludes arg = false
                 ∧ ShouldAddToAngleIncludes arg = false) l →
  add_next_flag_to_quote_dirs st = false →
  add_next_flag_to_angle_dirs st = false →
  loop e l st = Some st' → config st' = config st.
Proof.
  induction l as [|arg rest IH IHtail] using list_tail_ind;
    intros st st' Hall Hq Ha.
  { now intros [= <-]. }
  apply Forall_cons in Hall as [[Hquote Hangle] Hall].
  assert (Htail : Forall (λ arg, ShouldAddToQuoteIncludes arg = false
                                 ∧ ShouldAddToAngleIncludes arg = false) (tail rest)).
  { destruct rest; [exact Hall|]. now apply Forall_cons in Hall as [_ Hall]. }
  rewrite loop_cons.
  destruct (next_flag_is_path st).
  { destruct (cleanup e arg) as [path|]; [|discriminate].
    intros H. apply IH in H; [|exact Hall|reflexivity..].
    rewrite H. cbn [push_back value_state config]. now rewrite Hq, Ha. }
  destruct (StartsWithAny arg kBlacklistMulti); [now apply IHtail|].
  destruct (StartsWithAny arg kBlacklist); [now apply IH|].
  rewrite path_loop_kind.
  destruct (path_kind kPathArgs arg) as [|flag_type|] eqn:Hkind.
  - intros H. apply IH in H; [exact H|exact Hall|exact Hquote|exact Hangle].
  - destruct (cleanup e _) as [path|]; [|discriminate].
    destruct (path_kind_fused _ _ _ Hkind) as (_ & Harg & _).
    assert (Hstart : StartsWith arg flag_type = true).
    { rewrite Harg. apply StartsWith_app. }
    assert (Hfq : ShouldAddToQuoteIncludes flag_type = false).
    { apply not_true_is_false. intros H.
      pose proof (StartsWithAny_trans _ _ _ Hstart H) as H'.
      unfold ShouldAddToQuoteIncludes in Hquote. congruence. }
    assert (Hfa : ShouldAddToAngleIncludes flag_type = false).
    { apply not_true_is_false. intros H.
      pose proof (StartsWithAny_trans _ _ _ Hstart H) as H'.
      unfold ShouldAddToAngleIncludes in Hangle. congruence. }
    intros H. apply IH in H; [|exact Hall|exact Hq|exact Ha].
    rewrite H. cbn [push_back fused_state config]. now rewrite Hfq, Hfa.
  - intros H. now apply IH in H.
Qed.

(** X11. When no raw argument after the compiler command starts with
    [-iquote], [-I] or [-isystem], a run of the classifier that returns
    leaves the accumulator exactly as it was. *)
Theorem no_include_flag_no_change config0 e entry config' :
  Forall (λ arg, ShouldAddToQuoteIncludes arg = false
                 ∧ ShouldAddToAngleIncludes arg = false)
    (drop (compiler_end' e) (args e)) →
  Classify config0 e = Some (entry, config') →
  config' = config0.
Proof.
  intros Hall.
  unfold GetCompilationEntryFromCompileCommandEntry. cbv zeta. unfold classify_from.
  destruct (loop e _ _) as [st|] eqn:Hloop; [|discriminate].
  intros [= _ <-].
  now apply loop_no_include in Hloop.
Qed.

Lemma loop_drops_single e pre flag rest st :
  next_flag_is_path st = false →
  flag_position_after false pre = true →
  StartsWithAny flag kBlacklistMulti = false →
  StartsWithAny flag kBlacklist = true →
  loop e (pre ++ flag :: rest) st = loop e (pre ++ rest) st.
Proof.
  intros Hnext Hpos Hmulti Hflag.
  rewrite !loop_app by now rewrite Hnext.
  destruct (loop e pre st) as [st'|] eqn:Hpre; [|reflexivity].
  cbn [mbind option_bind].
  assert (Hnext' : next_flag_is_path st' = false).
  { eapply loop_flag_position; [|exact Hpre]. now rewrite Hnext. }
  now rewrite loop_cons, Hnext', Hmulti, Hflag.
Qed.


(** X12. The single-token blacklist is matched by prefix: a token read in
    flag position that starts with one of its flags, and with none of the
    multi-token ones, is dropped alone: the loop goes on as over the other
    tokens, the executable and the flags injected before the loop being
    those of the original arguments. The run is the run on the raw
    arguments without the token whenever the scan over the compiler
    command stops where it did: the token is not the first one after the
    compiler command, or the token after it stops the scan, or there is
    none. *)
Theorem single_token_blacklist config0 e pre flag rest :
  drop (compiler_end' e) (args e) = pre ++ flag :: rest →
  flag_position_after false pre = true →
  StartsWithAny flag kBlacklistMulti = false →
  StartsWithAny flag kBlacklist = true →
  Classify config0 e = classify_from' config0 e (compiler_end' e) (pre ++ rest)
  ∧ ((pre ≠ []
      ∨ ∀ arg, head rest = Some arg →
               is_command_token g_disable_normalize_path_for_test NormalizePath
                 (Normalize (file e)) arg = false) →
     Classify config0 e =
     Classify config0
       (with_args e (take (compiler_end' e) (args e) ++ pre ++ rest))).
Proof.
  intros Hraw Hpos Hmulti Hflag.
  assert (Hdrop : Classify config0 e =
                  classify_from' config0 e (compiler_end' e) (pre ++ rest)).
  { unfold GetCompilationEntryFromCompileCommandEntry. cbv zeta.
    rewrite Hraw. unfold classify_from.
    now rewrite loop_drops_single. }
  split; [exact Hdrop|].
  intros Hscan. rewrite Hdrop. symmetry.
  apply (classify_cut _ _ config0 e pre [flag] rest); [exact Hraw| |exact Hscan].
  apply Forall_cons. split; [|now apply Forall_nil].
  apply blacklisted_not_guard. now right.
Qed.


End ClassifierAccumulator.

(** ** File types and the compiler command *)

Lemma append_assoc s t u : (s +:+ t) +:+ u = s +:+ t +:+ u.
Proof.
  induction s as [|c s IH]; [reflexivity|].
  rewrite !append_String. now rewrite IH.
Qed.

Lemma rev_app_append s t u :
  String.rev_app (s +:+ t) u = String.rev_app t (String.rev_app s u).
Proof.
  revert u; induction s as [|c s IH]; intros u; [reflexivity|].
  rewrite append_String. cbn [String.rev_app]. apply IH.
Qed.

Lemma rev_app_rev t : ∀ u, String.rev_app t u = String.rev t +:+ u.
Proof.
  unfold String.rev. induction t as [|c t IH]; intros u; [reflexivity|].
  cbn [String.rev_app]. rewrite (IH (String c u)), (IH (String c "")).
  rewrite append_assoc. now rewrite append_String.
Qed.

Lemma rev_append s t : String.rev (s +:+ t) = String.rev t +:+ String.rev s.
Proof. unfold String.rev at 1. now rewrite rev_app_append, rev_app_rev. Qed.

(** X14. The file type is read off the extension, case-sensitively and
    whatever comes before it: [.c] is C, [.cpp] and [.cc] are C++, [.mm] is
    Objective-C++, [.m] is Objective-C; a header [.h] has no file type. *)
Theorem SourceFileType_by_extension stem :
  SourceFileType (stem +:+ ".c") = Some "c"
  ∧ SourceFileType (stem +:+ ".cpp") = Some "c++"
  ∧ SourceFileType (stem +:+ ".cc") = Some "c++"
  ∧ SourceFileType (stem +:+ ".mm") = Some "objective-c++"
  ∧ SourceFileType (stem +:+ ".m") = Some "objective-c"
  ∧ SourceFileType (stem +:+ ".h") = None
  ∧ SourceFileType (stem +:+ ".C") = None.
Proof.
  unfold SourceFileType, EndsWith. rewrite !rev_append.
  repeat split; reflexivity.
Qed.

Section CompilerCommand.

Variable g_disable_normalize_path_for_test : bool.
Variable NormalizePath : string → string.

Abbreviation Normalize :=
  (NormalizePathWithTestOptOut g_disable_normalize_path_for_test NormalizePath).
Abbreviation Classify :=
  (GetCompilationEntryFromCompileCommandEntry
     g_disable_normalize_path_for_test NormalizePath).
Abbreviation compiler_end' :=
  (compiler_end g_disable_normalize_path_for_test NormalizePath).
Abbreviation classify_from' :=
  (classify_from g_disable_normalize_path_for_test NormalizePath).
Abbreviation strip_loop' :=
  (strip_loop g_disable_normalize_path_for_test NormalizePath).
Abbreviation is_command_token' :=
  (is_command_token g_disable_normalize_path_for_test NormalizePath).

(** X15. The scan over the compiler command stops at the first token that
    starts with ['-'], names the source file, or looks like a source file;
    of the tokens before it only the last one is kept, as the executable,
    and ["clang++"] stands in when there is none. The argument loop starts
    at the token the scan stopped at. *)
Theorem compiler_command_stripped e pre rest :
  args e = pre ++ rest →
  Forall (λ arg, is_command_token' (Normalize (file e)) arg = true) pre →
  (∀ arg, head rest = Some arg →
          is_command_token' (Normalize (file e)) arg = false) →
  compiler_end' e = length pre
  ∧ executable_of e (compiler_end' e) = default "clang++" (last pre)
  ∧ ∀ config0, Classify config0 e = classify_from' config0 e (length pre) rest.
Proof.
  intros Hargs Hpre Hrest.
  assert (Hend : compiler_end' e = length pre).
  { unfold compiler_end. rewrite Hargs. now rewrite strip_loop_stops. }
  split; [exact Hend|]. split.
  - rewrite Hend. unfold executable_of.
    destruct pre as [|arg pre _] using rev_ind; [reflexivity|].
    rewrite last_snoc, length_app. cbn [length default from_option id].
    replace (0 <? length pre + 1) with true by (symmetry; apply Nat.ltb_lt; lia).
    rewrite Hargs, <- app_assoc.
    replace (length pre + 1 - 1) with (length pre + 0) by lia.
    now rewrite lookup_app_r, Nat.add_0_r, Nat.sub_diag by lia.
  - intros config0. unfold GetCompilationEntryFromCompileCommandEntry. cbv zeta.
    rewrite Hend, Hargs. now rewrite drop_app_length.
Qed.

End CompilerCommand.

(** ** The loaders *)

Lemma path_values_elem l : ∀ b v, v ∈ path_values b l → v ∈ l.
Proof.
  induction l as [|arg rest IH IHtail] using list_tail_ind; intros b v.
  { cbn. intros H. now apply elem_of_nil in H. }
  rewrite path_values_cons. destruct b.
  { intros [->|H]%elem_of_cons; [apply list_elem_of_here|].
    apply list_elem_of_further. now apply (IH false). }
  destruct (StartsWithAny arg kBlacklistMulti).
  { intros H%IHtail. apply list_elem_of_further.
    destruct rest; [exact H|now apply list_elem_of_further]. }
  destruct (StartsWithAny arg kBlacklist);
    intros H%IH; now apply list_elem_of_further.
Qed.

Section LoaderProperties.

Variable g_disable_normalize_path_for_test : bool.
Variable NormalizePath : string → string.
Variable TrimInPlace : string → string.
Variable ReadLinesWithEnding : string → list string.
Variable GetFilesInFolder : string → list string.
Variable FileExists : string → bool.
Variable clang_CompilationDatabase_fromDirectory :
  string → option (list CXCompileCommand).

Abbreviation Normalize :=
  (NormalizePathWithTestOptOut g_disable_normalize_path_for_test NormalizePath).
Abbreviation loop :=
  (args_loop g_disable_normalize_path_for_test NormalizePath).
Abbreviation Classify :=
  (GetCompilationEntryFromCompileCommandEntry
     g_disable_normalize_path_for_test NormalizePath).
Abbreviation compiler_end' :=
  (compiler_end g_disable_normalize_path_for_test NormalizePath).
Abbreviation lines_loop := (cquery_lines_loop TrimInPlace).
Abbreviation files_loop :=
  (listing_files_loop g_disable_normalize_path_for_test NormalizePath).
Abbreviation Listing :=
  (LoadFromDirectoryListing g_disable_normalize_path_for_test NormalizePath
     TrimInPlace ReadLinesWithEnding GetFilesInFolder).
Abbreviation db_loop :=
  (commands_loop g_disable_normalize_path_for_test NormalizePath).
Abbreviation LoadEntries :=
  (LoadCompilationEntriesFromDirectory g_disable_normalize_path_for_test
     NormalizePath TrimInPlace ReadLinesWithEnding GetFilesInFolder FileExists
     clang_CompilationDatabase_fromDirectory).
Abbreviation Load' :=
  (Load g_disable_normalize_path_for_test NormalizePath TrimInPlace
     ReadLinesWithEnding GetFilesInFolder FileExists
     clang_CompilationDatabase_fromDirectory).

(** The classifier returns when no raw argument is empty. *)
Lemma classify_nonempty_args config0 e :
  "" ∉ args e → is_Some (Classify config0 e).
Proof.
  intros Hargs.
  unfold GetCompilationEntryFromCompileCommandEntry. cbv zeta. unfold classify_from.
  destruct (loop e _ _) as [st|] eqn:Hloop; [eauto|].
  apply loop_None in Hloop. apply path_values_elem in Hloop.
  destruct Hargs. apply list_elem_of_lookup in Hloop as [k Hk].
  rewrite lookup_drop in Hk. now apply list_elem_of_lookup_2 in Hk.
Qed.

Lemma classify_entry config0 e entry config' :
  Classify config0 e = Some (entry, config') →
  filename entry = Normalize (file e) ∧ is_inferred entry = false.
Proof.
  unfold GetCompilationEntryFromCompileCommandEntry. cbv zeta. unfold classify_from.
  destruct (loop e _ _) as [st|]; [|discriminate].
  now intros [= <- _].
Qed.

(** The flags of the [.cquery] file: its trimmed lines without the empty
    ones and the comments, in their order. *)
Lemma lines_loop_spec lines : ∀ args0,
  lines_loop lines args0 =
  args0 ++ filter (λ line, line ≠ "" ∧ StartsWith line "#" = false)
             (TrimInPlace <$> lines).
Proof.
  induction lines as [|line lines IH]; intros args0; cbn [cquery_lines_loop fmap list_fmap].
  { now rewrite app_nil_r. }
  rewrite filter_cons.
  destruct (String.eqb_spec (TrimInPlace line) "") as [Heq|Hne]; cbn [orb].
  { rewrite IH. destruct (decide _) as [[Hd _]|_]; [now destruct Hd|reflexivity]. }
  destruct (StartsWith (TrimInPlace line) "#") eqn:Hstart.
  { rewrite IH. destruct (decide _) as [[_ Hd]|_]; [discriminate|reflexivity]. }
  rewrite IH, <- app_assoc. destruct (decide _) as [_|Hd]; [reflexivity|].
  now destruct Hd.
Qed.

Lemma SourceFileType_nonempty path : is_Some (SourceFileType path) → path ≠ "".
Proof. intros [t Ht] ->. discriminate. Qed.

Lemma files_loop_spec args0 files : ∀ config0 result,
  "" ∉ args0 →
  ∃ entries0 config',
    files_loop args0 files config0 result = Some (result ++ entries0, config')
    ∧ filename <$> entries0 =
      Normalize <$> filter (λ file0, is_Some (SourceFileType file0)) files
    ∧ Forall (λ entry, is_inferred entry = false) entries0.
Proof.
  induction files as [|file0 files IH]; intros config0 result Hargs;
    cbn [listing_files_loop].
  { exists [], config0. rewrite app_nil_r. repeat split. now apply Forall_nil. }
  rewrite filter_cons.
  destruct (SourceFileType file0) as [t|] eqn:Htype.
  - destruct (decide _) as [Hsome|Hnone]; [|destruct Hnone; eauto].
    assert (Hfile : file0 ≠ "").
    { apply SourceFileType_nonempty. rewrite Htype. eauto. }
    destruct (classify_nonempty_args config0
                {| directory := project_dir config0; file := file0;
                   command := ""; args := args0 ++ [file0] |})
      as [[entry config1] Hclassify].
    { cbn [args]. intros [H|H]%elem_of_app; [now apply Hargs|].
      apply list_elem_of_singleton in H. now apply Hfile. }
    rewrite Hclassify.
    destruct (classify_entry _ _ _ _ Hclassify) as [Hname Hinferred].
    destruct (IH config1 (result ++ [entry]) Hargs)
      as (entries0 & config' & -> & Hnames & Hall).
    exists (entry :: entries0), config'. split; [now rewrite <- app_assoc|].
    split; [cbn [fmap list_fmap]; now rewrite <- Hnames, Hname|].
    apply Forall_cons. auto.
  - destruct (decide _) as [[t Ht]|_]; [discriminate|]. now apply IH.
Qed.

Lemma Listing_spec config0 :
  ∃ entries0 config',
    Listing config0 = Some (entries0, config')
    ∧ filename <$> entries0 =
      Normalize <$> filter (λ file0, is_Some (SourceFileType file0))
                      (GetFilesInFolder (project_dir config0))
    ∧ Forall (λ entry, is_inferred entry = false) entries0.
Proof.
  unfold LoadFromDirectoryListing. cbv zeta.
  destruct (files_loop_spec
              (lines_loop (ReadLinesWithEnding (project_dir config0 +:+ "/.cquery")) [])
              (GetFilesInFolder (project_dir config0)) config0 [])
    as (entries0 & config' & Hloop & Hnames & Hall).
  { rewrite lines_loop_spec. cbn [app].
    intros [[H _] _]%list_elem_of_filter. now apply H. }
  exists entries0, config'. rewrite Hloop. auto.
Qed.

(** X16. Loading from a directory listing always returns: no line of the
    [.cquery] file and no source file can trip the assertion of the
    classifier. It yields one entry per listed file that has a file type,
    in the order of the listing, under the normalised name of the file, and
    none of them is marked as inferred. *)
Theorem LoadFromDirectoryListing_entries config0 :
  ∃ entries0 config',
    Listing config0 = Some (entries0, config')
    ∧ filename <$> entries0 =
      Normalize <$> filter (λ file0, is_Some (SourceFileType file0))
                      (GetFilesInFolder (project_dir config0))
    ∧ Forall (λ entry, is_inferred entry = false) entries0.
Proof. apply Listing_spec. Qed.

Lemma db_loop_spec commands : ∀ config0 result entries1 config',
  db_loop commands config0 result = Some (entries1, config') →
  ∃ entries0,
    entries1 = result ++ entries0
    ∧ filename <$> entries0 =
      (λ cx_command,
         Normalize (Normalize (absolute_filename (getDirectory cx_command)
                                 (getFilename cx_command)))) <$> commands
    ∧ Forall (λ entry, is_inferred entry = false) entries0.
Proof.
  induction commands as [|cx_command commands IH];
    intros config0 result entries1 config'; cbn [commands_loop].
  { intros [= <- _]. exists []. rewrite app_nil_r. repeat split. now apply Forall_nil. }
  cbv zeta.
  destruct (Classify config0 _) as [[entry config1]|] eqn:Hclassify; [|discriminate].
  destruct (classify_entry _ _ _ _ Hclassify) as [Hname Hinferred].
  cbn [file] in Hname.
  intros (entries0 & -> & Hnames & Hall)%IH.
  exists (entry :: entries0). split; [now rewrite <- app_assoc|].
  split; [cbn [fmap list_fmap]; now rewrite Hnames, Hname|].
  apply Forall_cons. auto.
Qed.

(** X17. Without a [.cquery] file in the project directory and with a
    compilation database that loads, a load that returns yields one entry
    per command of the database, in the order of the database, none marked
    as inferred; its name is the command's filename, taken relative to the
    command's directory unless it starts with ['/'], and normalised twice.
    The database is looked up in the project directory when no directory
    is given for it. *)
Theorem database_entries config0 opt_compilation_db_dir commands entries0 config' :
  FileExists (project_dir config0 +:+ "/.cquery") = false →
  clang_CompilationDatabase_fromDirectory
    (if String.eqb opt_compilation_db_dir "" then project_dir config0
     else opt_compilation_db_dir) = Some commands →
  LoadEntries config0 opt_compilation_db_dir = Some (entries0, config') →
  filename <$> entries0 =
  (λ cx_command,
     Normalize (Normalize (absolute_filename (getDirectory cx_command)
                             (getFilename cx_command)))) <$> commands
  ∧ Forall (λ entry, is_inferred entry = false) entries0.
Proof.
  intros Hfile Hdb. unfold LoadCompilationEntriesFromDirectory.
  rewrite Hfile. cbv zeta. rewrite Hdb.
  intros (entries1 & -> & Hnames & Hall)%db_loop_spec. auto.
Qed.

(** X18. With a [.cquery] file in the project directory, or with a
    compilation database that cannot be loaded, the load is the one from
    the directory listing, whatever the database holds, and it returns. *)
Theorem listing_takes_precedence config0 opt_compilation_db_dir :
  FileExists (project_dir config0 +:+ "/.cquery") = true
  ∨ clang_CompilationDatabase_fromDirectory
      (if String.eqb opt_compilation_db_dir "" then project_dir config0
       else opt_compilation_db_dir) = None →
  LoadEntries config0 opt_compilation_db_dir =
  LoadFromDirectoryListing g_disable_normalize_path_for_test NormalizePath
    TrimInPlace ReadLinesWithEnding GetFilesInFolder config0
  ∧ is_Some (LoadEntries config0 opt_compilation_db_dir).
Proof.
  intros Hmode.
  assert (Heq : LoadEntries config0 opt_compilation_db_dir = Listing config0).
  { unfold LoadCompilationEntriesFromDirectory.
    destruct (FileExists _); [reflexivity|]. cbv zeta.
    destruct Hmode as [Hfile|Hdb]; [discriminate|]. now rewrite Hdb. }
  split; [exact Heq|]. rewrite Heq.
  destruct (Listing_spec config0) as (entries0 & config' & -> & _). eauto.
Qed.

Lemma LoadEntries_not_inferred config0 opt_compilation_db_dir entries0 config' :
  LoadEntries config0 opt_compilation_db_dir = Some (entries0, config') →
  Forall (λ entry, is_inferred entry = false) entries0.
Proof.
  assert (Hlisting : Listing config0 = Some (entries0, config') →
                     Forall (λ entry, is_inferred entry = false) entries0).
  { destruct (Listing_spec config0)
      as (entries1 & config1 & -> & _ & Hall). now intros [= <- _]. }
  unfold LoadCompilationEntriesFromDirectory.
  destruct (FileExists _); [exact Hlisting|]. cbv zeta.
  destruct (clang_CompilationDatabase_fromDirectory _) as [commands|];
    [|exact Hlisting].
  now intros (entries1 & -> & _ & Hall)%db_loop_spec.
Qed.

(** X19. After a load that returns, looking up the name of any loaded
    entry finds a loaded entry of that name: the lookup does not fall back
    to inference, and its result is not marked as inferred. *)
Theorem load_then_find extra_flags0 opt_compilation_db_dir root_directory
    resource_directory p e :
  Load' extra_flags0 opt_compilation_db_dir root_directory resource_directory
  = Some p →
  e ∈ entries p →
  FindCompilationEntryForFile p (filename e) ∈ entries p
  ∧ filename (FindCompilationEntryForFile p (filename e)) = filename e
  ∧ is_inferred (FindCompilationEntryForFile p (filename e)) = false.
Proof.
  unfold Load. cbv zeta.
  destruct (LoadEntries _ _) as [[entries0 config']|] eqn:Hload; [|discriminate].
  intros [= <-] He. cbn [loaded_project entries] in He.
  apply LoadEntries_not_inferred in Hload.
  unfold FindCompilationEntryForFile.
  destruct (absolute_path_to_entry_index_ (loaded_project entries0) !! filename e)
    as [k|] eqn:Htable; cbn [loaded_project absolute_path_to_entry_index_] in Htable.
  - apply index_loop_Some in Htable as [[Hempty _]|(k' & e' & -> & Hk & Hf & _)];
      [done|].
    cbn [loaded_project entries Nat.add]. rewrite Hk. cbn [default from_option id].
    assert (He' : e' ∈ entries0) by (eapply list_elem_of_lookup_2, Hk).
    split; [exact He'|]. split; [exact Hf|].
    rewrite Forall_forall in Hload. now apply Hload.
  - apply index_loop_None in Htable as [_ Hall]. now destruct (Hall e He).
Qed.

End LoaderProperties.

(** ** Filtered iteration *)

Lemma filtered_files_loop_spec IsMatch l : ∀ i calls,
  ∃ new,
    filtered_files_loop IsMatch l i calls = calls ++ new
    ∧ (∀ k e, (k, e) ∈ new
              ↔ ∃ j, k = i + j ∧ l !! j = Some e ∧ IsMatch (filename e) = true)
    ∧ StronglySorted (λ a b : nat * Entry, a.1 < b.1) new.
Proof.
  induction l as [|e0 l IH]; intros i calls; cbn [filtered_files_loop].
  { exists []. rewrite app_nil_r. split; [reflexivity|]. split; [|constructor].
    intros k e. split; [intros H; now apply elem_of_nil in H|].
    now intros (j & _ & Hj & _). }
  destruct (IsMatch (filename e0)) eqn:Hmatch.
  - destruct (IH (S i) (calls ++ [(i, e0)])) as (new & -> & Hmem & Hsorted).
    exists ((i, e0) :: new). split; [now rewrite <- app_assoc|]. split.
    + intros k e. rewrite elem_of_cons, Hmem. split.
      * intros [[= -> ->]|(j & -> & Hj & He)].
        -- exists 0. rewrite Nat.add_0_r. auto.
        -- exists (S j). split; [lia|auto].
      * intros ([|j] & -> & Hj & He).
        -- left. cbn in Hj. injection Hj as <-. now rewrite Nat.add_0_r.
        -- right. exists j. split; [lia|auto].
    + constructor; [exact Hsorted|]. apply Forall_forall. intros [k e] Hin.
      apply Hmem in Hin as (j & -> & _). cbn. lia.
  - destruct (IH (S i) calls) as (new & -> & Hmem & Hsorted).
    exists new. split; [reflexivity|]. split; [|exact Hsorted].
    intros k e. rewrite Hmem. split.
    + intros (j & -> & Hj & He). exists (S j). split; [lia|auto].
    + intros ([|j] & -> & Hj & He).
      * cbn in Hj. injection Hj as <-. congruence.
      * exists j. split; [lia|auto].
Qed.

(** X20. The filtered iteration calls the action exactly for the entries
    whose filename the matcher accepts, each with its own position in
    [entries], once, and in increasing order of position. *)
Theorem ForAllFilteredFiles_calls IsMatch p :
  (∀ i e, (i, e) ∈ ForAllFilteredFiles IsMatch p
          ↔ entries p !! i = Some e ∧ IsMatch (filename e) = true)
  ∧ StronglySorted (λ a b : nat * Entry, a.1 < b.1) (ForAllFilteredFiles IsMatch p).
Proof.
  unfold ForAllFilteredFiles.
  destruct (filtered_files_loop_spec IsMatch (entries p) 0 [])
    as (new & -> & Hmem & Hsorted).
  cbn [app]. split; [|exact Hsorted].
  intros i e. rewrite Hmem. split.
  - now intros (j & -> & Hj & He).
  - intros [Hi He]. now exists i.
Qed.

(** ** Splitting and diffing (test.cc) *)

Lemma string_find_Some str d delimiter : ∀ pos k,
  string_find str (String d delimiter) pos = Some k →
  pos ≤ k ∧ k < String.length str ∧ String.get k str = Some d.
Proof.
  induction str as [|c str IH]; intros pos k.
  { destruct pos; discriminate. }
  destruct pos as [|pos]; cbn [string_find String.length].
  - cbn [StartsWith]. destruct (Ascii.eqb_spec c d) as [->|Hne]; cbn [andb].
    + destruct (StartsWith str delimiter).
      * intros [= <-]. repeat split; lia.
      * destruct (string_find str _ 0) as [k'|] eqn:Hfind; [|discriminate].
        intros [= <-]. apply IH in Hfind as (_ & Hlt & Hget).
        repeat split; [lia..|exact Hget].
    + destruct (string_find str _ 0) as [k'|] eqn:Hfind; [|discriminate].
      intros [= <-]. apply IH in Hfind as (_ & Hlt & Hget).
      repeat split; [lia..|exact Hget].
  - destruct (string_find str _ pos) as [k'|] eqn:Hfind; [|discriminate].
    intros [= <-]. apply IH in Hfind as (Hle & Hlt & Hget).
    repeat split; [lia..|exact Hget].
Qed.

Lemma string_find_empty str : ∀ pos,
  string_find str "" pos = if pos <=? String.length str then Some pos else None.
Proof.
  induction str as [|c str IH]; intros [|pos]; cbn [string_find StartsWith];
    try reflexivity.
  rewrite IH. cbn [String.length]. change (S pos <=? S ?n) with (pos <=? n).
  now destruct (pos <=? String.length str).
Qed.

Lemma string_find_first str d : ∀ pos k j,
  string_find str (String d "") pos = Some k →
  pos ≤ j → j < k → String.get j str ≠ Some d.
Proof.
  induction str as [|c str IH]; intros pos k j.
  { destruct pos; discriminate. }
  destruct pos as [|pos]; cbn [string_find StartsWith].
  - destruct (Ascii.eqb_spec c d) as [->|Hne]; cbn [andb]; [intros [= <-]; lia|].
    destruct (string_find str _ 0) as [k'|] eqn:Hfind; [|discriminate].
    intros [= <-] _ Hlt. destruct j as [|j]; [cbn; congruence|].
    cbn [String.get]. apply (IH 0 k'); [exact Hfind|lia..].
  - destruct (string_find str _ pos) as [k'|] eqn:Hfind; [|discriminate].
    intros [= <-] Hle Hlt. destruct j as [|j]; [lia|].
    cbn [String.get]. apply (IH pos k'); [exact Hfind|lia..].
Qed.

Lemma string_find_None str d : ∀ pos j,
  string_find str (String d "") pos = None →
  pos ≤ j → String.get j str ≠ Some d.
Proof.
  induction str as [|c str IH]; intros pos j.
  { intros _ _. now destruct j. }
  destruct pos as [|pos]; cbn [string_find StartsWith].
  - destruct (Ascii.eqb_spec c d) as [->|Hne]; cbn [andb]; [discriminate|].
    destruct (string_find str _ 0) as [k'|] eqn:Hfind; [discriminate|].
    intros _ _. destruct j as [|j]; [cbn; congruence|].
    cbn [String.get]. apply (IH 0); [exact Hfind|lia].
  - destruct (string_find str _ pos) as [k'|] eqn:Hfind; [discriminate|].
    intros _ Hle. destruct j as [|j]; [lia|].
    cbn [String.get]. apply (IH pos); [exact Hfind|lia].
Qed.

Lemma substr_0 str : substr str 0 = str.
Proof. now destruct str. Qed.

Lemma substr_cut str : ∀ pos k d,
  pos ≤ k → String.get k str = Some d →
  substr str pos =
  String.substring pos (k - pos) str +:+ String d (substr str (k + 1)).
Proof.
  induction str as [|c str IH]; intros pos k d Hle Hget; [now destruct k|].
  destruct pos as [|pos].
  - rewrite substr_0, Nat.sub_0_r. destruct k as [|k].
    + cbn in Hget. injection Hget as ->. cbn. now rewrite substr_0.
    + cbn [String.get] in Hget. cbn [String.substring Nat.add substr].
      rewrite append_String. f_equal.
      rewrite <- (substr_0 str) at 1. rewrite (IH 0 k d) by (lia || exact Hget).
      now rewrite Nat.sub_0_r.
  - destruct k as [|k]; [lia|]. cbn [String.get] in Hget.
    cbn [String.substring Nat.add substr Nat.sub].
    apply IH; [lia|exact Hget].
Qed.

Lemma chars_substr str : ∀ pos, chars (substr str pos) = drop pos (chars str).
Proof.
  induction str as [|c str IH]; intros [|pos]; cbn [substr chars drop];
    try reflexivity.
  apply IH.
Qed.

Lemma chars_substring str : ∀ pos n,
  chars (String.substring pos n str) = take n (drop pos (chars str)).
Proof.
  induction str as [|c str IH]; intros [|pos] [|n];
    cbn [String.substring chars drop take]; try reflexivity.
  - f_equal. now rewrite IH.
  - apply IH.
  - apply IH.
Qed.

(** The loop for a delimiter that is not empty, from any reachable
    [prev]. *)
Lemma split_loop_spec str d delimiter : ∀ fuel prev strings,
  prev ≤ String.length str → String.length str - prev < fuel →
  ∃ pieces,
    split_loop fuel str (String d delimiter) prev strings =
    Some (Returned (strings ++ pieces))
    ∧ pieces ≠ []
    ∧ join (String d "") pieces = substr str prev
    ∧ (delimiter = "" → Forall (λ piece, d ∉ chars piece) pieces).
Proof.
  induction fuel as [|fuel IH]; intros prev strings Hprev Hfuel; [lia|].
  cbn [split_loop].
  destruct (string_find str _ prev) as [pos|] eqn:Hfind.
  - destruct (string_find_Some _ _ _ _ _ Hfind) as (Hle & Hlt & Hget).
    destruct (IH (pos + 1)
                (strings ++ [String.substring prev (pos - prev) str]))
      as (pieces & -> & Hne & Hjoin & Hfree); [lia..|].
    exists (String.substring prev (pos - prev) str :: pieces).
    split; [now rewrite <- app_assoc|]. split; [discriminate|]. split.
    + destruct pieces as [|piece pieces]; [done|].
      change (join (String d "") (?p :: piece :: pieces))
        with (p +:+ String d "" +:+ join (String d "") (piece :: pieces)).
      rewrite Hjoin. now rewrite (substr_cut str prev pos d Hle Hget).
    + intros ->. apply Forall_cons. split; [|now apply Hfree].
      rewrite chars_substring.
      intros (j & Hj & Hlt')%elem_of_take. rewrite lookup_drop, chars_lookup in Hj.
      now apply (string_find_first _ _ _ _ (prev + j) Hfind) in Hj; [|lia..].
  - apply Nat.leb_le in Hprev as Hle. rewrite Hle.
    exists [substr str prev]. split; [reflexivity|]. split; [discriminate|].
    split; [reflexivity|].
    intros ->. apply Forall_cons. split; [|now apply Forall_nil].
    rewrite chars_substr.
    intros (j & Hj)%list_elem_of_lookup. rewrite lookup_drop, chars_lookup in Hj.
    now apply (string_find_None _ _ _ (prev + j) Hfind) in Hj; [|lia].
Qed.

(** X21. For a delimiter that is not empty, [split_string] returns at
    least one piece, and the pieces joined by the first character of the
    delimiter are the string again: every piece after the first begins
    right after the first character of an occurrence, so it keeps the rest
    of a longer delimiter. *)
Theorem split_string_join str d delimiter :
  ∃ pieces,
    split_string str (String d delimiter) = Some (Returned pieces)
    ∧ pieces ≠ []
    ∧ join (String d "") pieces = str.
Proof.
  destruct (split_loop_spec str d delimiter (String.length str + 2) 0 [])
    as (pieces & Hsplit & Hne & Hjoin & _); [lia..|].
  exists pieces. rewrite substr_0 in Hjoin. auto.
Qed.

(** X22. For a delimiter of one character, no piece [split_string]
    returns contains the delimiter. *)
Theorem split_string_pieces str d :
  ∃ pieces,
    split_string str (String d "") = Some (Returned pieces)
    ∧ Forall (λ piece, d ∉ chars piece) pieces.
Proof.
  destruct (split_loop_spec str d "" (String.length str + 2) 0 [])
    as (pieces & Hsplit & _ & _ & Hfree); [lia..|].
  exists pieces. auto.
Qed.

Lemma split_loop_empty str : ∀ fuel prev strings,
  prev ≤ String.length str + 1 → String.length str + 1 - prev < fuel →
  split_loop fuel str "" prev strings = Some Thrown.
Proof.
  induction fuel as [|fuel IH]; intros prev strings Hprev Hfuel; [lia|].
  cbn [split_loop]. rewrite string_find_empty.
  destruct (Nat.leb_spec prev (String.length str)) as [Hle|Hgt]; [|reflexivity].
  apply IH; lia.
Qed.

(** X23. For the empty delimiter [split_string] never returns: the search
    finds the empty delimiter at every position up to the end, [prev] ends
    one past the size of the string, and the last [substr] throws. *)
Theorem split_string_empty_delimiter str : split_string str "" = Some Thrown.
Proof. apply split_loop_empty; lia. Qed.

Lemma split_string_newline str :
  ∃ pieces,
    split_string str (String "010" "") = Some (Returned pieces)
    ∧ join (String "010" "") pieces = str.
Proof.
  destruct (split_loop_spec str "010" "" (String.length str + 2) 0 [])
    as (pieces & Hsplit & _ & Hjoin & _); [lia..|].
  exists pieces. rewrite substr_0 in Hjoin. auto.
Qed.

Lemma differing_line_equal output i : differing_line output output i = [].
Proof.
  unfold differing_line. destruct (output !! i) as [line|]; [|reflexivity].
  now rewrite String.eqb_refl.
Qed.

Lemma concat_nil_inv {A} (ls : list (list A)) :
  concat ls = [] → Forall (λ l, l = []) ls.
Proof.
  induction ls as [|l ls IH]; [intros _; now apply Forall_nil|].
  cbn [concat]. intros [-> Hls]%app_eq_nil. apply Forall_cons. auto.
Qed.

Lemma diff_output_nil actual_output expected_output :
  diff_output actual_output expected_output = []
  ↔ actual_output = expected_output.
Proof.
  unfold diff_output. cbv zeta. split.
  - intros [Hlines [Hactual Hexpected]%app_eq_nil]%app_eq_nil.
    destruct (Nat.ltb_spec (length actual_output `min` length expected_output)
                (length actual_output)) as [|Ha]; [discriminate|].
    destruct (Nat.ltb_spec (length actual_output `min` length expected_output)
                (length expected_output)) as [|He]; [discriminate|].
    assert (Hlen : length actual_output = length expected_output) by lia.
    apply concat_nil_inv in Hlines. rewrite Forall_fmap, Forall_forall in Hlines.
    apply list_eq_same_length with (length actual_output); [lia|lia|].
    intros i actual_line expected_line Hi Hal Hel.
    assert (Hin : i ∈ seq 0 (length actual_output `min` length expected_output)).
    { apply elem_of_seq. lia. }
    apply Hlines in Hin. cbn [compose] in Hin. unfold differing_line in Hin.
    rewrite Hal, Hel in Hin.
    destruct (String.eqb_spec actual_line expected_line); [assumption|discriminate].
  - intros <-. rewrite Nat.min_id, Nat.ltb_irrefl, !app_nil_r.
    induction (seq 0 (length actual_output)) as [|i l IH]; [reflexivity|].
    cbn [fmap list_fmap concat]. now rewrite differing_line_equal.
Qed.

(** X24. From the split renderings on, [DiffDocuments] writes nothing
    exactly when the two renderings have the same lines. *)
Theorem diff_output_silent actual_output expected_output :
  diff_output actual_output expected_output = []
  ↔ actual_output = expected_output.
Proof. apply diff_output_nil. Qed.

Section DiffProperties.

Variable Document : Type.
Variable ToString : Document → string.

(** X25. [DiffDocuments] always returns, and it writes nothing exactly
    when the two documents have the same rendering. *)
Theorem DiffDocuments_silent expected actual :
  ∃ output,
    DiffDocuments Document ToString expected actual = Some (Returned output)
    ∧ (output = [] ↔ ToString expected = ToString actual).
Proof.
  unfold DiffDocuments.
  destruct (split_string_newline (ToString actual))
    as (actual_output & Hsplit_actual & Hactual).
  destruct (split_string_newline (ToString expected))
    as (expected_output & Hsplit_expected & Hexpected).
  rewrite Hsplit_actual, Hsplit_expected.
  eexists. split; [reflexivity|].
  rewrite diff_output_nil. split.
  - intros Heq. rewrite <- Hactual, <- Hexpected. now rewrite Heq.
  - intros Heq. rewrite Heq in Hsplit_expected. congruence.
Qed.

End DiffProperties.

(** ** Examples *)

Lemma args_begin_with_executable_witness :
  GetCompilationEntryFromCompileCommandEntry true (λ path, path) extra_flag_config
    (test_entry ["ccache"; "clang"; "-DA"; "-c"; "--sysroot=sys"; "file.cc"]) =
  Some ({| filename := "&file.cc";
           entry_args :=
             ["clang"; "-working-directory"; "/dir/"; "-xc++"; "-std=c++14";
              "-DA"; "--sysroot=&/dir//sys"; "file.cc"; "-DEXTRA";
              "-resource-dir=/w/resource_dir/";
              "-Wno-unknown-warning-option"; "-fparse-all-comments"];
           is_inferred := false |}, extra_flag_config)
  ∧ ∃ rest,
      ["clang"; "-working-directory"; "/dir/"; "-xc++"; "-std=c++14";
       "-DA"; "--sysroot=&/dir//sys"; "file.cc"; "-DEXTRA";
       "-resource-dir=/w/resource_dir/";
       "-Wno-unknown-warning-option"; "-fparse-all-comments"] = "clang" :: rest
      ∧ StartsWith "clang" "-" = false.
Proof.
  assert (H : GetCompilationEntryFromCompileCommandEntry true (λ path, path)
                extra_flag_config
                (test_entry ["ccache"; "clang"; "-DA"; "-c"; "--sysroot=sys"; "file.cc"]) =
              Some ({| filename := "&file.cc";
                       entry_args :=
                         ["clang"; "-working-directory"; "/dir/"; "-xc++"; "-std=c++14";
                          "-DA"; "--sysroot=&/dir//sys"; "file.cc"; "-DEXTRA";
                          "-resource-dir=/w/resource_dir/";
                          "-Wno-unknown-warning-option"; "-fparse-all-comments"];
                       is_inferred := false |}, extra_flag_config))
    by (vm_compute; reflexivity).
  split; [exact H|].
  exact (args_begin_with_executable true (λ path, path) _ _ _ _ H).
Defined.

Lemma args_carry_appended_flags_witness :
  GetCompilationEntryFromCompileCommandEntry true (λ path, path) test_config
    (test_entry ["clang"; "-fparse-all-comments"; "-DA"]) =
  Some ({| filename := "&file.cc";
           entry_args :=
             ["clang"; "-working-directory"; "/dir/"; "-xc++"; "-std=c++14";
              "-fparse-all-comments"; "-DA"; "-resource-dir=/w/resource_dir/";
              "-Wno-unknown-warning-option"];
           is_inferred := false |}, test_config)
  ∧ AnyStartsWith
      ["clang"; "-working-directory"; "/dir/"; "-xc++"; "-std=c++14";
       "-fparse-all-comments"; "-DA"; "-resource-dir=/w/resource_dir/";
       "-Wno-unknown-warning-option"] "-resource-dir" = true
  ∧ AnyStartsWith
      ["clang"; "-working-directory"; "/dir/"; "-xc++"; "-std=c++14";
       "-fparse-all-comments"; "-DA"; "-resource-dir=/w/resource_dir/";
       "-Wno-unknown-warning-option"] "-Wno-unknown-warning-option" = true
  ∧ AnyStartsWith
      ["clang"; "-working-directory"; "/dir/"; "-xc++"; "-std=c++14";
       "-fparse-all-comments"; "-DA"; "-resource-dir=/w/resource_dir/";
       "-Wno-unknown-warning-option"] "-fparse-all-comments" = true.
Proof.
  assert (H : GetCompilationEntryFromCompileCommandEntry true (λ path, path)
                test_config (test_entry ["clang"; "-fparse-all-comments"; "-DA"]) =
              Some ({| filename := "&file.cc";
                       entry_args :=
                         ["clang"; "-working-directory"; "/dir/"; "-xc++"; "-std=c++14";
                          "-fparse-all-comments"; "-DA";
                          "-resource-dir=/w/resource_dir/";
                          "-Wno-unknown-warning-option"];
                       is_inferred := false |}, test_config))
    by (vm_compute; reflexivity).
  split; [exact H|].
  exact (args_carry_appended_flags true (λ path, path) _ _ _ _ H).
Defined.

Lemma args_layout_witness :
  GetCompilationEntryFromCompileCommandEntry true (λ path, path) extra_flag_config
    (test_entry ["clang"; "-DA"; "-o"; "out"; "--sysroot=sys"; "-MD"]) =
  Some ({| filename := "&file.cc";
           entry_args :=
             ["clang"; "-working-directory"; "/dir/"; "-xc++"; "-std=c++14";
              "-DA"; "--sysroot=&/dir//sys"; "-DEXTRA";
              "-resource-dir=/w/resource_dir/";
              "-Wno-unknown-warning-option"; "-fparse-all-comments"];
           is_inferred := false |}, extra_flag_config)
  ∧ ∃ emitted kept appended,
      ["clang"; "-working-directory"; "/dir/"; "-xc++"; "-std=c++14";
       "-DA"; "--sysroot=&/dir//sys"; "-DEXTRA";
       "-resource-dir=/w/resource_dir/";
       "-Wno-unknown-warning-option"; "-fparse-all-comments"] =
      ["clang"; "-working-directory"; "/dir/"; "-xc++"; "-std=c++14"]
      ++ emitted ++ ["-DEXTRA"] ++ appended
      ∧ sublist kept ["-DA"; "-o"; "out"; "--sysroot=sys"; "-MD"]
      ∧ Forall2 emitted_from emitted kept
      ∧ sublist appended (kAppendedFlags extra_flag_config).
Proof.
  assert (H : GetCompilationEntryFromCompileCommandEntry true (λ path, path)
                extra_flag_config
                (test_entry ["clang"; "-DA"; "-o"; "out"; "--sysroot=sys"; "-MD"]) =
              Some ({| filename := "&file.cc";
                       entry_args :=
                         ["clang"; "-working-directory"; "/dir/"; "-xc++"; "-std=c++14";
                          "-DA"; "--sysroot=&/dir//sys"; "-DEXTRA";
                          "-resource-dir=/w/resource_dir/";
                          "-Wno-unknown-warning-option"; "-fparse-all-comments"];
                       is_inferred := false |}, extra_flag_config))
    by (vm_compute; reflexivity).
  split; [exact H|].
  exact (args_layout true (λ path, path) _ _ _ _ H).
Defined.

Lemma accumulator_only_grows_witness :
  GetCompilationEntryFromCompileCommandEntry true (λ path, path) extra_flag_config
    (test_entry ["clang"; "-Iinc"; "-iquote"; "q"; "-DA"]) =
  Some ({| filename := "&file.cc";
           entry_args :=
             ["clang"; "-working-directory"; "/dir/"; "-xc++"; "-std=c++14";
              "-Iinc"; "-iquote"; "q"; "-DA"; "-DEXTRA";
              "-resource-dir=/w/resource_dir/";
              "-Wno-unknown-warning-option"; "-fparse-all-comments"];
           is_inferred := false |},
        {| quote_dirs := {[ "&/dir//q" ]}; angle_dirs := {[ "&/dir//inc" ]};
           extra_flags := ["-DEXTRA"]; project_dir := "/w/c/s/";
           resource_dir := "/w/resource_dir/" |})
  ∧ grown_by
      (λ p, ∃ v, cleanup_maybe_relative_path true (λ path, path)
                   (test_entry ["clang"; "-Iinc"; "-iquote"; "q"; "-DA"]) v = Some p)
      ∅ {[ "&/dir//q" ]}
  ∧ grown_by
      (λ p, ∃ v, cleanup_maybe_relative_path true (λ path, path)
                   (test_entry ["clang"; "-Iinc"; "-iquote"; "q"; "-DA"]) v = Some p)
      ∅ {[ "&/dir//inc" ]}.
Proof.
  assert (H : GetCompilationEntryFromCompileCommandEntry true (λ path, path)
                extra_flag_config
                (test_entry ["clang"; "-Iinc"; "-iquote"; "q"; "-DA"]) =
              Some ({| filename := "&file.cc";
                       entry_args :=
                         ["clang"; "-working-directory"; "/dir/"; "-xc++"; "-std=c++14";
                          "-Iinc"; "-iquote"; "q"; "-DA"; "-DEXTRA";
                          "-resource-dir=/w/resource_dir/";
                          "-Wno-unknown-warning-option"; "-fparse-all-comments"];
                       is_inferred := false |},
                    {| quote_dirs := {[ "&/dir//q" ]};
                       angle_dirs := {[ "&/dir//inc" ]};
                       extra_flags := ["-DEXTRA"]; project_dir := "/w/c/s/";
                       resource_dir := "/w/resource_dir/" |}))
    by (vm_compute; reflexivity).
  split; [exact H|].
  exact (proj2 (proj2 (proj2
           (accumulator_only_grows true (λ path, path) _ _ _ _ H)))).
Defined.

Lemma no_include_flag_no_change_witness :
  Forall (λ arg, ShouldAddToQuoteIncludes arg = false
                 ∧ ShouldAddToAngleIncludes arg = false)
    ["-DA"; "-isysroot"; "sdk"; "-include"; "pre.h"]
  ∧ GetCompilationEntryFromCompileCommandEntry true (λ path, path) test_config
      (test_entry ["clang"; "-DA"; "-isysroot"; "sdk"; "-include"; "pre.h"]) =
    Some ({| filename := "&file.cc";
             entry_args :=
               ["clang"; "-working-directory"; "/dir/"; "-xc++"; "-std=c++14";
                "-DA"; "-isysroot"; "sdk"; "-include"; "pre.h";
                "-resource-dir=/w/resource_dir/";
                "-Wno-unknown-warning-option"; "-fparse-all-comments"];
             is_inferred := false |}, test_config)
  ∧ test_config = test_config.
Proof.
  assert (H1 : Forall (λ arg, ShouldAddToQuoteIncludes arg = false
                              ∧ ShouldAddToAngleIncludes arg = false)
                 (drop (compiler_end true (λ path, path)
                          (test_entry ["clang"; "-DA"; "-isysroot"; "sdk";
                                       "-include"; "pre.h"]))
                    (args (test_entry ["clang"; "-DA"; "-isysroot"; "sdk";
                                       "-include"; "pre.h"]))))
    by (vm_compute; repeat constructor).
  assert (H2 : GetCompilationEntryFromCompileCommandEntry true (λ path, path)
                 test_config
                 (test_entry ["clang"; "-DA"; "-isysroot"; "sdk"; "-include"; "pre.h"]) =
               Some ({| filename := "&file.cc";
                        entry_args :=
                          ["clang"; "-working-directory"; "/dir/"; "-xc++"; "-std=c++14";
                           "-DA"; "-isysroot"; "sdk"; "-include"; "pre.h";
                           "-resource-dir=/w/resource_dir/";
                           "-Wno-unknown-warning-option"; "-fparse-all-comments"];
                        is_inferred := false |}, test_config))
    by (vm_compute; reflexivity).
  split; [exact H1|]. split; [exact H2|].
  exact (no_include_flag_no_change true (λ path, path) _ _ _ _ H1 H2).
Defined.

Lemma single_token_blacklist_witness :
  drop (compiler_end true (λ path, path)
          (test_entry ["clang"; "-DA"; "-cxx-isystem"; "inc"; "-DB"]))
       ["clang"; "-DA"; "-cxx-isystem"; "inc"; "-DB"] =
    ["-DA"] ++ "-cxx-isystem" :: ["inc"; "-DB"]
  ∧ flag_position_after false ["-DA"] = true
  ∧ StartsWithAny "-cxx-isystem" kBlacklistMulti = false
  ∧ StartsWithAny "-cxx-isystem" kBlacklist = true
  ∧ ["-DA"] ≠ []
  ∧ GetCompilationEntryFromCompileCommandEntry true (λ path, path) test_config
      (test_entry ["clang"; "-DA"; "-cxx-isystem"; "inc"; "-DB"]) =
    classify_from true (λ path, path) test_config
      (test_entry ["clang"; "-DA"; "-cxx-isystem"; "inc"; "-DB"])
      (compiler_end true (λ path, path)
         (test_entry ["clang"; "-DA"; "-cxx-isystem"; "inc"; "-DB"]))
      (["-DA"] ++ ["inc"; "-DB"])
  ∧ GetCompilationEntryFromCompileCommandEntry true (λ path, path) test_config
      (test_entry ["clang"; "-DA"; "-cxx-isystem"; "inc"; "-DB"]) =
    GetCompilationEntryFromCompileCommandEntry true (λ path, path) test_config
      (test_entry ["clang"; "-DA"; "inc"; "-DB"]).
Proof.
  assert (H1 : drop (compiler_end true (λ path, path)
                       (test_entry ["clang"; "-DA"; "-cxx-isystem"; "inc"; "-DB"]))
                 (args (test_entry ["clang"; "-DA"; "-cxx-isystem"; "inc"; "-DB"])) =
               ["-DA"] ++ "-cxx-isystem" :: ["inc"; "-DB"]) by reflexivity.
  assert (H2 : flag_position_after false ["-DA"] = true) by reflexivity.
  assert (H3 : StartsWithAny "-cxx-isystem" kBlacklistMulti = false) by reflexivity.
  assert (H4 : StartsWithAny "-cxx-isystem" kBlacklist = true) by reflexivity.
  assert (H5 : ["-DA"] ≠ []) by discriminate.
  destruct (single_token_blacklist true (λ path, path) test_config
              _ _ _ _ H1 H2 H3 H4) as (Hloop & Hcut).
  split; [exact H1|]. split; [exact H2|]. split; [exact H3|]. split; [exact H4|].
  split; [exact H5|]. split; [exact Hloop|].
  exact (Hcut (or_introl H5)).
Defined.


Lemma compiler_command_stripped_witness :
  Forall (λ arg, is_command_token true (λ path, path) "&file.cc" arg = true)
    ["./goma"; "clang-4.0"]
  ∧ is_command_token true (λ path, path) "&file.cc" "main.cc" = false
  ∧ compiler_end true (λ path, path)
      (test_entry ["./goma"; "clang-4.0"; "main.cc"; "-DA"]) = 2
  ∧ executable_of (test_entry ["./goma"; "clang-4.0"; "main.cc"; "-DA"]) 2 =
    "clang-4.0".
Proof.
  assert (H1 : Forall (λ arg, is_command_token true (λ path, path)
                                (NormalizePathWithTestOptOut true (λ path, path)
                                   (file (test_entry ["./goma"; "clang-4.0";
                                                      "main.cc"; "-DA"]))) arg = true)
                 ["./goma"; "clang-4.0"])
    by (repeat constructor).
  assert (H2 : ∀ arg, head ["main.cc"; "-DA"] = Some arg →
                 is_command_token true (λ path, path)
                   (NormalizePathWithTestOptOut true (λ path, path)
                      (file (test_entry ["./goma"; "clang-4.0"; "main.cc"; "-DA"])))
                   arg = false)
    by (intros arg [= <-]; reflexivity).
  split; [exact H1|]. split; [exact (H2 "main.cc" eq_refl)|].
  destruct (compiler_command_stripped true (λ path, path)
              (test_entry ["./goma"; "clang-4.0"; "main.cc"; "-DA"])
              ["./goma"; "clang-4.0"] ["main.cc"; "-DA"] eq_refl H1 H2)
    as (Hend & Hexecutable & _).
  split; [exact Hend|]. rewrite Hend in Hexecutable. exact Hexecutable.
Defined.

Lemma database_entries_witness :
  LoadCompilationEntriesFromDirectory true (λ path, path) (λ line, line)
    (λ _, []) (λ _, []) (λ _, false)
    (λ _, Some [ {| getDirectory := "/build"; getFilename := "src/a.cc";
                    getArgs := ["clang"; "-c"; "src/a.cc"] |};
                 {| getDirectory := "/build"; getFilename := "/abs/b.c";
                    getArgs := ["gcc"; "-DB"; "/abs/b.c"] |} ])
    test_config "" =
  Some ([ {| filename := "&&/build/src/a.cc";
             entry_args :=
               ["clang"; "-working-directory"; "/build"; "-xc++"; "-std=c++14";
                "src/a.cc"; "-resource-dir=/w/resource_dir/";
                "-Wno-unknown-warning-option"; "-fparse-all-comments"];
             is_inferred := false |};
          {| filename := "&&/abs/b.c";
             entry_args :=
               ["gcc"; "-working-directory"; "/build"; "-xc"; "-std=gnu11";
                "-DB"; "/abs/b.c"; "-resource-dir=/w/resource_dir/";
                "-Wno-unknown-warning-option"; "-fparse-all-comments"];
             is_inferred := false |} ], test_config)
  ∧ ["&&/build/src/a.cc"; "&&/abs/b.c"] =
    ["&" +:+ ("&" +:+ absolute_filename "/build" "src/a.cc");
     "&" +:+ ("&" +:+ absolute_filename "/build" "/abs/b.c")].
Proof.
  assert (H : LoadCompilationEntriesFromDirectory true (λ path, path) (λ line, line)
                (λ _, []) (λ _, []) (λ _, false)
                (λ _, Some [ {| getDirectory := "/build"; getFilename := "src/a.cc";
                                getArgs := ["clang"; "-c"; "src/a.cc"] |};
                             {| getDirectory := "/build"; getFilename := "/abs/b.c";
                                getArgs := ["gcc"; "-DB"; "/abs/b.c"] |} ])
                test_config "" =
              Some ([ {| filename := "&&/build/src/a.cc";
                         entry_args :=
                           ["clang"; "-working-directory"; "/build"; "-xc++";
                            "-std=c++14"; "src/a.cc";
                            "-resource-dir=/w/resource_dir/";
                            "-Wno-unknown-warning-option"; "-fparse-all-comments"];
                         is_inferred := false |};
                      {| filename := "&&/abs/b.c";
                         entry_args :=
                           ["gcc"; "-working-directory"; "/build"; "-xc"; "-std=gnu11";
                            "-DB"; "/abs/b.c"; "-resource-dir=/w/resource_dir/";
                            "-Wno-unknown-warning-option"; "-fparse-all-comments"];
                         is_inferred := false |} ], test_config))
    by (vm_compute; reflexivity).
  split; [exact H|].
  exact (proj1 (database_entries true (λ path, path) (λ line, line)
                  (λ _, []) (λ _, []) (λ _, false) _ test_config "" _ _ _
                  eq_refl eq_refl H)).
Defined.

Lemma listing_takes_precedence_witness :
  (λ _ : string, true) (project_dir test_config +:+ "/.cquery") = true
  ∧ LoadCompilationEntriesFromDirectory true (λ path, path) (λ line, line)
    (λ _, ["-DX"]) (λ _, ["/w/a.cc"]) (λ _, true)
    (λ _, Some [ {| getDirectory := "/build"; getFilename := "b.c";
                    getArgs := ["gcc"; "b.c"] |} ])
    test_config "" =
  LoadFromDirectoryListing true (λ path, path) (λ line, line)
    (λ _, ["-DX"]) (λ _, ["/w/a.cc"]) test_config
  ∧ is_Some
      (LoadCompilationEntriesFromDirectory true (λ path, path) (λ line, line)
         (λ _, ["-DX"]) (λ _, ["/w/a.cc"]) (λ _, true)
         (λ _, Some [ {| getDirectory := "/build"; getFilename := "b.c";
                         getArgs := ["gcc"; "b.c"] |} ])
         test_config "").
Proof.
  split; [reflexivity|].
  exact (listing_takes_precedence true (λ path, path) (λ line, line)
           (λ _, ["-DX"]) (λ _, ["/w/a.cc"]) (λ _, true) _ test_config ""
           (or_introl eq_refl)).
Defined.

Lemma load_then_find_witness :
  ∃ p e,
    Load true (λ path, path) (λ line, line) (λ _, ["-DX"; ""; "# c"])
      (λ _, ["/w/a.cc"; "/w/a.h"; "/w/b.m"]) (λ _, true) (λ _, None)
      [] "" "/w" "/r" = Some p
    ∧ e ∈ entries p
    ∧ filename e = "&/w/b.m"
    ∧ FindCompilationEntryForFile p "&/w/b.m" ∈ entries p
    ∧ filename (FindCompilationEntryForFile p "&/w/b.m") = "&/w/b.m"
    ∧ is_inferred (FindCompilationEntryForFile p "&/w/b.m") = false.
Proof.
  set (a := {| filename := "&/w/a.cc";
               entry_args :=
                 ["clang++"; "-working-directory"; "/w"; "-xc++"; "-std=c++14";
                  "-DX"; "/w/a.cc"; "-resource-dir=/r";
                  "-Wno-unknown-warning-option"; "-fparse-all-comments"];
               is_inferred := false |}).
  set (b := {| filename := "&/w/b.m";
               entry_args :=
                 ["clang++"; "-working-directory"; "/w"; "-xobjective-c"; "-DX";
                  "/w/b.m"; "-resource-dir=/r"; "-Wno-unknown-warning-option";
                  "-fparse-all-comments"];
               is_inferred := false |}).
  assert (H1 : Load true (λ path, path) (λ line, line) (λ _, ["-DX"; ""; "# c"])
                 (λ _, ["/w/a.cc"; "/w/a.h"; "/w/b.m"]) (λ _, true) (λ _, None)
                 [] "" "/w" "/r" = Some (loaded_project [a; b]))
    by (vm_compute; reflexivity).
  assert (H2 : b ∈ entries (loaded_project [a; b]))
    by (apply list_elem_of_further, list_elem_of_here).
  exists (loaded_project [a; b]), b.
  split; [exact H1|]. split; [exact H2|]. split; [reflexivity|].
  exact (load_then_find true (λ path, path) (λ line, line) _ _ _ _ _ _ _ _ _ _
           H1 H2).
Defined.

(** The two conditions under which the run is the run on the raw arguments
    without the dropped tokens are needed. A dropped value that starts
    with [-std=] keeps [-std=c++14] from being injected, which the run
    without it injects. *)
Example dropped_value_hides_guard :
  CheckFlags "/dir/" "file.cc" ["clang"; "-Xclang"; "-std=c++17"; "-DA"] =
  Some ["clang"; "-working-directory"; "/dir/"; "-xc++"; "-DA";
        "-resource-dir=/w/resource_dir/"; "-Wno-unknown-warning-option";
        "-fparse-all-comments"]
  ∧ CheckFlags "/dir/" "file.cc" ["clang"; "-DA"] =
    Some ["clang"; "-working-directory"; "/dir/"; "-xc++"; "-std=c++14"; "-DA";
          "-resource-dir=/w/resource_dir/"; "-Wno-unknown-warning-option";
          "-fparse-all-comments"].
Proof. split; vm_compute; reflexivity. Qed.

(** A dropped token that is the first one after the compiler command ends
    the scan; without it the scan goes on over the token after it. *)
Example dropped_first_token_stops_scan :
  CheckFlags "/dir/" "file.cc" ["clang"; "-c"; "gcc"; "-DA"] =
  Some ["clang"; "-working-directory"; "/dir/"; "-xc++"; "-std=c++14";
        "gcc"; "-DA"; "-resource-dir=/w/resource_dir/";
        "-Wno-unknown-warning-option"; "-fparse-all-comments"]
  ∧ CheckFlags "/dir/" "file.cc" ["clang"; "gcc"; "-DA"] =
    Some ["gcc"; "-working-directory"; "/dir/"; "-xc++"; "-std=c++14";
          "-DA"; "-resource-dir=/w/resource_dir/";
          "-Wno-unknown-warning-option"; "-fparse-all-comments"].
Proof. split; vm_compute; reflexivity. Qed.
